(** * Lensing tutorial: binned power spectrum, quadratic estimator, beam

    A shallow embedding of the numerical kernels of the two notebooks
    ([calculate_2d_spectrum] and [lens_map] of the lensing-simulation
    notebook, [gauss_beam] and [qe_reconstruct] of the reconstruction
    notebook) and the properties the specification states about them.

    Arithmetic is exact: a Python/numpy float is a real number of [R], or one
    of the IEEE special values [PInf], [NInf], [NaN] where the code can
    produce them (division by zero, square root of a negative number, mean of
    an empty selection).  Rounding, overflow of a float and the sign of zero
    are not modelled, nor is the memory an array takes. *)

From Stdlib Require Import Reals Lra Lia ZArith List.
From stdpp Require Import base list.

Local Open Scope R_scope.

(** ** Python and numpy values *)

(** A float64 value: a finite real or an IEEE special value. *)
Inductive xreal : Type :=
  | Fin (r : R)
  | PInf
  | NInf
  | NaN.

(** Exceptions the modelled code can raise. *)
Inductive exn : Type :=
  | ValueError
  | ZeroDivisionError
  | NameError
  | TypeError
  | IndexError
  | OverflowError.

(** Outcome of a call: a value, an exception, or a loop that did not finish
    within the fuel it was given. *)
Inductive outcome (A : Type) : Type :=
  | Ok (a : A)
  | Raise (e : exn)
  | OutOfFuel.
Arguments Ok {A} a.
Arguments Raise {A} e.
Arguments OutOfFuel {A}.

Module Float.

(** [a * inf] for a finite [a]: the sign of [a] decides, [0 * inf] is NaN. *)
Definition inf_of_sign (a : R) : xreal :=
  if Rlt_dec 0 a then PInf else if Rlt_dec a 0 then NInf else NaN.

Definition add (x y : xreal) : xreal :=
  match x, y with
  | Fin a, Fin b => Fin (a + b)
  | NaN, _ | _, NaN => NaN
  | PInf, NInf | NInf, PInf => NaN
  | PInf, _ | _, PInf => PInf
  | NInf, _ | _, NInf => NInf
  end.

Definition mul (x y : xreal) : xreal :=
  match x, y with
  | Fin a, Fin b => Fin (a * b)
  | NaN, _ | _, NaN => NaN
  | Fin a, PInf | PInf, Fin a => inf_of_sign a
  | Fin a, NInf | NInf, Fin a => inf_of_sign (- a)
  | PInf, PInf | NInf, NInf => PInf
  | PInf, NInf | NInf, PInf => NInf
  end.

(** numpy array division: a zero divisor gives an infinity or NaN (with a
    warning), never an exception. *)
Definition div (x y : xreal) : xreal :=
  match x, y with
  | NaN, _ | _, NaN => NaN
  | Fin a, Fin b => if Req_dec_T b 0 then inf_of_sign a else Fin (a / b)
  | Fin _, (PInf | NInf) => Fin 0
  | PInf, Fin b => if Rlt_dec b 0 then NInf else PInf
  | NInf, Fin b => if Rlt_dec b 0 then PInf else NInf
  | _, _ => NaN
  end.

Definition neg (x : xreal) : xreal :=
  match x with
  | Fin a => Fin (- a)
  | PInf => NInf
  | NInf => PInf
  | NaN => NaN
  end.

(** [np.sqrt]: NaN on a negative argument. *)
Definition sqrt (x : xreal) : xreal :=
  match x with
  | Fin a => if Rlt_dec a 0 then NaN else Fin (R_sqrt.sqrt a)
  | PInf => PInf
  | NInf | NaN => NaN
  end.

(** [x <= y]; every comparison with NaN is false. *)
Definition leb (x y : xreal) : bool :=
  match x, y with
  | NaN, _ | _, NaN => false
  | Fin a, Fin b => if Rle_dec a b then true else false
  | NInf, _ | _, PInf => true
  | _, _ => false
  end.

(** [x < y]. *)
Definition ltb (x y : xreal) : bool :=
  match x, y with
  | NaN, _ | _, NaN => false
  | Fin a, Fin b => if Rlt_dec a b then true else false
  | PInf, _ | _, NInf => false
  | _, _ => true
  end.

(** Python's [int(x)] and the C cast numpy applies when a float is stored
    into an integer array: truncation toward zero. *)
Definition to_int (x : R) : Z :=
  if Rle_dec 0 x then Int_part x else (- Int_part (- x))%Z.

End Float.

(** ** Complex numbers, as numpy's complex128 over exact reals *)

Module Cplx.

Definition C : Type := (R * R)%type.

Definition add (z w : C) : C := (z.1 + w.1, z.2 + w.2).
Definition mul (z w : C) : C := (z.1 * w.1 - z.2 * w.2, z.1 * w.2 + z.2 * w.1).
Definition conj (z : C) : C := (z.1, - z.2).
Definition real (z : C) : R := z.1.
Definition scale (a : R) (z : C) : C := (a * z.1, a * z.2).

(** [exp(i * t)]. *)
Definition cis (t : R) : C := (cos t, sin t).

Definition sum (l : list C) : C := foldr add (0, 0) l.

End Cplx.

(** ** numpy array operations

    A one-dimensional array is a list, a two-dimensional array a list of rows. *)

Module Np.

Import Cplx.

(** [np.arange(n)] as indices. *)
Definition arange (n : nat) : list nat := seq 0 n.

(** [np.outer(a, b)]. *)
Definition outer (a b : list xreal) : list (list xreal) :=
  map (fun x => map (fun y => Float.mul x y) b) a.

(** [np.transpose] of a two-dimensional array: entry [(r, c)] of the result
    is entry [(c, r)] of the argument. *)
Definition transpose {A} (g : list (list A)) : list (list A) :=
  map (fun c => omap (fun row : list A => row !! c) g)
      (seq 0 (length (hd [] g))).

(** [np.roll(l, s)] along one axis. *)
Definition roll {A} (s : nat) (l : list A) : list A :=
  drop (length l - s) l ++ take (length l - s) l.

(** The position entry [m] of an array of length [n] rolled by [s] comes
    from: [np.roll(l, s)[m] = l[(m - s) mod n]]. *)
Definition source (n s m : nat) : nat :=
  if (m <? s)%nat then (m + (n - s))%nat else (m - s)%nat.

(** [np.fft.fftshift] along one axis: roll by [n // 2]. *)
Definition fftshift1 {A} (l : list A) : list A :=
  roll (length l / 2)%nat l.

(** [np.fft.fftshift] of a two-dimensional array: every axis is shifted. *)
Definition fftshift {A} (g : list (list A)) : list (list A) :=
  fftshift1 (map fftshift1 g).

(** Entry [(r, c)] of a real two-dimensional array. *)
Definition at2 (g : list (list R)) (r c : nat) : R :=
  nth c (nth r g []) 0.

(** [a.shape] of a two-dimensional array. *)
Definition shape {A} (g : list (list A)) : nat * nat :=
  (length g, length (hd [] g)).

(** A list of rows is a two-dimensional array when its rows have one
    length; numpy makes no array of a ragged list (ValueError). *)
Definition rect {A} (g : list (list A)) : bool :=
  forallb (fun row => (length row =? length (hd [] g))%nat) g.

(** numpy broadcasting of two shapes: along each axis the lengths are equal
    or one of them is 1. *)
Definition broadcastable (s1 s2 : nat * nat) : bool :=
  ((s1.1 =? s2.1) || (s1.1 =? 1) || (s2.1 =? 1))%nat
  && ((s1.2 =? s2.2) || (s1.2 =? 1) || (s2.2 =? 1))%nat.

Definition broadcast_shape (s1 s2 : nat * nat) : nat * nat :=
  (Nat.max s1.1 s2.1, Nat.max s1.2 s2.2).

(** An axis of length 1 is repeated to length [n]. *)
Definition stretch {A} (n : nat) (l : list A) : list A :=
  match l with
  | [x] => repeat x n
  | _ => l
  end.

(** [np.broadcast_to(g, s)] for a shape [s] that [g] broadcasts to. *)
Definition broadcast_to {A} (s : nat * nat) (g : list (list A)) : list (list A) :=
  stretch s.1 (map (stretch s.2) g).

(** The values of a 64-bit integer array. *)
Definition int64 (z : Z) : bool := (- 2 ^ 63 <=? z)%Z && (z <? 2 ^ 63)%Z.

(** One output entry of the two-dimensional DFT with sign [sgn] in the
    exponent: the sum over [m < n1], [n < n2] of
    [g[m][n] * exp(sgn * 2 pi i (k m / n1 + l n / n2))]. *)
Definition dft2_entry (sgn : R) (g : list (list R)) (n1 n2 k l : nat) : C :=
  sum (map (fun m =>
         sum (map (fun n =>
                scale (at2 g m n)
                      (cis (sgn * (2 * PI * (INR k * INR m / INR n1
                                             + INR l * INR n / INR n2)))))
              (seq 0 n2)))
       (seq 0 n1)).

(** [np.fft.fft2]: the forward transform, exponent sign [-1], no scaling. *)
Definition fft2 (g : list (list R)) : list (list C) :=
  let n1 := length g in
  let n2 := length (hd [] g) in
  map (fun k => map (fun l => dft2_entry (-1) g n1 n2 k l) (seq 0 n2))
      (seq 0 n1).

(** [np.fft.ifft2]: the inverse transform, exponent sign [+1], scaled by
    [1 / (n1 * n2)]. *)
Definition ifft2 (g : list (list R)) : list (list C) :=
  let n1 := length g in
  let n2 := length (hd [] g) in
  map (fun k => map (fun l => scale (/ (INR n1 * INR n2))
                                    (dft2_entry 1 g n1 n2 k l))
                    (seq 0 n2))
      (seq 0 n1).

(** [np.real(np.conj(F1) * F2)], element by element. *)
Definition cross_real (F1 F2 : list (list C)) : list (list R) :=
  zip_with (zip_with (fun z1 z2 => real (mul (conj z1) z2))) F1 F2.

(** [mask.nonzero()] of a two-dimensional boolean array: the positions
    holding [True], found by a scan in row-major order.  [nonzero_row r c]
    scans the rest of row [r] from column [c] on, [nonzero_rows r] the rows
    from row [r] on. *)
Fixpoint nonzero_row (r c : nat) (row : list bool) : list (nat * nat) :=
  match row with
  | [] => []
  | b :: row' => (if b then [(r, c)] else []) ++ nonzero_row r (S c) row'
  end.

Fixpoint nonzero_rows (r : nat) (mask : list (list bool)) : list (nat * nat) :=
  match mask with
  | [] => []
  | row :: mask' => nonzero_row r 0 row ++ nonzero_rows (S r) mask'
  end.

Definition nonzero (mask : list (list bool)) : list (nat * nat) :=
  nonzero_rows 0 mask.

(** [g[idx]] for a tuple of index arrays: the selected entries. *)
Definition take_at (g : list (list R)) (idx : list (nat * nat)) : list R :=
  map (fun p => at2 g p.1 p.2) idx.

(** A position of an array of shape [s]. *)
Definition in_bounds (s : nat * nat) (p : nat * nat) : bool :=
  ((p.1 <? s.1) && (p.2 <? s.2))%nat.

(** [g[idx]] with numpy's bounds check: an index beyond an axis raises
    IndexError, whatever the other indices are. *)
Definition getitem (g : list (list R)) (idx : list (nat * nat)) : outcome (list R) :=
  if forallb (in_bounds (shape g)) idx then Ok (take_at g idx)
  else Raise IndexError.

Definition sum_list (l : list R) : R := foldr Rplus 0 l.

(** [np.mean] of a one-dimensional selection: [0 / 0 = NaN] (with a
    warning) when the selection is empty. *)
Definition mean (l : list R) : xreal :=
  Float.div (Fin (sum_list l)) (Fin (INR (length l))).

End Np.

(** ** [calculate_2d_spectrum] (lensing-simulation notebook) *)

Module Spectrum.

Import Np.

(** *** The 2d ell coordinate system *)

Section Grid.

Variables (pix_size : R) (N : Z).

(** [inds = (np.arange(N)+.5 - N/2.) /(N-1.)] *)
Definition inds : list xreal :=
  map (fun j => Float.div (Fin (INR j + 1 / 2 - IZR N / 2)) (Fin (IZR N - 1)))
      (arange (Z.to_nat N)).

(** [pix_size/60. * np.pi/180.] *)
Definition pix_rad : R := pix_size / 60 * PI / 180.

(** [kX = np.outer(ones,inds) / (pix_size/60. * np.pi/180.)] *)
Definition kX : list (list xreal) :=
  map (map (fun x => Float.div x (Fin pix_rad)))
      (outer (repeat (Fin 1) (Z.to_nat N)) inds).

(** [kY = np.transpose(kX)] *)
Definition kY : list (list xreal) := transpose kX.

(** [K = np.sqrt(kX**2. + kY**2.)] *)
Definition K : list (list xreal) :=
  zip_with (zip_with (fun x y =>
              Float.sqrt (Float.add (Float.mul x x) (Float.mul y y))))
           kX kY.

Definition ell_scale_factor : R := 2 * PI.

(** [ell2d = K * ell_scale_factor] *)
Definition ell2d : list (list xreal) :=
  map (map (fun k => Float.mul k (Fin ell_scale_factor))) K.

End Grid.

(** *** The binning loop *)

(** The two result arrays the loop fills in place: [ell_array] is an array
    of 64-bit integers (it is created by [np.arange(N_bins)]), [CL_array] a
    float array ([np.zeros(N_bins)]). *)
Record bins : Type := Bins { ell_array : list Z; CL_array : list xreal }.

Section Loop.

Variables (ell2d : list (list xreal)) (PSMap : list (list R)).
Variables (delta_ell : R) (N_bins : Z).

(** [((ell2d >= (i* delta_ell)) * (ell2d < ((i+1)* delta_ell))).nonzero()] *)
Definition inds_in_bin (i : Z) : list (nat * nat) :=
  nonzero
    (zip_with (zip_with andb)
       (map (map (fun e => Float.leb (Fin (IZR i * delta_ell)) e)) ell2d)
       (map (map (fun e => Float.ltb e (Fin (IZR (i + 1) * delta_ell)))) ell2d)).

(** One pass through the loop body.  Storing a float into the integer
    array [ell_array] converts it with [int()], which truncates, and raises
    OverflowError when the integer is no 64-bit value.  Selecting from
    [PSMap] raises IndexError when a selected pixel of [ell2d] is no
    position of [PSMap].  The index [i] itself is always in range. *)
Definition body (i : Z) (st : bins) : outcome bins :=
  let centre := Float.to_int ((IZR i + 1 / 2) * delta_ell) in
  if negb (int64 centre) then Raise OverflowError else
  match getitem PSMap (inds_in_bin i) with
  | Ok selected =>
      Ok {| ell_array := <[Z.to_nat i := centre]> (ell_array st);
            CL_array := <[Z.to_nat i := mean selected]> (CL_array st) |}
  | Raise e => Raise e
  | OutOfFuel => OutOfFuel
  end.

(** [while (i < N_bins): ...; i = i + 1] *)
Fixpoint while_bins (fuel : nat) (i : Z) (st : bins) : outcome bins :=
  match fuel with
  | O => OutOfFuel
  | S fuel' =>
      if (i <? N_bins)%Z then
        match body i st with
        | Ok st' => while_bins fuel' (i + 1) st'
        | Raise e => Raise e
        | OutOfFuel => OutOfFuel
        end
      else Ok st
  end.

End Loop.

(** [np.fft.ifft2] rejects an array with an empty axis. *)
Definition empty_axis {A} (g : list (list A)) : bool :=
  (length g =? 0)%nat || (length (hd [] g) =? 0)%nat.

(** [PSMap = np.fft.fftshift(np.real(np.conj(FMap1) * FMap2))] with
    [FMap = np.fft.ifft2(np.fft.fftshift(Map))].  The product broadcasts
    its two factors to one shape. *)
Definition PSMap (Map1 Map2 : list (list R)) : list (list R) :=
  let FMap1 := ifft2 (fftshift Map1) in
  let FMap2 := ifft2 (fftshift Map2) in
  let s := broadcast_shape (shape FMap1) (shape FMap2) in
  fftshift (cross_real (broadcast_to s FMap1) (broadcast_to s FMap2)).

(** The constant the result is multiplied by, in the order the code
    multiplies: [CL_array*np.sqrt(pix_size /60.* np.pi/180.)*2.] *)
Definition scale_CL (pix_size : R) (c : xreal) : xreal :=
  Float.mul (Float.mul c (Float.sqrt (Fin (pix_rad pix_size)))) (Fin 2).

(** The function, on two-dimensional maps of any shape. *)
Definition calculate_2d_spectrum (Map1 Map2 : list (list R))
    (delta_ell ell_max pix_size : R) (N : Z) : outcome (list Z * list xreal) :=
  (* np.ones(N) *)
  if (N <? 0)%Z then Raise ValueError else
  let ell2d := ell2d pix_size N in
  (* N_bins = int(ell_max/delta_ell) *)
  if Req_dec_T delta_ell 0 then Raise ZeroDivisionError else
  let N_bins := Float.to_int (ell_max / delta_ell) in
  (* ell_array = np.arange(N_bins) *)
  let ell_array0 := map Z.of_nat (arange (Z.to_nat N_bins)) in
  (* np.zeros(N_bins) *)
  if (N_bins <? 0)%Z then Raise ValueError else
  let CL_array0 := repeat (Fin 0) (Z.to_nat N_bins) in
  (* np.fft.fftshift(Map) *)
  if negb (rect Map1) || negb (rect Map2) then Raise ValueError else
  (* np.fft.ifft2 *)
  if empty_axis Map1 || empty_axis Map2 then Raise ValueError else
  (* np.conj(FMap1) * FMap2 *)
  if negb (broadcastable (shape Map1) (shape Map2)) then Raise ValueError else
  let PSMap := PSMap Map1 Map2 in
  match while_bins ell2d PSMap delta_ell N_bins
          (S (Z.to_nat N_bins)) 0 (Bins ell_array0 CL_array0) with
  | Ok st => Ok (st.(ell_array), map (scale_CL pix_size) st.(CL_array))
  | Raise e => Raise e
  | OutOfFuel => OutOfFuel
  end.

(** *** What the specification says, in its own words *)

(** A map of shape [n x n]. *)
Definition is_map (n : nat) (g : list (list R)) : Prop :=
  length g = n /\ Forall (fun row => length row = n) g.

(** A Fourier pixel lies in bin [i]: [i * delta_ell <= ell < (i+1) * delta_ell]
    for a finite [ell]; an infinite or undefined [ell] lies in no bin. *)
Definition in_bin (delta_ell : R) (i : Z) (e : xreal) : Prop :=
  match e with
  | Fin x => IZR i * delta_ell <= x < (IZR i + 1) * delta_ell
  | _ => False
  end.

(** The pixels of bin [i], as a set of positions of the grid. *)
Definition bin_pixel (ell2d : list (list xreal)) (delta_ell : R) (i : Z)
    (p : nat * nat) : Prop :=
  exists e, ell2d !! p.1 ≫= (.!! p.2) = Some e /\ in_bin delta_ell i e.

(** The average of a list of numbers. *)
Definition average (values : list R) : R :=
  fold_right Rplus 0 values / INR (length values).

(** The discrete Fourier transform of an n x n map at the frequency
    [(k, l)]: the sum over the pixels [(m, j)] of
    [g[m][j] * exp(- 2 pi i (k m + l j) / n)], as its real and its
    imaginary part. *)
Definition dft_re (g : list (list R)) (n k l : nat) : R :=
  fold_right Rplus 0
    (map (fun m =>
       fold_right Rplus 0
         (map (fun j =>
            nth j (nth m g []) 0
            * cos (2 * PI * (INR k * INR m + INR l * INR j) / INR n))
          (seq 0 n)))
     (seq 0 n)).

Definition dft_im (g : list (list R)) (n k l : nat) : R :=
  fold_right Rplus 0
    (map (fun m =>
       fold_right Rplus 0
         (map (fun j =>
            nth j (nth m g []) 0
            * - sin (2 * PI * (INR k * INR m + INR l * INR j) / INR n))
          (seq 0 n)))
     (seq 0 n)).

(** The cross-power of two maps at a frequency: the real part of the
    product of the conjugate of the transform of the first map with the
    transform of the second. *)
Definition cross_power (g1 g2 : list (list R)) (n k l : nat) : R :=
  dft_re g1 n k l * dft_re g2 n k l + dft_im g1 n k l * dft_im g2 n k l.

(** The frequency index of position [r] of a centred grid: position
    [n // 2] holds frequency 0. *)
Definition frequency (n r : nat) : nat := ((r + (n - n / 2)) mod n)%nat.

(** The cross-power at pixel [p] of the centred grid, with the factor
    [1 / n^2] the inverse transform gives each of the two transforms. *)
Definition cross_power_at (g1 g2 : list (list R)) (n : nat) (p : nat * nat) : R :=
  cross_power g1 g2 n (frequency n p.1) (frequency n p.2) / INR n ^ 4.

(** The value of a bin with the cross-power [values] at its pixels: their
    average times [sqrt(pix_size/60 * pi/180) * 2], undefined for a bin
    without pixels and for a negative pixel size. *)
Definition bin_value (pix_size : R) (values : list R) : xreal :=
  match values with
  | [] => NaN
  | _ :: _ =>
      if Rlt_dec (pix_size / 60 * PI / 180) 0 then NaN
      else Fin (average values * (sqrt (pix_size / 60 * PI / 180) * 2))
  end.

(** *** Closed forms in which the properties are stated *)

(** The integer the loop stores as the centre of bin [i]. *)
Definition bin_center (delta_ell : R) (i : nat) : Z :=
  Float.to_int ((IZR (Z.of_nat i) + 1 / 2) * delta_ell).

(** The mean the loop stores for bin [i]. *)
Definition bin_mean (ell2d : list (list xreal)) (PS : list (list R))
    (delta_ell : R) (i : nat) : xreal :=
  mean (take_at PS (inds_in_bin ell2d delta_ell (Z.of_nat i))).

(** What makes pass [i] of the loop raise, if anything. *)
Definition bin_error (ell2d : list (list xreal)) (PS : list (list R))
    (delta_ell : R) (i : nat) : option exn :=
  if negb (int64 (bin_center delta_ell i)) then Some OverflowError
  else if forallb (in_bounds (shape PS)) (inds_in_bin ell2d delta_ell (Z.of_nat i))
       then None
       else Some IndexError.

(** The first exception among the passes [bins], taken in order. *)
Fixpoint first_error (ell2d : list (list xreal)) (PS : list (list R))
    (delta_ell : R) (bins : list nat) : option exn :=
  match bins with
  | [] => None
  | i :: bins' =>
      match bin_error ell2d PS delta_ell i with
      | Some e => Some e
      | None => first_error ell2d PS delta_ell bins'
      end
  end.

(** The inputs on which the function returns: a grid size that is not
    negative, a bin width that is not zero, a bin count that is not
    negative, two rectangular maps without an empty axis whose shapes
    broadcast, bin centres that are 64-bit integers, and bins whose pixels
    are positions of the cross-power grid. *)
Record returns (Map1 Map2 : list (list R)) (delta_ell ell_max pix_size : R)
    (N : Z) : Prop := {
  returns_N : (0 <= N)%Z;
  returns_delta : delta_ell <> 0;
  returns_bins : (0 <= Float.to_int (ell_max / delta_ell))%Z;
  returns_rect1 : rect Map1 = true;
  returns_rect2 : rect Map2 = true;
  returns_Map1 : empty_axis Map1 = false;
  returns_Map2 : empty_axis Map2 = false;
  returns_shapes : broadcastable (shape Map1) (shape Map2) = true;
  returns_centres :
    forall i, (i < Z.to_nat (Float.to_int (ell_max / delta_ell)))%nat ->
      int64 (bin_center delta_ell i) = true;
  returns_pixels :
    forall i p, (i < Z.to_nat (Float.to_int (ell_max / delta_ell)))%nat ->
      bin_pixel (ell2d pix_size N) delta_ell (Z.of_nat i) p ->
      in_bounds (shape (PSMap Map1 Map2)) p = true
}.

(** The coordinate of column (or row) [j], as the code computes it. *)
Definition kcoord (pix_size : R) (N : Z) (j : nat) : xreal :=
  Float.div
    (Float.mul (Fin 1)
       (Float.div (Fin (INR j + 1 / 2 - IZR N / 2)) (Fin (IZR N - 1))))
    (Fin (pix_rad pix_size)).

(** The multipole of pixel [(r, c)]. *)
Definition ell_at (pix_size : R) (N : Z) (r c : nat) : xreal :=
  Float.mul
    (Float.sqrt (Float.add
       (Float.mul (kcoord pix_size N c) (kcoord pix_size N c))
       (Float.mul (kcoord pix_size N r) (kcoord pix_size N r))))
    (Fin ell_scale_factor).

(** The two constants of the last line as one factor. *)
Definition norm_factor (pix_size : R) : xreal :=
  Float.mul (Float.sqrt (Fin (pix_rad pix_size))) (Fin 2).

(** The cross-power grid as the specification words it: each map is
    forward-transformed, and the real part of the product of the conjugate
    of the first transform with the second is taken. *)
Definition forward_cross_power (Map1 Map2 : list (list R)) : list (list R) :=
  cross_real (fft2 Map1) (fft2 Map2).

(** Auto-spectrum non-negativity, as a property of one call: every bin of
    the auto-spectrum of [A] that contains at least one pixel holds a
    non-negative number. *)
Definition auto_spectrum_nonneg (A : list (list R))
    (delta_ell ell_max pix_size : R) (N : Z) : Prop :=
  forall ells cls (i : nat) (v : xreal),
    calculate_2d_spectrum A A delta_ell ell_max pix_size N = Ok (ells, cls) ->
    cls !! i = Some v ->
    (exists p, bin_pixel (ell2d pix_size N) delta_ell (Z.of_nat i) p) ->
    exists x, v = Fin x /\ 0 <= x.

(** A grid without negative entries. *)
Definition nonneg_grid (g : list (list R)) : Prop :=
  Forall (Forall (fun x => 0 <= x)) g.

End Spectrum.

(** ** Arrays as objects: a store of numpy arrays

    numpy arrays are mutable objects passed by reference.  The store holds one
    cell per array object; an address is the position of its cell.  Creating
    an array appends a cell, an indexed assignment overwrites one. *)

Module Store.

Section WithCell.

Context {V : Type}.

Definition heap : Type := list V.
Definition addr : Type := nat.

(** A computation on the store: its outcome and the store it leaves,
    also when it raises. *)
Definition M (A : Type) : Type := heap -> outcome A * heap.

Definition ret {A} (a : A) : M A := fun h => (Ok a, h).

Definition bind {A B} (m : M A) (k : A -> M B) : M B :=
  fun h =>
    match m h with
    | (Ok a, h') => k a h'
    | (Raise e, h') => (Raise e, h')
    | (OutOfFuel, h') => (OutOfFuel, h')
    end.

Definition raise {A} (e : exn) : M A := fun h => (Raise e, h).

Definition out_of_fuel {A} : M A := fun h => (OutOfFuel, h).

(** A new array object. *)
Definition alloc (v : V) : M addr := fun h => (Ok (length h), h ++ [v]).

(** Reading an array through a reference. *)
Definition load (a : addr) : M V :=
  fun h => match h !! a with
           | Some v => (Ok v, h)
           | None => (Raise TypeError, h)
           end.

(** Overwriting the contents of an existing array object. *)
Definition store (a : addr) (v : V) : M unit :=
  fun h => (Ok tt, <[a:=v]> h).

(** Every array object of [h] is still there in [h'], with the same
    contents. *)
Definition unchanged (h h' : heap) : Prop :=
  forall a v, h !! a = Some v -> h' !! a = Some v.

(** [a] is not the address of an array object of [h]. *)
Definition fresh (h : heap) (a : addr) : Prop := h !! a = None.

End WithCell.

Arguments heap V : clear implicits.
Arguments M V A : clear implicits.

End Store.

Declare Scope store_scope.
Delimit Scope store_scope with store.
Notation "x <- m ;; k" := (Store.bind m (fun x => k))
  (at level 100, m at next level, right associativity) : store_scope.
Notation "m ;;; k" := (Store.bind m (fun _ => k))
  (at level 100, right associativity) : store_scope.

(** ** [calculate_2d_spectrum] on the store *)

Module SpectrumStore.

Import Np Spectrum Store.
Local Open Scope store_scope.

(** The array objects the function touches: the two input maps, the
    integer array [ell_array], the float array [CL_array] and the float
    array that is returned.  The intermediate arrays (the coordinate
    grids, the transforms, the masks) are created by numpy calls, read and
    never assigned to; they are kept as values. *)
Inductive ndarray : Type :=
  | FloatGrid (g : list (list R))
  | IntVec (v : list Z)
  | FloatVec (v : list xreal).

Definition load_grid (a : addr) : M ndarray (list (list R)) :=
  v <- load a ;;
  match v with FloatGrid g => ret g | _ => raise TypeError end.

Definition load_floats (a : addr) : M ndarray (list xreal) :=
  v <- load a ;;
  match v with FloatVec c => ret c | _ => raise TypeError end.

(** [arr[i] = z] on a 64-bit integer array, for the integer [z] that
    [int()] made of the float: OverflowError when [z] is no 64-bit value. *)
Definition setitem_int (a : addr) (i : nat) (z : Z) : M ndarray unit :=
  v <- load a ;;
  match v with
  | IntVec l =>
      if int64 z then store a (IntVec (<[i:=z]> l)) else raise OverflowError
  | _ => raise TypeError
  end.

(** [g[idx]] on a value that is not assigned to. *)
Definition getitem_st (g : list (list R)) (idx : list (nat * nat))
    : M ndarray (list R) :=
  match getitem g idx with
  | Ok selected => ret selected
  | Raise e => raise e
  | OutOfFuel => out_of_fuel
  end.

(** [arr[i] = x] on a float array. *)
Definition setitem_float (a : addr) (i : nat) (x : xreal) : M ndarray unit :=
  v <- load a ;;
  match v with
  | FloatVec l => store a (FloatVec (<[i:=x]> l))
  | _ => raise TypeError
  end.

Section Loop.

Variables (ell2d : list (list xreal)) (PSMap : list (list R)).
Variables (delta_ell : R) (N_bins : Z).
Variables (ell_array CL_array : addr).

Fixpoint while_bins_st (fuel : nat) (i : Z) : M ndarray unit :=
  match fuel with
  | O => out_of_fuel
  | S fuel' =>
      if (i <? N_bins)%Z then
        setitem_int ell_array (Z.to_nat i)
          (Float.to_int ((IZR i + 1 / 2) * delta_ell)) ;;;
        selected <- getitem_st PSMap (inds_in_bin ell2d delta_ell i) ;;
        setitem_float CL_array (Z.to_nat i) (mean selected) ;;;
        while_bins_st fuel' (i + 1)
      else ret tt
  end.

End Loop.

(** The function, with [Map1] and [Map2] references into the store; it
    returns the references of [ell_array] and of the scaled copy of
    [CL_array]. *)
Definition calculate_2d_spectrum_st (Map1 Map2 : addr)
    (delta_ell ell_max pix_size : R) (N : Z) : M ndarray (addr * addr) :=
  if (N <? 0)%Z then raise ValueError else
  let ell2d := ell2d pix_size N in
  if Req_dec_T delta_ell 0 then raise ZeroDivisionError else
  let N_bins := Float.to_int (ell_max / delta_ell) in
  ell_array <- alloc (IntVec (map Z.of_nat (arange (Z.to_nat N_bins)))) ;;
  if (N_bins <? 0)%Z then raise ValueError else
  CL_array <- alloc (FloatVec (repeat (Fin 0) (Z.to_nat N_bins))) ;;
  m1 <- load_grid Map1 ;;
  m2 <- load_grid Map2 ;;
  if negb (rect m1) || negb (rect m2) then raise ValueError else
  if empty_axis m1 || empty_axis m2 then raise ValueError else
  if negb (broadcastable (shape m1) (shape m2)) then raise ValueError else
  let PSMap := PSMap m1 m2 in
  while_bins_st ell2d PSMap delta_ell N_bins ell_array CL_array
    (S (Z.to_nat N_bins)) 0 ;;;
  cl <- load_floats CL_array ;;
  out <- alloc (FloatVec (map (scale_CL pix_size) cl)) ;;
  ret (ell_array, out).

(** What the call leaves behind: every array of the store before the call
    is unchanged, the two maps among them, and a returned pair of
    addresses names two arrays that did not exist before the call and hold
    the arrays the function on values returns. *)
Definition spectrum_frame (h : heap ndarray) (Map1 Map2 : addr)
    (A B : list (list R)) (delta_ell ell_max pix_size : R) (N : Z) : Prop :=
  let run := calculate_2d_spectrum_st Map1 Map2 delta_ell ell_max pix_size N h in
  unchanged h run.2 /\
  run.2 !! Map1 = Some (FloatGrid A) /\
  run.2 !! Map2 = Some (FloatGrid B) /\
  forall p_ell p_cl, run.1 = Ok (p_ell, p_cl) ->
    fresh h p_ell /\ fresh h p_cl /\
    p_ell <> Map1 /\ p_ell <> Map2 /\ p_cl <> Map1 /\ p_cl <> Map2 /\
    exists ells cls,
      calculate_2d_spectrum A B delta_ell ell_max pix_size N = Ok (ells, cls) /\
      run.2 !! p_ell = Some (IntVec ells) /\
      run.2 !! p_cl = Some (FloatVec cls).

End SpectrumStore.

(** ** [lens_map] (lensing-simulation notebook) *)

Module Lens.

Import Store.
Local Open Scope store_scope.

Section LensMap.

(** An array, whatever its shape and element type. *)
Context {V : Type}.

(** Modelled from the spec: [kappa_to_phi], [gradient], [posmap] and
    [sky2pix] live in [lens_modules], which is not among the sources.
    The specification has maps as immutable values passed between pure
    functions, each operation returning a new map: a helper is a function
    of the contents of its array arguments whose result is a new array
    object. *)
Variable kappa_to_phi : V -> V -> V.
Variable gradient : V -> V -> V -> V.
Variable posmap : Z -> R -> V.
Variable sky2pix : V -> Z -> R -> V.

(** [a + b] on arrays, a new array. *)
Variable np_add : V -> V -> V.

(** [np.empty(a.shape, dtype=a.dtype)]: a new array of the shape of [a]
    with unspecified contents. *)
Variable np_empty_like : V -> V.

(** [scipy.ndimage.map_coordinates(input, coordinates, output, ...)]:
    the interpolated values, a function of the input and of the
    coordinates, are written into the array [output]. *)
Variable interpolate : V -> V -> V.

Definition call1 (f : V -> V) (a : addr) : M V addr :=
  x <- load a ;; alloc (f x).

Definition call2 (f : V -> V -> V) (a b : addr) : M V addr :=
  x <- load a ;; y <- load b ;; alloc (f x y).

Definition call3 (f : V -> V -> V -> V) (a b c : addr) : M V addr :=
  x <- load a ;; y <- load b ;; z <- load c ;; alloc (f x y z).

Definition map_coordinates (input coordinates output : addr) : M V unit :=
  x <- load input ;;
  c <- load coordinates ;;
  store output (interpolate x c).

Definition lens_map (input_map kappa modlmap ly lx : addr)
    (N : Z) (pix_size : R) : M V addr :=
  phi <- call2 kappa_to_phi kappa modlmap ;;
  grad_phi <- call3 gradient phi ly lx ;;
  pos <- alloc (posmap N pix_size) ;;
  deflected_pos <- call2 np_add pos grad_phi ;;
  deflected_pix <- call1 (fun p => sky2pix p N pix_size) deflected_pos ;;
  output_map <- call1 np_empty_like input_map ;;
  map_coordinates input_map deflected_pix output_map ;;;
  ret output_map.

(** What the call leaves behind: every array of the store before the
    call is unchanged, [input_map] among them, and the call returns the
    address of an array that did not exist before. *)
Definition lens_frame (h : heap V) (input_map kappa modlmap ly lx : addr)
    (N : Z) (pix_size : R) : Prop :=
  let run := lens_map input_map kappa modlmap ly lx N pix_size h in
  unchanged h run.2 /\
  run.2 !! input_map = h !! input_map /\
  exists output_map,
    run.1 = Ok output_map /\
    fresh h output_map /\ output_map <> input_map /\
    is_Some (run.2 !! output_map).

End LensMap.

End Lens.

(** ** [gauss_beam] and [qe_reconstruct] (reconstruction notebook) *)

Module Recon.

(** [np.deg2rad] *)
Definition deg2rad (x : R) : R := x * (PI / 180).

(** [gauss_beam(ell, fwhm)], at one multipole. *)
Definition gauss_beam (ell fwhm : R) : R :=
  let tht_fwhm := deg2rad (fwhm / 60) in
  exp (- (tht_fwhm ^ 2) * (ell ^ 2) / (16 * ln 2)).

(** A map or a Fourier-space grid of floats. *)
Abbreviation grid := (list (list xreal)).

(** Modelled from the spec: [kmask] lives in [lens_modules], which is not
    among the sources.  It returns a copy of the value grid with every pixel
    whose [modlmap] value lies outside [[ellmin, ellmax)] set to zero; the
    upper bound defaults to infinity. *)
Definition kmask (filter2d modlmap : grid) (ellmin : R) (ellmax : xreal) : grid :=
  zip_with (zip_with (fun v m =>
              if Float.leb (Fin ellmin) m && Float.ltb m ellmax then v
              else Fin 0))
           filter2d modlmap.

Section QE.

(** [lm.filter_map] and [lm.gradient] of [lens_modules], which is not
    among the sources: any functions of these types. *)
Variable filter_map : grid -> grid -> grid.
Variable gradient : grid -> grid -> grid -> grid * grid.

(** The local variables of [qe_reconstruct] when it reaches its [return]. *)
Record frame : Type := Frame {
  inv_noise_filter : grid;
  grad_filter : grid;
  gradTy : grid;
  gradTx : grid;
  filtered_gradTy : grid;
  filtered_gradTx : grid;
  filtered_T : grid
}.

Section Call.

Variables (tmap unlensed_cmb_power_2d total_cmb_power_2d : grid).
Variables (ellmin ellmax : R) (modlmap ly lx : grid).

(** The assignments of the body, in order. *)
Definition qe_frame : frame :=
  let inv_noise_filter :=
    kmask (map (map (fun t => Float.div (Fin 1) t)) total_cmb_power_2d)
          modlmap ellmin (Fin ellmax) in
  let grad_filter :=
    kmask (zip_with (zip_with Float.div)
             unlensed_cmb_power_2d total_cmb_power_2d)
          modlmap ellmin (Fin ellmax) in
  let '(gradTy, gradTx) := gradient tmap ly lx in
  let filtered_gradTy := filter_map gradTy grad_filter in
  let filtered_gradTx := filter_map gradTx grad_filter in
  let filtered_T := filter_map tmap inv_noise_filter in
  Frame inv_noise_filter grad_filter gradTy gradTx
        filtered_gradTy filtered_gradTx filtered_T.

(** [lm.kmask(1/modlmap**2,modlmap,ellmin=2)] *)
Definition flatten_filter : grid :=
  kmask (map (map (fun m => Float.div (Fin 1) (Float.mul m m))) modlmap)
        modlmap 2 PInf.

(** The function.  The body never assigns [recon_kappa] (the line is
    left to be added), so the name in the [return] statement is looked
    up among the globals of the notebook: [globals_recon_kappa] is its
    binding there at the time of the call, [None] when there is none. *)
Definition qe_reconstruct (globals_recon_kappa : option grid) : outcome grid :=
  let _ := qe_frame in
  match globals_recon_kappa with
  | None => Raise NameError
  | Some recon_kappa =>
      Ok (map (map Float.neg) (filter_map recon_kappa flatten_filter))
  end.

End Call.

End QE.

(** Entry [(r, c)] of a grid, when there is one. *)
Definition entry (g : grid) (r c : nat) : option xreal := g !! r ≫= (.!! c).



End Recon.

(** ** Arithmetic on maps *)

Module Maps.

(** [c * A] for a number [c] and a map [A]. *)
Definition scale_map (c : R) (A : list (list R)) : list (list R) :=
  map (map (fun x => c * x)) A.

(** [A + B] for two maps of one shape, as in [observed = beamed + noise_map]
    (numpy refuses shapes it cannot broadcast; that is not modelled). *)
Definition add_map (A B : list (list R)) : list (list R) :=
  zip_with (zip_with Rplus) A B.

(** [c * v] for a number [c] and a one-dimensional float array [v]. *)
Definition scale_floats (c : R) (v : list xreal) : list xreal :=
  map (Float.mul (Fin c)) v.

(** [v + w] for two one-dimensional float arrays of one length. *)
Definition add_floats (v w : list xreal) : list xreal := zip_with Float.add v w.

(** [np.sum(A)]: the sum of all entries of a map. *)
Definition total (A : list (list R)) : R := Np.sum_list (map Np.sum_list A).

(** Two two-dimensional arrays of one shape: as many rows, and row by row
    as many entries. *)
Definition same_shape {A B} (X : list (list A)) (Y : list (list B)) : Prop :=
  Forall2 (fun r r' => length r = length r') X Y.

End Maps.

(** ** [interp] (reconstruction notebook) and [scipy.interpolate.interp1d] *)

Module Interp.

(** [np.searchsorted(x, v)] on an increasing array: the number of leading
    entries below [v]. *)
Fixpoint searchsorted (x : list R) (v : R) : nat :=
  match x with
  | [] => 0
  | a :: x' => if Rlt_dec a v then S (searchsorted x' v) else 0
  end.

(** [idx.clip(lo, hi)] *)
Definition clip (lo hi i : nat) : nat := Nat.min hi (Nat.max lo i).

(** The linear interpolant of [interp1d], as scipy evaluates it: the index
    from [searchsorted] is clipped to [1 .. len(x) - 1], and the value is
    [slope * (x_new - x_lo) + y_lo] on the segment below that index.
    (For float64 data scipy calls [np.interp], which computes the same
    piecewise linear function.) *)
Definition call_linear (x y : list R) (x_new : R) : xreal :=
  let hi := clip 1 (length x - 1) (searchsorted x x_new) in
  let lo := (hi - 1)%nat in
  let x_lo := nth lo x 0 in
  let x_hi := nth hi x 0 in
  let y_lo := nth lo y 0 in
  let y_hi := nth hi y 0 in
  let slope := Float.div (Fin (y_hi - y_lo)) (Fin (x_hi - x_lo)) in
  Float.add (Float.mul slope (Fin (x_new - x_lo))) (Fin y_lo).

(** [interp1d(x, y, bounds_error=False, fill_value=fill_value)(x_new)]: the
    fill value below [x[0]] and above [x[-1]], no exception.  Arrays of at
    least two finite samples with [x] in increasing order, as the theory
    files give them (scipy sorts [x] first when it is not). *)
Definition interp1d (x y : list R) (fill_value : R) (x_new : R) : xreal :=
  if Rlt_dec x_new (nth 0 x 0) then Fin fill_value
  else if Rlt_dec (nth (length x - 1) x 0) x_new then Fin fill_value
  else call_linear x y x_new.

(** [interp(x, y)] of the notebook: [interp1d] with [bounds_error=False] and
    [fill_value=0.].  scipy raises ValueError when [x] and [y] differ in
    length. *)
Definition interp (x y : list R) : outcome (R -> xreal) :=
  if (length x =? length y)%nat then Ok (interp1d x y 0) else Raise ValueError.

(** The samples are strictly increasing. *)
Definition increasing (x : list R) : Prop :=
  forall i j a b, x !! i = Some a -> x !! j = Some b -> (i < j)%nat -> a < b.

End Interp.

(** ** The theory spectra (lensing-simulation notebook) *)

Module Theory.

(** [TCMB2 = 7.4311e12] *)
Definition TCMB2 : R := 74311 * 10 ^ 8.

(** [tt / ells/(ells+1.)*2.*np.pi], at one multipole. *)
Definition cl_of_dl (dl ell : R) : xreal :=
  Float.mul
    (Float.mul (Float.div (Float.div (Fin dl) (Fin ell)) (Fin (ell + 1))) (Fin 2))
    (Fin PI).

(** [ucltt*ells*(ells+1.)/2./np.pi], at one multipole. *)
Definition dl_of_cl (cl : xreal) (ell : R) : xreal :=
  Float.div
    (Float.div (Float.mul (Float.mul cl (Fin ell)) (Fin (ell + 1))) (Fin 2))
    (Fin PI).

(** [pp/4./TCMB2], at one multipole. *)
Definition ckk_of_pp (pp : R) : R := pp / 4 / TCMB2.

(** What [get_theory] returns. *)
Record theory : Type := MkTheory {
  ells : list R;
  ucltt : list xreal;
  lcltt : list xreal;
  ckk : list R
}.

(** [get_theory], from the rows of the two files: a row of the scalar
    file gives [ells], [tt] and [pp], a row of the second file [ells2] and
    the total spectrum.  [np.loadtxt(..., unpack=True)] makes one array per
    column of a file of several rows, and one number per column of a file of
    one row.  An empty scalar file leaves nothing to unpack into the six
    names (ValueError); with one row [ells] is a number, and [len(ells)]
    raises TypeError; with one row in the second file [lcltt] is a number,
    and slicing it raises IndexError.  The division of arrays goes element
    by element. *)
Definition get_theory (scal : list (R * R * R)) (total : list (R * R))
    : outcome theory :=
  match scal, total with
  | [], _ => Raise ValueError
  | [_], _ => Raise TypeError
  | _, [_] => Raise IndexError
  | _, _ =>
      let ells := map (fun row => row.1.1) scal in
      let tt := map (fun row => row.1.2) scal in
      let pp := map (fun row => row.2) scal in
      let ckk := map ckk_of_pp pp in
      let ucltt := zip_with cl_of_dl tt ells in
      let lcltt := zip_with cl_of_dl (map snd total) (map fst total) in
      (* lcltt = lcltt[:len(ells)] *)
      let lcltt := take (length ells) lcltt in
      Ok (MkTheory ells ucltt lcltt ckk)
  end.

(** [DlTT = ucltt*ells*(ells+1.)/2./np.pi], the spectrum handed to
    [make_map]. *)
Definition DlTT (t : theory) : list xreal := zip_with dl_of_cl (ucltt t) (ells t).

End Theory.

(** ** The noise and total power of the reconstruction notebook *)

Module Power.

Import Recon.

(** [Clnoise = (noise_uk_arcmin*np.pi/180./60.)**2.] *)
Definition Clnoise (noise_uk_arcmin : R) : R :=
  (noise_uk_arcmin * PI / 180 / 60) ^ 2.

(** [Dlnoise = Clnoise*ells*(ells+1.)/2./np.pi], at one multipole. *)
Definition Dlnoise (noise_uk_arcmin ell : R) : R :=
  Clnoise noise_uk_arcmin * ell * (ell + 1) / 2 / PI.

(** [interp(ells,lcltt)(modlmap) + Clnoise/kbeam2d**2.] at a pixel of
    multipole [m], with [kbeam2d = gauss_beam(modlmap,beam_arcmin)]. *)
Definition total_cmb_power (ells lcltt : list R) (noise_uk_arcmin beam_arcmin : R)
    (m : R) : xreal :=
  let kbeam := Fin (gauss_beam m beam_arcmin) in
  Float.add (Interp.interp1d ells lcltt 0 m)
            (Float.div (Fin (Clnoise noise_uk_arcmin)) (Float.mul kbeam kbeam)).

(** [1./total_cmb_power_2d] at that pixel, as [qe_reconstruct] forms it
    before masking. *)
Definition inverse_variance (ells lcltt : list R) (noise_uk_arcmin beam_arcmin : R)
    (m : R) : xreal :=
  Float.div (Fin 1) (total_cmb_power ells lcltt noise_uk_arcmin beam_arcmin m).

End Power.

(** ** Concrete inputs on which the properties are exercised *)

Module Inputs.

(** A 2 x 2 map with a single bright pixel. *)
Definition point_map : list (list R) := [[1; 0]; [0; 0]].

(** A second 2 x 2 map. *)
Definition ramp_map : list (list R) := [[0; 1]; [2; 3]].

End Inputs.

Module Samples.

(** Three multipoles in increasing order. *)
Definition sample_ells : list R := [2; 3; 4].

(** A spectrum sampled at them. *)
Definition sample_cls : list R := [6; 2; 1].

(** The rows of a scalar file: [ells], [tt] and [pp]. *)
Definition sample_scal : list (R * R * R) := [(2, 6, 1); (3, 2, 1); (4, 1, 1)].

(** The rows of a second file: [ells2] and the total spectrum. *)
Definition sample_total : list (R * R) := [(2, 7); (3, 3); (4, 2); (5, 1)].

End Samples.

(** * Properties *)

(** ** Lists and floats *)

Module ListFacts.

Lemma lookup_map {A B} (f : A -> B) (l : list A) (i : nat) :
  map f l !! i = f <$> (l !! i).
Proof. apply list_lookup_fmap. Qed.

Lemma lookup2_map {A B} (f : A -> B) (g : list (list A)) (r c : nat) :
  map (map f) g !! r ≫= (.!! c) = f <$> (g !! r ≫= (.!! c)).
Proof.
  rewrite lookup_map. destruct (g !! r) as [row|]; simpl; [|done].
  apply lookup_map.
Qed.

Lemma take_S_insert {A} (l : list A) (i : nat) (v : A) :
  (i < length l)%nat -> take (S i) (<[i:=v]> l) = take i l ++ [v].
Proof.
  intros Hi.
  rewrite (take_S_r (<[i:=v]> l) i v) by (by apply list_lookup_insert_eq).
  by rewrite take_insert_ge.
Qed.

Lemma zip_with_comm {A B} (f : A -> A -> B) (l k : list A) :
  (forall x y, f x y = f y x) -> zip_with f l k = zip_with f k l.
Proof.
  intros Hf. revert k. induction l as [|x l IH]; intros [|y k]; simpl; try done.
  by rewrite Hf, IH.
Qed.

End ListFacts.

Module FloatFacts.

Lemma mean_nil : Np.mean [] = NaN.
Proof.
  unfold Np.mean, Float.div. simpl.
  destruct (Req_dec_T 0 0) as [_|H]; [|lra].
  unfold Float.inf_of_sign.
  destruct (Rlt_dec 0 0); [lra|]. destruct (Rlt_dec 0 0); [lra|done].
Qed.

Lemma mean_cons (x : R) (l : list R) :
  Np.mean (x :: l) = Fin (Np.sum_list (x :: l) / INR (length (x :: l))).
Proof.
  unfold Np.mean, Float.div.
  destruct (Req_dec_T _ 0) as [H|_]; [|done].
  exfalso. revert H. apply not_0_INR. simpl. lia.
Qed.

(** The mean of a selection is a finite number or, for the empty one, NaN. *)
Lemma mean_cases (l : list R) :
  (l = [] /\ Np.mean l = NaN) \/
  (l <> [] /\ Np.mean l = Fin (Np.sum_list l / INR (length l))).
Proof.
  destruct l as [|x l]; [left|right]; split; try done.
  - apply mean_nil.
  - apply mean_cons.
Qed.

Lemma sqrt_cases (a : R) :
  (a < 0 /\ Float.sqrt (Fin a) = NaN) \/
  (0 <= a /\ Float.sqrt (Fin a) = Fin (sqrt a)).
Proof.
  unfold Float.sqrt. destruct (Rlt_dec a 0); [left|right]; split; try done; lra.
Qed.

Lemma to_int_nonneg (x : R) (z : Z) :
  0 <= x -> IZR z <= x < IZR z + 1 -> Float.to_int x = z.
Proof.
  intros Hx Hz. unfold Float.to_int.
  destruct (Rle_dec 0 x); [|lra].
  symmetry. apply Int_part_spec. lra.
Qed.

(** [np.sqrt(x**2. + y**2.)] of finite numbers is finite. *)
Lemma norm_finite (x y : R) :
  Float.sqrt (Float.add (Float.mul (Fin x) (Fin x)) (Float.mul (Fin y) (Fin y)))
  = Fin (sqrt (x * x + y * y)).
Proof.
  simpl. destruct (Rlt_dec (x * x + y * y) 0) as [H|_]; [|done]. nra.
Qed.

(** On a non-negative number truncation is the floor. *)
Lemma to_int_floor (x : R) : 0 <= x -> Float.to_int x = Int_part x.
Proof. intros Hx. unfold Float.to_int. by destruct (Rle_dec 0 x). Qed.

(** Truncation is toward zero and changes a number by less than one. *)
Lemma to_int_magnitude (x : R) : Rabs (IZR (Float.to_int x)) <= Rabs x.
Proof.
  unfold Float.to_int. destruct (Rle_dec 0 x) as [Hpos|Hneg].
  - destruct (base_Int_part x) as [H1 H2].
    assert (-1 < Int_part x)%Z as H by (apply lt_IZR; lra).
    assert (0 <= IZR (Int_part x)) by (apply IZR_le; lia).
    rewrite !Rabs_right by lra. done.
  - destruct (base_Int_part (- x)) as [H1 H2].
    assert (-1 < Int_part (- x))%Z as H by (apply lt_IZR; lra).
    assert (0 <= IZR (Int_part (- x))) by (apply IZR_le; lia).
    rewrite opp_IZR, Rabs_Ropp, Rabs_right by lra.
    rewrite (Rabs_left x) by lra. done.
Qed.

Lemma to_int_close (x : R) : Rabs (x - IZR (Float.to_int x)) < 1.
Proof.
  unfold Float.to_int. destruct (Rle_dec 0 x) as [Hpos|Hneg].
  - destruct (base_Int_part x) as [H1 H2]. apply Rabs_def1; lra.
  - destruct (base_Int_part (- x)) as [H1 H2]. rewrite opp_IZR.
    apply Rabs_def1; lra.
Qed.

(** A number within the 64-bit range truncates to a 64-bit integer. *)
Lemma to_int_int64 (x : R) :
  - 9223372036854775808 < x < 9223372036854775808 ->
  Np.int64 (Float.to_int x) = true.
Proof.
  intros Hx. unfold Np.int64, Float.to_int.
  change (2 ^ 63)%Z with 9223372036854775808%Z.
  apply andb_true_intro.
  destruct (Rle_dec 0 x) as [Hpos|Hneg].
  - destruct (base_Int_part x) as [H1 H2].
    assert (-1 < Int_part x)%Z by (apply lt_IZR; lra).
    assert (Int_part x < 9223372036854775808)%Z by (apply lt_IZR; lra).
    split; [apply Z.leb_le|apply Z.ltb_lt]; lia.
  - destruct (base_Int_part (- x)) as [H1 H2].
    assert (-1 < Int_part (- x))%Z by (apply lt_IZR; lra).
    assert (Int_part (- x) < 9223372036854775808)%Z by (apply lt_IZR; lra).
    split; [apply Z.leb_le|apply Z.ltb_lt]; lia.
Qed.

End FloatFacts.

(** ** Which pixels a bin selects *)

Module BinFacts.

Import Np Spectrum ListFacts.

Lemma nonzero_row_spec (r c : nat) (row : list bool) (p : nat * nat) :
  p ∈ nonzero_row r c row <->
  p.1 = r /\ (c <= p.2)%nat /\ row !! (p.2 - c)%nat = Some true.
Proof.
  revert c. induction row as [|b row IH]; intros c; simpl.
  - rewrite elem_of_nil. split; [done|]. by intros (_ & _ & ?).
  - rewrite elem_of_app, IH. destruct p as [r' c']; simpl. split.
    + intros [Hin|(-> & Hc & Hl)].
      * destruct b; [|by apply elem_of_nil in Hin].
        apply list_elem_of_singleton in Hin. injection Hin as -> ->.
        rewrite Nat.sub_diag. split_and!; [done|lia|done].
      * split_and!; [done|lia|].
        replace (c' - c)%nat with (S (c' - S c)) by lia. done.
    + intros (-> & Hc & Hl).
      destruct (decide (c' = c)) as [->|Hne].
      * left. rewrite Nat.sub_diag in Hl. injection Hl as ->.
        by apply list_elem_of_singleton.
      * right. split_and!; [done|lia|].
        replace (c' - c)%nat with (S (c' - S c)) in Hl by lia. done.
Qed.

Lemma nonzero_rows_spec (r : nat) (mask : list (list bool)) (p : nat * nat) :
  p ∈ nonzero_rows r mask <->
  (r <= p.1)%nat /\ mask !! (p.1 - r)%nat ≫= (.!! p.2) = Some true.
Proof.
  revert r. induction mask as [|row mask IH]; intros r; simpl.
  - rewrite elem_of_nil. split; [done|]. by intros (_ & ?).
  - rewrite elem_of_app, IH, nonzero_row_spec.
    destruct p as [r' c']; simpl. rewrite Nat.sub_0_r. split.
    + intros [(-> & _ & Hl)|(Hr & Hl)].
      * rewrite Nat.sub_diag. split; [lia|done].
      * split; [lia|].
        replace (r' - r)%nat with (S (r' - S r)) by lia. done.
    + intros (Hr & Hl).
      destruct (decide (r' = r)) as [->|Hne].
      * left. rewrite Nat.sub_diag in Hl. split_and!; [done|lia|done].
      * right. split; [lia|].
        replace (r' - r)%nat with (S (r' - S r)) in Hl by lia. done.
Qed.

(** [nonzero] lists exactly the positions that hold [True]. *)
Lemma nonzero_spec (mask : list (list bool)) (p : nat * nat) :
  p ∈ nonzero mask <-> mask !! p.1 ≫= (.!! p.2) = Some true.
Proof.
  unfold nonzero. rewrite nonzero_rows_spec, Nat.sub_0_r.
  split; [by intros [_ ?]|]. split; [lia|done].
Qed.

Lemma nonzero_row_NoDup (r c : nat) (row : list bool) :
  NoDup (nonzero_row r c row).
Proof.
  revert c. induction row as [|b row IH]; intros c; simpl.
  - constructor.
  - apply NoDup_app. split_and!.
    + destruct b; [apply NoDup_singleton|constructor].
    + intros p Hp Hin. apply nonzero_row_spec in Hin as (_ & Hc & _).
      destruct b; [|by apply elem_of_nil in Hp].
      apply list_elem_of_singleton in Hp. subst p. simpl in Hc. lia.
    + apply IH.
Qed.

(** and each of them once. *)
Lemma nonzero_NoDup (mask : list (list bool)) : NoDup (nonzero mask).
Proof.
  unfold nonzero. generalize 0%nat.
  induction mask as [|row mask IH]; intros r; simpl.
  - constructor.
  - apply NoDup_app. split_and!.
    + apply nonzero_row_NoDup.
    + intros p Hp Hin.
      apply nonzero_row_spec in Hp as (Hr & _).
      apply nonzero_rows_spec in Hin as (Hr' & _). lia.
    + apply IH.
Qed.

Lemma zip_with_map_same {A B C D} (f : B -> C -> D) (g : A -> B) (h : A -> C)
    (l : list A) :
  zip_with f (map g l) (map h l) = map (fun x => f (g x) (h x)) l.
Proof. induction l as [|x l IH]; simpl; [done|by rewrite IH]. Qed.

(** The product of the two comparison masks is the mask of their
    conjunction. *)
Lemma mask_product (ell2d : list (list xreal)) (lo hi : xreal) :
  zip_with (zip_with andb)
    (map (map (fun e => Float.leb lo e)) ell2d)
    (map (map (fun e => Float.ltb e hi)) ell2d)
  = map (map (fun e => Float.leb lo e && Float.ltb e hi)) ell2d.
Proof.
  rewrite zip_with_map_same. apply map_ext. intros row.
  apply zip_with_map_same.
Qed.

Lemma in_bin_test (delta_ell : R) (i : Z) (e : xreal) :
  Float.leb (Fin (IZR i * delta_ell)) e
    && Float.ltb e (Fin (IZR (i + 1) * delta_ell)) = true
  <-> in_bin delta_ell i e.
Proof.
  rewrite plus_IZR. destruct e as [x| | |]; simpl; try (split; done).
  destruct (Rle_dec _ x), (Rlt_dec x _); simpl; split; try done; intros; lra.
Qed.

(** The positions the code selects for bin [i] are the pixels of bin [i]. *)
Lemma inds_in_bin_spec (ell2d : list (list xreal)) (delta_ell : R) (i : Z)
    (p : nat * nat) :
  p ∈ inds_in_bin ell2d delta_ell i <-> bin_pixel ell2d delta_ell i p.
Proof.
  unfold inds_in_bin, bin_pixel.
  rewrite nonzero_spec, mask_product, lookup2_map.
  destruct (ell2d !! p.1 ≫= (.!! p.2)) as [e|];
    cbn [fmap option_fmap option_map].
  - split.
    + intros [= H]. exists e. split; [done|]. by apply in_bin_test.
    + intros (e' & [= <-] & H). apply in_bin_test in H. by rewrite H.
  - split; [done|]. by intros (? & ? & _).
Qed.

Lemma inds_in_bin_NoDup (ell2d : list (list xreal)) (delta_ell : R) (i : Z) :
  NoDup (inds_in_bin ell2d delta_ell i).
Proof. apply nonzero_NoDup. Qed.

(** Bins of positive width do not overlap. *)
Lemma in_bin_unique (delta_ell : R) (i j : Z) (e : xreal) :
  0 < delta_ell -> in_bin delta_ell i e -> in_bin delta_ell j e -> i = j.
Proof.
  intros Hd. destruct e as [x| | |]; simpl; try done. intros Hi Hj.
  destruct (Z.lt_trichotomy i j) as [H|[H|H]]; [|done|]; exfalso.
  - assert (IZR i + 1 <= IZR j) by (rewrite <- plus_IZR; apply IZR_le; lia). nra.
  - assert (IZR j + 1 <= IZR i) by (rewrite <- plus_IZR; apply IZR_le; lia). nra.
Qed.

(** Bins of positive width leave no gap: a multipole in
    [[0, n * delta_ell)] lies in one of the bins [0 .. n - 1]. *)
Lemma in_bin_cover (delta_ell x : R) (n : Z) :
  0 < delta_ell -> 0 <= x < IZR n * delta_ell ->
  exists i, (0 <= i < n)%Z /\ in_bin delta_ell i (Fin x).
Proof.
  intros Hd [Hx0 Hxn]. exists (Int_part (x / delta_ell)).
  destruct (base_Int_part (x / delta_ell)) as [Hlo Hhi].
  set (i := Int_part (x / delta_ell)) in *.
  assert (x = x / delta_ell * delta_ell) as Hx by (field; lra).
  assert (0 <= x / delta_ell) as Hq0.
  { apply Rmult_le_pos; [done|]. left. by apply Rinv_0_lt_compat. }
  assert (x / delta_ell < IZR n) as Hqn.
  { apply (Rmult_lt_reg_r delta_ell); [done|]. by rewrite <- Hx. }
  assert (-1 < i)%Z as Hi0 by (apply lt_IZR; lra).
  assert (i < n)%Z as Hin by (apply lt_IZR; lra).
  assert (IZR i * delta_ell <= x / delta_ell * delta_ell) as H1
    by (apply Rmult_le_compat_r; lra).
  assert (x / delta_ell * delta_ell < (IZR i + 1) * delta_ell) as H2
    by (apply Rmult_lt_compat_r; lra).
  split; [lia|]. simpl. lra.
Qed.

End BinFacts.

(** ** Shapes *)

Module ShapeFacts.

Import Cplx Np Spectrum ListFacts BinFacts.

Lemma length_roll {A} (s : nat) (l : list A) : length (roll s l) = length l.
Proof. unfold roll. rewrite length_app, length_drop, length_take. lia. Qed.

Lemma hd_Forall {A} (P : list A -> Prop) (g : list (list A)) :
  Forall P g -> g <> [] -> P (hd [] g).
Proof. intros Hg Hne. destruct g as [|row g]; [done|]. by inversion Hg. Qed.

Lemma roll_Forall {A} (P : A -> Prop) (s : nat) (l : list A) :
  Forall P l -> Forall P (roll s l).
Proof.
  intros H. unfold roll. apply Forall_app. split.
  - by apply Forall_drop.
  - by apply Forall_take.
Qed.

(** [fftshift] keeps the shape of a square map. *)
Lemma fftshift_shape (n : nat) (g : list (list R)) :
  is_map n g -> n <> 0%nat ->
  length (fftshift g) = n /\ length (hd [] (fftshift g)) = n.
Proof.
  intros [Hlen Hrows] Hn. unfold fftshift, fftshift1.
  rewrite length_roll, length_map. split; [done|].
  apply (hd_Forall (fun row => length row = n)).
  - apply roll_Forall. apply List.Forall_map.
    eapply Forall_impl; [exact Hrows|]. intros row Hrow. simpl.
    by rewrite length_roll.
  - intros Hnil. apply (f_equal length) in Hnil.
    rewrite length_roll, length_map in Hnil. simpl in Hnil. lia.
Qed.

Lemma tabulate_is_map (n : nat) (G : nat -> nat -> R) :
  is_map n (map (fun k => map (fun l => G k l) (seq 0 n)) (seq 0 n)).
Proof.
  split; [by rewrite length_map, length_seq|].
  apply Forall_forall. intros row Hrow. apply list_elem_of_In, in_map_iff in Hrow.
  destruct Hrow as (k & <- & _). by rewrite length_map, length_seq.
Qed.

Lemma is_map_shape (n : nat) (g : list (list R)) :
  is_map n g -> n <> 0%nat -> shape g = (n, n).
Proof.
  intros [Hl Hr] Hn. unfold shape. f_equal; [done|].
  apply (hd_Forall (fun row => length row = n)); [done|].
  intros ->. simpl in Hl. lia.
Qed.

(** A square map is an array, and a map with at least one pixel has no
    empty axis. *)
Lemma is_map_rect (n : nat) (g : list (list R)) : is_map n g -> rect g = true.
Proof.
  intros Hg. destruct (decide (n = 0%nat)) as [->|Hn].
  { destruct Hg as [Hl _]. apply length_zero_iff_nil in Hl. by subst. }
  pose proof (is_map_shape n g Hg Hn) as [= _ Hhd].
  destruct Hg as [_ Hr]. unfold rect. apply forallb_forall. intros row Hrow.
  apply list_elem_of_In in Hrow. rewrite Forall_forall in Hr.
  rewrite Hhd, (Hr row Hrow). apply Nat.eqb_refl.
Qed.

Lemma is_map_nonempty (n : nat) (g : list (list R)) :
  is_map n g -> n <> 0%nat -> empty_axis g = false.
Proof.
  intros Hg Hn. pose proof (is_map_shape n g Hg Hn) as [= Hl Hhd].
  unfold empty_axis. rewrite Hl, Hhd.
  destruct n; [done|reflexivity].
Qed.

Lemma broadcastable_refl (s : nat * nat) : broadcastable s s = true.
Proof. unfold broadcastable. by rewrite !Nat.eqb_refl. Qed.

Lemma broadcastable_comm (s1 s2 : nat * nat) :
  broadcastable s1 s2 = broadcastable s2 s1.
Proof.
  unfold broadcastable.
  rewrite (Nat.eqb_sym s1.1), (Nat.eqb_sym s1.2).
  by rewrite <- !orb_assoc, (orb_comm (s1.1 =? 1)%nat), (orb_comm (s1.2 =? 1)%nat).
Qed.

Lemma broadcast_shape_comm (s1 s2 : nat * nat) :
  broadcast_shape s1 s2 = broadcast_shape s2 s1.
Proof. unfold broadcast_shape. f_equal; apply Nat.max_comm. Qed.

Lemma broadcast_shape_diag (s : nat * nat) : broadcast_shape s s = s.
Proof. destruct s as [a b]. unfold broadcast_shape. simpl. by rewrite !Nat.max_id. Qed.

(** *** Broadcasting to the array's own shape changes nothing *)

Lemma stretch_same {A} (n : nat) (l : list A) : length l = n -> stretch n l = l.
Proof. intros <-. by destruct l as [|x [|y l]]. Qed.

Lemma broadcast_to_same {A} (s : nat * nat) (g : list (list A)) :
  length g = s.1 -> Forall (fun row => length row = s.2) g ->
  broadcast_to s g = g.
Proof.
  intros Hl Hr. unfold broadcast_to.
  replace (map (stretch s.2) g) with g; [by apply stretch_same|].
  clear Hl. induction Hr as [|row g Hrow Hr IH]; [done|].
  simpl. by rewrite stretch_same, <- IH.
Qed.

(** The inverse transform has the shape of its argument. *)
Lemma length_ifft2 (g : list (list R)) : length (ifft2 g) = length g.
Proof. unfold ifft2. by rewrite length_map, length_seq. Qed.

Lemma ifft2_rows (g : list (list R)) :
  Forall (fun row => length row = length (hd [] g)) (ifft2 g).
Proof.
  unfold ifft2. apply List.Forall_map, Forall_forall. intros k _.
  by rewrite length_map, length_seq.
Qed.

Lemma shape_ifft2 (g : list (list R)) : shape (ifft2 g) = shape g.
Proof.
  unfold shape. rewrite length_ifft2. f_equal.
  destruct g as [|row g]; [done|].
  unfold ifft2. cbn [length seq map hd]. by rewrite length_map, length_seq.
Qed.

Lemma broadcast_ifft2 (g : list (list R)) :
  broadcast_to (shape (ifft2 g)) (ifft2 g) = ifft2 g.
Proof.
  apply broadcast_to_same; [done|].
  rewrite shape_ifft2. apply ifft2_rows.
Qed.

(** *** The cross-power grid of two maps of one square shape *)

Lemma PSMap_square (n : nat) (A B : list (list R)) :
  is_map n A -> is_map n B ->
  PSMap A B = fftshift (cross_real (ifft2 (fftshift A)) (ifft2 (fftshift B))).
Proof.
  intros HA HB. unfold PSMap.
  destruct (decide (n = 0%nat)) as [->|Hn].
  { destruct HA as [HA _], HB as [HB _].
    apply length_zero_iff_nil in HA, HB. by subst. }
  assert (forall g, is_map n g -> shape (ifft2 (fftshift g)) = (n, n)) as Hs.
  { intros g Hg. rewrite shape_ifft2. unfold shape.
    by destruct (fftshift_shape n g Hg Hn) as [-> ->]. }
  cbv zeta. rewrite (Hs A HA), (Hs B HB), broadcast_shape_diag.
  rewrite <- (Hs A HA) at 1. rewrite broadcast_ifft2.
  rewrite <- (Hs B HB). by rewrite broadcast_ifft2.
Qed.

Lemma PSMap_is_map (n : nat) (A B : list (list R)) :
  is_map n A -> is_map n B -> n <> 0%nat -> is_map n (PSMap A B).
Proof.
  intros HA HB Hn. rewrite (PSMap_square n) by done.
  destruct (fftshift_shape n A HA Hn) as [HA1 HA2].
  destruct (fftshift_shape n B HB Hn) as [HB1 HB2].
  unfold ifft2, cross_real. rewrite HA1, HA2, HB1, HB2.
  rewrite zip_with_map_same.
  rewrite (map_ext _ (fun k => map (fun l =>
             real (mul (conj (scale (/ (INR n * INR n))
                                (dft2_entry 1 (fftshift A) n n k l)))
                       (scale (/ (INR n * INR n))
                              (dft2_entry 1 (fftshift B) n n k l))))
           (seq 0 n)))
    by (intros k; apply zip_with_map_same).
  set (G := fun k l => real (mul (conj (scale (/ (INR n * INR n))
                                (dft2_entry 1 (fftshift A) n n k l)))
                       (scale (/ (INR n * INR n))
                              (dft2_entry 1 (fftshift B) n n k l)))).
  pose proof (tabulate_is_map n G) as HG.
  destruct (fftshift_shape n _ HG Hn) as [H1 H2].
  split; [done|].
  destruct HG as [_ HG]. unfold fftshift, fftshift1.
  apply roll_Forall, List.Forall_map.
  eapply Forall_impl; [exact HG|]. intros row Hrow. simpl.
  by rewrite length_roll.
Qed.

Lemma PSMap_shape (n : nat) (A B : list (list R)) :
  is_map n A -> is_map n B -> n <> 0%nat -> shape (PSMap A B) = (n, n).
Proof. intros HA HB Hn. apply is_map_shape; [by apply PSMap_is_map|done]. Qed.

End ShapeFacts.

(** ** The binning loop computes every bin, in order *)

Module LoopFacts.

Import Np Spectrum ListFacts BinFacts.

Section Loop.

Variables (ell2d : list (list xreal)) (PS : list (list R)).
Variables (delta_ell : R) (N_bins : Z).

Lemma while_bins_S (fuel : nat) (i : Z) (st : bins) :
  while_bins ell2d PS delta_ell N_bins (S fuel) i st =
    if (i <? N_bins)%Z
    then match body ell2d PS delta_ell i st with
         | Ok st' => while_bins ell2d PS delta_ell N_bins fuel (i + 1) st'
         | Raise e => Raise e
         | OutOfFuel => OutOfFuel
         end
    else Ok st.
Proof. reflexivity. Qed.

(** One pass raises the error of its bin or stores the centre and the mean
    of the bin. *)
Lemma body_closed (i : nat) (st : bins) :
  body ell2d PS delta_ell (Z.of_nat i) st =
    match bin_error ell2d PS delta_ell i with
    | Some e => Raise e
    | None => Ok (Bins (<[i := bin_center delta_ell i]> (ell_array st))
                       (<[i := bin_mean ell2d PS delta_ell i]> (CL_array st)))
    end.
Proof.
  unfold body, bin_error, getitem, bin_center, bin_mean. rewrite Nat2Z.id.
  destruct (int64 _); [|done]. cbn [negb].
  by destruct (forallb _ _).
Qed.

Lemma while_bins_from (k i : nat) (st : bins) :
  Z.of_nat (i + k) = N_bins ->
  length (ell_array st) = (i + k)%nat ->
  length (CL_array st) = (i + k)%nat ->
  while_bins ell2d PS delta_ell N_bins (S k) (Z.of_nat i) st =
    match first_error ell2d PS delta_ell (seq i k) with
    | Some e => Raise e
    | None =>
        Ok (Bins (take i (ell_array st) ++ map (bin_center delta_ell) (seq i k))
                 (take i (CL_array st)
                  ++ map (bin_mean ell2d PS delta_ell) (seq i k)))
    end.
Proof.
  revert i st. induction k as [|k IH]; intros i [es cs] HN He Hc;
    rewrite while_bins_S; simpl in He, Hc.
  - destruct (Z.ltb_spec (Z.of_nat i) N_bins) as [Hlt|_]; [lia|].
    simpl. rewrite !app_nil_r, !take_ge by lia. done.
  - destruct (Z.ltb_spec (Z.of_nat i) N_bins) as [_|Hge]; [|lia].
    rewrite body_closed. cbn [seq first_error].
    destruct (bin_error ell2d PS delta_ell i); [done|].
    replace (Z.of_nat i + 1)%Z with (Z.of_nat (S i)) by lia.
    rewrite IH; cbn [ell_array CL_array].
    + destruct (first_error ell2d PS delta_ell (seq (S i) k)); [done|].
      rewrite !take_S_insert by lia.
      rewrite <- !app_assoc. done.
    + lia.
    + rewrite length_insert. lia.
    + rewrite length_insert. lia.
Qed.

Lemma while_bins_all (es : list Z) (cs : list xreal) :
  (0 <= N_bins)%Z ->
  length es = Z.to_nat N_bins -> length cs = Z.to_nat N_bins ->
  while_bins ell2d PS delta_ell N_bins (S (Z.to_nat N_bins)) 0 (Bins es cs) =
    match first_error ell2d PS delta_ell (seq 0 (Z.to_nat N_bins)) with
    | Some e => Raise e
    | None =>
        Ok (Bins (map (bin_center delta_ell) (seq 0 (Z.to_nat N_bins)))
                 (map (bin_mean ell2d PS delta_ell) (seq 0 (Z.to_nat N_bins))))
    end.
Proof.
  intros HN He Hc.
  change 0%Z with (Z.of_nat 0).
  rewrite while_bins_from; simpl; try done. lia.
Qed.

(** A pass raises nothing exactly when its centre is a 64-bit integer and
    its pixels are positions of the grid. *)
Lemma bin_error_None (i : nat) :
  bin_error ell2d PS delta_ell i = None <->
  int64 (bin_center delta_ell i) = true /\
  forall p, bin_pixel ell2d delta_ell (Z.of_nat i) p -> in_bounds (shape PS) p = true.
Proof.
  unfold bin_error. destruct (int64 _); cbn [negb]; [|split; [done|by intros []]].
  destruct (forallb _ _) eqn:Hall.
  - split; [|done]. intros _. split; [done|]. intros p Hp.
    rewrite forallb_forall in Hall. apply Hall.
    by apply list_elem_of_In, inds_in_bin_spec.
  - split; [done|]. intros [_ Hp]. exfalso.
    assert (forallb (in_bounds (shape PS))
              (inds_in_bin ell2d delta_ell (Z.of_nat i)) = true) as Htrue.
    { apply forallb_forall. intros p Hin. apply Hp.
      by apply inds_in_bin_spec, list_elem_of_In. }
    congruence.
Qed.

Lemma first_error_None (bins : list nat) :
  first_error ell2d PS delta_ell bins = None <->
  forall i, i ∈ bins -> bin_error ell2d PS delta_ell i = None.
Proof.
  induction bins as [|i bins IH]; simpl.
  - split; [|done]. intros _ i Hi. by apply elem_of_nil in Hi.
  - destruct (bin_error ell2d PS delta_ell i) eqn:Hi.
    + split; [done|]. intros H. specialize (H i). rewrite Hi in H.
      discriminate H. by left.
    + rewrite IH. split.
      * intros H j Hj. apply elem_of_cons in Hj as [->|Hj]; [done|by apply H].
      * intros H j Hj. apply H. by right.
Qed.

Lemma forallb_false {A} (f : A -> bool) (l : list A) :
  forallb f l = false -> exists x, x ∈ l /\ f x = false.
Proof.
  induction l as [|x l IH]; simpl; [done|].
  destruct (f x) eqn:Hx; simpl.
  - intros H. destruct (IH H) as (y & Hy & Hfy). exists y. split; [by right|done].
  - intros _. exists x. split; [by left|done].
Qed.

(** What the exception of a pass tells. *)
Lemma bin_error_Some (i : nat) (e : exn) :
  bin_error ell2d PS delta_ell i = Some e ->
  (e = OverflowError /\ int64 (bin_center delta_ell i) = false) \/
  (e = IndexError /\
   exists p, bin_pixel ell2d delta_ell (Z.of_nat i) p /\
             in_bounds (shape PS) p = false).
Proof.
  unfold bin_error. destruct (int64 _); cbn [negb]; [|intros [= <-]; by left].
  destruct (forallb _ _) eqn:Hall; [done|]. intros [= <-]. right. split; [done|].
  destruct (forallb_false _ _ Hall) as (p & Hp & Hout).
  exists p. split; [by apply inds_in_bin_spec|done].
Qed.

Lemma first_error_Some (bins : list nat) (e : exn) :
  first_error ell2d PS delta_ell bins = Some e ->
  exists i, i ∈ bins /\ bin_error ell2d PS delta_ell i = Some e.
Proof.
  induction bins as [|i bins IH]; simpl; [done|].
  destruct (bin_error ell2d PS delta_ell i) eqn:Hi.
  - intros [= <-]. exists i. split; [by left|done].
  - intros H. destruct (IH H) as (j & Hj & Hej). exists j. split; [by right|done].
Qed.

End Loop.

(** The function after its checks: the first error of the loop, or both
    arrays in closed form. *)
Lemma calculate_2d_spectrum_loop Map1 Map2 delta_ell ell_max pix_size N :
  (0 <= N)%Z -> delta_ell <> 0 -> (0 <= Float.to_int (ell_max / delta_ell))%Z ->
  rect Map1 = true -> rect Map2 = true ->
  empty_axis Map1 = false -> empty_axis Map2 = false ->
  broadcastable (shape Map1) (shape Map2) = true ->
  calculate_2d_spectrum Map1 Map2 delta_ell ell_max pix_size N =
    let n := Z.to_nat (Float.to_int (ell_max / delta_ell)) in
    match first_error (ell2d pix_size N) (PSMap Map1 Map2) delta_ell (seq 0 n) with
    | Some e => Raise e
    | None =>
        Ok (map (bin_center delta_ell) (seq 0 n),
            map (fun i => scale_CL pix_size
                            (bin_mean (ell2d pix_size N) (PSMap Map1 Map2)
                                      delta_ell i))
                (seq 0 n))
    end.
Proof.
  intros HN Hd Hb Hr1 Hr2 H1 H2 Hs. unfold calculate_2d_spectrum.
  destruct (Z.ltb_spec N 0) as [|_]; [lia|].
  destruct (Req_dec_T delta_ell 0) as [|_]; [done|].
  destruct (Z.ltb_spec (Float.to_int (ell_max / delta_ell)) 0) as [|_]; [lia|].
  rewrite Hr1, Hr2, H1, H2, Hs. cbn [orb negb].
  rewrite while_bins_all.
  - cbv zeta. destruct (first_error _ _ _ _); [done|].
    cbn [ell_array CL_array]. by rewrite map_map.
  - done.
  - unfold arange. by rewrite length_map, length_seq.
  - by rewrite repeat_length.
Qed.

(** The exceptions of the function, and what each of them tells. *)
Lemma calculate_2d_spectrum_raises Map1 Map2 delta_ell ell_max pix_size N e :
  calculate_2d_spectrum Map1 Map2 delta_ell ell_max pix_size N = Raise e ->
  (e = ValueError /\
   ((N < 0)%Z \/ (Float.to_int (ell_max / delta_ell) < 0)%Z \/
    rect Map1 = false \/ rect Map2 = false \/
    empty_axis Map1 = true \/ empty_axis Map2 = true \/
    broadcastable (shape Map1) (shape Map2) = false)) \/
  (e = ZeroDivisionError /\ delta_ell = 0) \/
  (exists i, (i < Z.to_nat (Float.to_int (ell_max / delta_ell)))%nat /\
     ((e = OverflowError /\ int64 (bin_center delta_ell i) = false) \/
      (e = IndexError /\
       exists p, bin_pixel (ell2d pix_size N) delta_ell (Z.of_nat i) p /\
                 in_bounds (shape (PSMap Map1 Map2)) p = false))).
Proof.
  intros Hcall.
  destruct (Z.ltb_spec N 0) as [HN|HN].
  { left. revert Hcall. unfold calculate_2d_spectrum.
    destruct (Z.ltb_spec N 0); [|lia]. intros [= <-]. split; [done|by left]. }
  destruct (Req_dec_T delta_ell 0) as [Hd|Hd].
  { right. left. revert Hcall. unfold calculate_2d_spectrum.
    destruct (Z.ltb_spec N 0); [lia|].
    destruct (Req_dec_T delta_ell 0); [|done]. by intros [= <-]. }
  assert (forall b : bool, b = true \/ b = false) as Hb by (intros []; auto).
  assert (Raise (A := list Z * list xreal) ValueError = Raise e -> e = ValueError)
    as Hval by (by intros [= <-]).
  destruct (Z.ltb_spec (Float.to_int (ell_max / delta_ell)) 0) as [Hn|Hn].
  { left. revert Hcall. unfold calculate_2d_spectrum.
    destruct (Z.ltb_spec N 0); [lia|].
    destruct (Req_dec_T delta_ell 0); [done|].
    destruct (Z.ltb_spec (Float.to_int (ell_max / delta_ell)) 0); [|lia].
    intros Hv. split; [by apply Hval|]. right. by left. }
  destruct (Hb (rect Map1)) as [Hr1|Hr1]; cycle 1.
  { left. revert Hcall. unfold calculate_2d_spectrum.
    destruct (Z.ltb_spec N 0); [lia|].
    destruct (Req_dec_T delta_ell 0); [done|].
    destruct (Z.ltb_spec (Float.to_int (ell_max / delta_ell)) 0); [lia|].
    rewrite Hr1. cbn [negb orb]. intros Hv. split; [by apply Hval|]. auto. }
  destruct (Hb (rect Map2)) as [Hr2|Hr2]; cycle 1.
  { left. revert Hcall. unfold calculate_2d_spectrum.
    destruct (Z.ltb_spec N 0); [lia|].
    destruct (Req_dec_T delta_ell 0); [done|].
    destruct (Z.ltb_spec (Float.to_int (ell_max / delta_ell)) 0); [lia|].
    rewrite Hr1, Hr2. cbn [negb orb]. intros Hv. split; [by apply Hval|]. auto. }
  destruct (Hb (empty_axis Map1)) as [H1|H1].
  { left. revert Hcall. unfold calculate_2d_spectrum.
    destruct (Z.ltb_spec N 0); [lia|].
    destruct (Req_dec_T delta_ell 0); [done|].
    destruct (Z.ltb_spec (Float.to_int (ell_max / delta_ell)) 0); [lia|].
    rewrite Hr1, Hr2, H1. cbn [negb orb]. intros Hv.
    split; [by apply Hval|]. auto 10. }
  destruct (Hb (empty_axis Map2)) as [H2|H2].
  { left. revert Hcall. unfold calculate_2d_spectrum.
    destruct (Z.ltb_spec N 0); [lia|].
    destruct (Req_dec_T delta_ell 0); [done|].
    destruct (Z.ltb_spec (Float.to_int (ell_max / delta_ell)) 0); [lia|].
    rewrite Hr1, Hr2, H1, H2. cbn [negb orb]. intros Hv.
    split; [by apply Hval|]. auto 10. }
  destruct (Hb (broadcastable (shape Map1) (shape Map2))) as [Hs|Hs]; cycle 1.
  { left. revert Hcall. unfold calculate_2d_spectrum.
    destruct (Z.ltb_spec N 0); [lia|].
    destruct (Req_dec_T delta_ell 0); [done|].
    destruct (Z.ltb_spec (Float.to_int (ell_max / delta_ell)) 0); [lia|].
    rewrite Hr1, Hr2, H1, H2, Hs. cbn [negb orb]. intros Hv.
    split; [by apply Hval|]. auto 10. }
  right. right.
  rewrite calculate_2d_spectrum_loop in Hcall by done. cbv zeta in Hcall.
  destruct (first_error _ _ _ _) as [e'|] eqn:Herr; [|done].
  injection Hcall as ->.
  destruct (first_error_Some _ _ _ _ _ Herr) as (i & Hi & Hei).
  apply elem_of_seq in Hi. exists i. split; [lia|].
  by apply bin_error_Some.
Qed.

(** On the inputs of [returns] the loop finishes and the function returns
    both arrays in closed form. *)
Lemma calculate_2d_spectrum_returns Map1 Map2 delta_ell ell_max pix_size N :
  returns Map1 Map2 delta_ell ell_max pix_size N ->
  calculate_2d_spectrum Map1 Map2 delta_ell ell_max pix_size N =
    let n := Z.to_nat (Float.to_int (ell_max / delta_ell)) in
    Ok (map (bin_center delta_ell) (seq 0 n),
        map (fun i => scale_CL pix_size
                        (bin_mean (ell2d pix_size N) (PSMap Map1 Map2) delta_ell i))
            (seq 0 n)).
Proof.
  intros [HN Hd Hb Hr1 Hr2 H1 H2 Hs Hc Hp].
  rewrite calculate_2d_spectrum_loop by done. cbv zeta.
  replace (first_error _ _ _ _) with (@None exn); [done|].
  symmetry. apply first_error_None. intros i Hi.
  apply elem_of_seq in Hi. apply bin_error_None. split.
  - apply Hc. lia.
  - intros p. apply Hp. lia.
Qed.

(** The function returns only on the inputs of [returns]. *)
Lemma calculate_2d_spectrum_Ok_inv Map1 Map2 delta_ell ell_max pix_size N res :
  calculate_2d_spectrum Map1 Map2 delta_ell ell_max pix_size N = Ok res ->
  returns Map1 Map2 delta_ell ell_max pix_size N.
Proof.
  intros Hcall.
  assert ((0 <= N)%Z /\ delta_ell <> 0 /\
          (0 <= Float.to_int (ell_max / delta_ell))%Z /\
          rect Map1 = true /\ rect Map2 = true /\
          empty_axis Map1 = false /\ empty_axis Map2 = false /\
          broadcastable (shape Map1) (shape Map2) = true)
    as (HN & Hd & Hb & Hr1 & Hr2 & H1 & H2 & Hs).
  { revert Hcall. unfold calculate_2d_spectrum.
    destruct (Z.ltb_spec N 0); [done|].
    destruct (Req_dec_T delta_ell 0); [done|].
    destruct (Z.ltb_spec (Float.to_int (ell_max / delta_ell)) 0); [done|].
    destruct (rect Map1); [|done]. destruct (rect Map2); [|done].
    destruct (empty_axis Map1); [done|]. destruct (empty_axis Map2); [done|].
    destruct (broadcastable _ _); [|done]. done. }
  rewrite calculate_2d_spectrum_loop in Hcall by done. cbv zeta in Hcall.
  destruct (first_error _ _ _ _) eqn:Herr; [done|].
  pose proof (proj1 (first_error_None _ _ _ _) Herr) as Hall.
  assert (forall i, (i < Z.to_nat (Float.to_int (ell_max / delta_ell)))%nat ->
            bin_error (ell2d pix_size N) (PSMap Map1 Map2) delta_ell i = None)
    as Hbin.
  { intros i Hi. apply Hall, elem_of_seq. lia. }
  constructor; try done.
  - intros i Hi. by destruct (proj1 (bin_error_None _ _ _ i) (Hbin i Hi)).
  - intros i p Hi. destruct (proj1 (bin_error_None _ _ _ i) (Hbin i Hi)) as [_ Hp].
    apply Hp.
Qed.

End LoopFacts.



(** ** The 2d ell grid in closed form *)

Module GridFacts.

Import Np Spectrum ListFacts BinFacts.

Lemma repeat_seq {A} (x : A) (n : nat) : repeat x n = map (fun _ => x) (seq 0 n).
Proof.
  generalize 0%nat. induction n as [|n IH]; intros s; simpl; [done|].
  by rewrite <- IH.
Qed.

Lemma omap_column {A} (G : nat -> nat -> A) (m c : nat) (l : list nat) :
  (c < m)%nat ->
  omap (fun row : list A => row !! c) (map (fun r => map (G r) (seq 0 m)) l)
  = map (fun r => G r c) l.
Proof.
  intros Hc. induction l as [|r l IH]; simpl; [done|].
  rewrite lookup_map, lookup_seq_lt by done. simpl. f_equal. apply IH.
Qed.

(** Transposing a tabulated [n x n] array swaps the roles of the indices. *)
Lemma transpose_tabulate {A} (G : nat -> nat -> A) (n : nat) :
  transpose (map (fun r => map (G r) (seq 0 n)) (seq 0 n))
  = map (fun c => map (fun r => G r c) (seq 0 n)) (seq 0 n).
Proof.
  unfold transpose. destruct n as [|n]; [done|].
  remember (S n) as m. replace (length _) with m.
  - apply map_ext_in. intros c Hc. apply in_seq in Hc.
    apply omap_column. lia.
  - subst m. simpl. by rewrite length_map, length_seq.
Qed.

Section Closed.

Variables (pix_size : R) (N : Z).

Lemma kX_closed :
  kX pix_size N
  = map (fun _ => map (kcoord pix_size N) (seq 0 (Z.to_nat N))) (seq 0 (Z.to_nat N)).
Proof.
  unfold kX, outer, inds, arange. rewrite repeat_seq.
  do 2 rewrite map_map.
  apply map_ext. intros _. by do 2 rewrite map_map.
Qed.

Lemma kY_closed :
  kY pix_size N
  = map (fun r => map (fun _ => kcoord pix_size N r) (seq 0 (Z.to_nat N)))
        (seq 0 (Z.to_nat N)).
Proof.
  unfold kY. rewrite kX_closed.
  apply (transpose_tabulate (fun _ c => kcoord pix_size N c)).
Qed.

Lemma ell2d_closed :
  ell2d pix_size N
  = map (fun r => map (fun c => ell_at pix_size N r c) (seq 0 (Z.to_nat N)))
        (seq 0 (Z.to_nat N)).
Proof.
  unfold ell2d, K. rewrite kX_closed, kY_closed.
  rewrite zip_with_map_same, map_map.
  apply map_ext. intros r.
  by rewrite zip_with_map_same, map_map.
Qed.

Lemma ell2d_lookup (r c : nat) (e : xreal) :
  ell2d pix_size N !! r ≫= (.!! c) = Some e <->
  (r < Z.to_nat N)%nat /\ (c < Z.to_nat N)%nat /\ e = ell_at pix_size N r c.
Proof.
  rewrite ell2d_closed, lookup_map.
  destruct (decide (r < Z.to_nat N)%nat) as [Hr|Hr].
  - rewrite lookup_seq_lt by done. simpl. rewrite lookup_map.
    destruct (decide (c < Z.to_nat N)%nat) as [Hc|Hc].
    + rewrite lookup_seq_lt by done. simpl. split.
      * intros [= <-]. done.
      * intros (_ & _ & ->). done.
    + rewrite lookup_seq_ge by lia. simpl. split; [done|]. intros (_ & ? & _). lia.
  - rewrite lookup_seq_ge by lia. simpl. split; [done|]. intros (? & _). lia.
Qed.

(** With at least two pixels a side and a pixel size that is not zero
    every coordinate is a finite number. *)
Lemma kcoord_finite (j : nat) :
  (2 <= N)%Z -> pix_size <> 0 ->
  kcoord pix_size N j
  = Fin (1 * ((INR j + 1 / 2 - IZR N / 2) / (IZR N - 1)) / pix_rad pix_size).
Proof.
  intros HN Hp. unfold kcoord, Float.div, Float.mul.
  destruct (Req_dec_T (IZR N - 1) 0) as [H|_].
  { apply IZR_le in HN. lra. }
  destruct (Req_dec_T (pix_rad pix_size) 0) as [H|_]; [|done].
  unfold pix_rad in H. pose proof PI_RGT_0. nra.
Qed.

Lemma pix_rad_nonneg : 0 <= pix_size -> 0 <= pix_rad pix_size.
Proof.
  intros Hp. unfold pix_rad. pose proof PI_RGT_0.
  apply Rmult_le_pos; [apply Rmult_le_pos|]; lra.
Qed.

Lemma ell_at_finite (r c : nat) :
  (2 <= N)%Z -> pix_size <> 0 ->
  exists x y,
    kcoord pix_size N c = Fin x /\ kcoord pix_size N r = Fin y /\
    ell_at pix_size N r c = Fin (sqrt (x * x + y * y) * ell_scale_factor).
Proof.
  intros HN Hp. eexists _, _. split_and!; try by apply kcoord_finite.
  unfold ell_at. rewrite !kcoord_finite by done.
  by rewrite FloatFacts.norm_finite.
Qed.

End Closed.

End GridFacts.

(** ** [calculate_2d_spectrum]: what it returns *)

Module SpectrumFacts.

Import Np Spectrum ListFacts FloatFacts LoopFacts BinFacts ShapeFacts GridFacts.

(** For maps of shape N x N the function returns when the grid is not
    empty, the bin width is not zero, the bin count is not negative and the
    bin centres are 64-bit integers: every pixel of [ell2d] is then a
    position of the cross-power grid. *)
Lemma returns_square Map1 Map2 delta_ell ell_max pix_size N :
  is_map (Z.to_nat N) Map1 -> is_map (Z.to_nat N) Map2 ->
  (0 < N)%Z -> delta_ell <> 0 -> (0 <= Float.to_int (ell_max / delta_ell))%Z ->
  (forall i, (i < Z.to_nat (Float.to_int (ell_max / delta_ell)))%nat ->
     int64 (bin_center delta_ell i) = true) ->
  returns Map1 Map2 delta_ell ell_max pix_size N.
Proof.
  intros H1 H2 HN Hd Hb Hc.
  assert (Z.to_nat N <> 0%nat) as Hn by lia.
  constructor; try done.
  - lia.
  - by apply (is_map_rect (Z.to_nat N)).
  - by apply (is_map_rect (Z.to_nat N)).
  - by apply (is_map_nonempty (Z.to_nat N)).
  - by apply (is_map_nonempty (Z.to_nat N)).
  - rewrite (is_map_shape _ _ H1 Hn), (is_map_shape _ _ H2 Hn).
    apply broadcastable_refl.
  - intros i p _ (e & He & _). apply ell2d_lookup in He as (Hr & Hcol & _).
    rewrite (PSMap_shape (Z.to_nat N)) by done.
    unfold in_bounds. simpl. apply andb_true_intro.
    split; apply Nat.ltb_lt; done.
Qed.

(** Multiplying by the square root and then by two is multiplying by one
    factor. *)
Lemma scale_CL_mean (pix_size : R) (l : list R) :
  scale_CL pix_size (mean l) = Float.mul (mean l) (norm_factor pix_size).
Proof.
  unfold scale_CL, norm_factor.
  destruct (mean_cases l) as [[_ ->]|[_ ->]];
    destruct (sqrt_cases (pix_rad pix_size)) as [[_ ->]|[_ ->]]; simpl; try done.
  f_equal. ring.
Qed.

(** The number of bins is the floor of [ell_max / delta_ell]. *)
Lemma bin_count_floor (q : R) :
  (0 <= Float.to_int q)%Z -> Z.to_nat (Float.to_int q) = Z.to_nat (Int_part q).
Proof.
  unfold Float.to_int. destruct (Rle_dec 0 q) as [|Hq]; [done|]. intros H.
  destruct (base_Int_part q) as [Hq1 _].
  destruct (base_Int_part (- q)) as [_ Hq2].
  assert (Int_part (- q) <= 0)%Z as H0 by lia.
  assert (Int_part q < 0)%Z as Hneg.
  { apply lt_IZR. lra. }
  assert (-1 < Int_part (- q))%Z as H1.
  { apply lt_IZR. lra. }
  lia.
Qed.

(** Every entry of both returned arrays, in closed form. *)
Lemma calculate_2d_spectrum_entries Map1 Map2 delta_ell ell_max pix_size N :
  returns Map1 Map2 delta_ell ell_max pix_size N ->
  exists ells cls,
    calculate_2d_spectrum Map1 Map2 delta_ell ell_max pix_size N = Ok (ells, cls) /\
    length ells = Z.to_nat (Int_part (ell_max / delta_ell)) /\
    length cls = Z.to_nat (Int_part (ell_max / delta_ell)) /\
    forall i, (i < Z.to_nat (Int_part (ell_max / delta_ell)))%nat ->
      ells !! i = Some (bin_center delta_ell i) /\
      cls !! i =
        Some (Float.mul
                (bin_mean (ell2d pix_size N) (PSMap Map1 Map2) delta_ell i)
                (norm_factor pix_size)).
Proof.
  intros Hret. rewrite calculate_2d_spectrum_returns by done.
  rewrite <- bin_count_floor by apply Hret.
  eexists _, _. split; [reflexivity|].
  rewrite !length_map, length_seq. split_and!; try done.
  intros i Hi. rewrite !lookup_map, lookup_seq_lt by done. simpl.
  split; [done|]. f_equal. apply scale_CL_mean.
Qed.

(** The value of a bin is the mean of the cross-power over the pixels of
    the bin, each taken once, times the factor. *)
Lemma bin_mean_pixels (ell2d : list (list xreal)) (PS : list (list R))
    (delta_ell : R) (i : nat) :
  exists pixels,
    NoDup pixels /\
    (forall p, p ∈ pixels <-> bin_pixel ell2d delta_ell (Z.of_nat i) p) /\
    bin_mean ell2d PS delta_ell i = mean (take_at PS pixels).
Proof.
  exists (inds_in_bin ell2d delta_ell (Z.of_nat i)). split_and!.
  - apply inds_in_bin_NoDup.
  - intros p. apply inds_in_bin_spec.
  - done.
Qed.

Lemma bin_mean_empty (ell2d : list (list xreal)) (PS : list (list R))
    (delta_ell : R) (i : nat) :
  (forall p, ~ bin_pixel ell2d delta_ell (Z.of_nat i) p) ->
  bin_mean ell2d PS delta_ell i = NaN.
Proof.
  intros Hempty. unfold bin_mean.
  replace (inds_in_bin ell2d delta_ell (Z.of_nat i)) with (@nil (nat * nat)).
  - apply mean_nil.
  - symmetry. apply elem_of_nil_inv. intros p Hp.
    apply inds_in_bin_spec in Hp. by apply (Hempty p).
Qed.

End SpectrumFacts.

(** ** The cross-power grid *)

Module PowerFacts.

Import Cplx Np Spectrum ListFacts ShapeFacts.

Lemma cross_real_comm (F1 F2 : list (list C)) :
  cross_real F1 F2 = cross_real F2 F1.
Proof.
  unfold cross_real. apply zip_with_comm. intros r1 r2.
  apply zip_with_comm. intros [a b] [c d]. unfold real, mul, conj. simpl. ring.
Qed.

(** The cross-power grid does not depend on the order of the maps. *)
Lemma PSMap_comm (Map1 Map2 : list (list R)) : PSMap Map1 Map2 = PSMap Map2 Map1.
Proof.
  unfold PSMap. cbv zeta.
  by rewrite cross_real_comm, (broadcast_shape_comm (shape (ifft2 (fftshift Map1)))).
Qed.

Lemma zip_with_diag {A B} (f : A -> A -> B) (l : list A) :
  zip_with f l l = map (fun x => f x x) l.
Proof. induction l as [|x l IH]; simpl; [done|by rewrite IH]. Qed.

Lemma cross_real_self_nonneg (F : list (list C)) : nonneg_grid (cross_real F F).
Proof.
  unfold nonneg_grid, cross_real. rewrite zip_with_diag.
  apply List.Forall_map, Forall_forall. intros row _.
  rewrite zip_with_diag. apply List.Forall_map, Forall_forall.
  intros [a b] _. unfold real, mul, conj. simpl. nra.
Qed.

Lemma fftshift_Forall {A} (P : A -> Prop) (g : list (list A)) :
  Forall (Forall P) g -> Forall (Forall P) (fftshift g).
Proof.
  intros H. unfold fftshift, fftshift1. apply roll_Forall.
  apply List.Forall_map. eapply Forall_impl; [exact H|].
  intros row Hrow. by apply roll_Forall.
Qed.

(** The auto-power grid has no negative entry. *)
Lemma PSMap_self_nonneg (A : list (list R)) : nonneg_grid (PSMap A A).
Proof. unfold PSMap. apply fftshift_Forall, cross_real_self_nonneg. Qed.

Lemma at2_nonneg (g : list (list R)) (r c : nat) :
  nonneg_grid g -> 0 <= at2 g r c.
Proof.
  intros Hg. unfold at2. rewrite (nth_lookup _ c).
  destruct (nth r g [] !! c) as [x|] eqn:Hx; simpl; [|lra].
  rewrite (nth_lookup g r) in Hx.
  destruct (g !! r) as [row|] eqn:Hrow; simpl in Hx; [|done].
  eapply Forall_lookup_1 in Hg; [|exact Hrow].
  eapply Forall_lookup_1 in Hg; [|exact Hx]. done.
Qed.

Lemma sum_take_at_nonneg (g : list (list R)) (idx : list (nat * nat)) :
  nonneg_grid g -> 0 <= sum_list (take_at g idx).
Proof.
  intros Hg. induction idx as [|p idx IH]; simpl; [lra|].
  pose proof (at2_nonneg g p.1 p.2 Hg). lra.
Qed.

(** The mean of a non-empty selection from a grid without negative
    entries is a non-negative number. *)
Lemma mean_take_at_nonneg (g : list (list R)) (idx : list (nat * nat)) :
  nonneg_grid g -> idx <> [] ->
  exists m, mean (take_at g idx) = Fin m /\ 0 <= m.
Proof.
  intros Hg Hne. destruct idx as [|p idx]; [done|].
  eexists. split; [apply FloatFacts.mean_cons|].
  apply Rmult_le_pos.
  - apply (sum_take_at_nonneg g (p :: idx) Hg).
  - left. apply Rinv_0_lt_compat, lt_0_INR. simpl. lia.
Qed.

End PowerFacts.

(** ** The functions on the concrete inputs *)

Module InputFacts.

Import Np Spectrum Inputs ListFacts FloatFacts LoopFacts BinFacts GridFacts.
Import SpectrumFacts.

Lemma point_map_is_map : is_map 2 point_map.
Proof. split; [done|]. repeat constructor. Qed.

Lemma ramp_map_is_map : is_map 2 ramp_map.
Proof. split; [done|]. repeat constructor. Qed.

Lemma to_int_1 : Float.to_int (1000 / 1000) = 1%Z.
Proof. apply to_int_nonneg; lra. Qed.

Lemma to_int_2 : Float.to_int (2000 / 1000) = 2%Z.
Proof. apply to_int_nonneg; lra. Qed.

Lemma floor_1 : Int_part (1000 / 1000) = 1%Z.
Proof. rewrite <- to_int_floor by lra. apply to_int_1. Qed.

Lemma floor_2 : Int_part (2000 / 1000) = 2%Z.
Proof. rewrite <- to_int_floor by lra. apply to_int_2. Qed.

(** The centres of the first two bins of width 1000 (or 5) are 64-bit
    integers. *)
Lemma centres_int64 (delta_ell : R) (i : nat) :
  0 <= delta_ell <= 1000 -> (i < 2)%nat -> int64 (bin_center delta_ell i) = true.
Proof.
  intros Hd Hi. unfold bin_center. apply to_int_int64.
  assert (i = 0 \/ i = 1)%nat as [-> | ->] by lia.
  - change (IZR (Z.of_nat 0)) with 0. lra.
  - change (IZR (Z.of_nat 1)) with 1. lra.
Qed.

Lemma returns_one_bin (A B : list (list R)) (pix_size : R) :
  is_map 2 A -> is_map 2 B -> returns A B 1000 1000 pix_size 2.
Proof.
  intros HA HB. apply returns_square; try done; try lra.
  - rewrite to_int_1. lia.
  - rewrite to_int_1. intros i Hi. apply centres_int64; [lra|]. simpl in Hi. lia.
Qed.

Lemma returns_two_bins (A B : list (list R)) (pix_size : R) :
  is_map 2 A -> is_map 2 B -> returns A B 1000 2000 pix_size 2.
Proof.
  intros HA HB. apply returns_square; try done; try lra.
  - rewrite to_int_2. lia.
  - rewrite to_int_2. intros i Hi. apply centres_int64; [lra|]. simpl in Hi. lia.
Qed.

(** On a 2 x 2 grid all four pixels have the same multipole. *)
Lemma ell_at_two (pix_size : R) (r c : nat) :
  pix_size <> 0 -> (r < 2)%nat -> (c < 2)%nat ->
  ell_at pix_size 2 r c
  = Fin (sqrt (/ (2 * (pix_rad pix_size * pix_rad pix_size))) * ell_scale_factor).
Proof.
  intros Hp Hr Hc.
  destruct (ell_at_finite pix_size 2 r c) as (x & y & Hx & Hy & ->); [lia|done|].
  rewrite kcoord_finite in Hx, Hy by (done || lia).
  injection Hx as <-. injection Hy as <-.
  assert (pix_rad pix_size <> 0) as Hpr.
  { unfold pix_rad. pose proof PI_RGT_0. nra. }
  do 3 f_equal.
  assert (r = 0 \/ r = 1)%nat as [-> | ->] by lia;
    assert (c = 0 \/ c = 1)%nat as [-> | ->] by lia; cbn [INR]; field; done.
Qed.

(** For a pixel of one degree (60 arcminutes, of either sign) that
    multipole lies in [[0, 1000)]. *)
Lemma ell_at_two_degree (pix_size : R) (r c : nat) :
  pix_size = 60 \/ pix_size = -60 -> (r < 2)%nat -> (c < 2)%nat ->
  exists v, ell_at pix_size 2 r c = Fin v /\ 0 <= v < 1000.
Proof.
  intros Hp Hr Hc. eexists. split; [apply ell_at_two; try done; lra|].
  pose proof PI_RGT_0 as Hpi. unfold ell_scale_factor.
  assert (pix_rad pix_size * pix_rad pix_size = (PI / 180) * (PI / 180)) as ->.
  { unfold pix_rad. destruct Hp as [-> | ->]; field. }
  set (a := / (2 * (PI / 180 * (PI / 180)))).
  assert (0 <= a) as Ha.
  { unfold a. left. apply Rinv_0_lt_compat. nra. }
  split.
  - apply Rmult_le_pos; [apply sqrt_pos|lra].
  - assert (sqrt a < 500 / PI) as Hlt.
    { rewrite <- (sqrt_square (500 / PI)).
      - apply sqrt_lt_1_alt. split; [done|].
        unfold a. apply (Rmult_lt_reg_r (PI * PI)); [nra|].
        field_simplify; lra.
      - left. apply Rdiv_lt_0_compat; lra. }
    apply (Rmult_lt_compat_r (2 * PI)) in Hlt; [|lra].
    replace (500 / PI * (2 * PI)) with 1000 in Hlt by (field; lra). done.
Qed.

(** All four pixels lie in bin 0 of width 1000, for either sign of the
    pixel size. *)
Lemma bin0_pixel (pix_size : R) :
  pix_size = 60 \/ pix_size = -60 ->
  bin_pixel (ell2d pix_size 2) 1000 0 (0%nat, 0%nat).
Proof.
  intros Hp.
  destruct (ell_at_two_degree pix_size 0 0 Hp) as (v & Hv & Hb); [lia|lia|].
  exists (Fin v). split.
  - apply ell2d_lookup. simpl. split_and!; [lia|lia|done].
  - simpl. lra.
Qed.

(** and none in bin 1. *)
Lemma bin1_empty (p : nat * nat) : ~ bin_pixel (ell2d 60 2) 1000 1 p.
Proof.
  intros (e & He & Hin). apply ell2d_lookup in He as (Hr & Hc & ->).
  destruct (ell_at_two_degree 60 p.1 p.2) as (v & Hv & Hb);
    [by left|simpl in Hr; lia|simpl in Hc; lia|].
  rewrite Hv in Hin. simpl in Hin. lra.
Qed.

End InputFacts.

(** * The claims about [calculate_2d_spectrum] *)

Section SpectrumClaims.

Import Np Spectrum Inputs.
Import ListFacts FloatFacts LoopFacts BinFacts ShapeFacts GridFacts SpectrumFacts.
Import PowerFacts InputFacts.

(** C1.  For maps [A] and [B] of shape N x N and a positive bin width,
    [calculate_2d_spectrum(A, B, ...)] and [calculate_2d_spectrum(B, A, ...)]
    return the same pair of arrays (or raise the same exception): every
    centre and every bin value of the two results agree.  A bin without
    pixels holds NaN in both. *)
Theorem calculate_2d_spectrum_symmetric (A B : list (list R))
    (delta_ell ell_max pix_size : R) (N : Z) :
  is_map (Z.to_nat N) A -> is_map (Z.to_nat N) B -> 0 < delta_ell ->
  calculate_2d_spectrum A B delta_ell ell_max pix_size N
  = calculate_2d_spectrum B A delta_ell ell_max pix_size N.
Proof.
  intros _ _ _. unfold calculate_2d_spectrum.
  by rewrite (PSMap_comm A B), (orb_comm (empty_axis A)),
    (orb_comm (negb (rect A))), (broadcastable_comm (shape A)).
Qed.

Lemma calculate_2d_spectrum_symmetric_witness :
  calculate_2d_spectrum point_map ramp_map 10 1000 (3 / 2) 2
  = calculate_2d_spectrum ramp_map point_map 10 1000 (3 / 2) 2.
Proof.
  apply (calculate_2d_spectrum_symmetric point_map ramp_map 10 1000 (3 / 2) 2).
  - split; [reflexivity|repeat constructor].
  - split; [reflexivity|repeat constructor].
  - lra.
Defined.

(** C2, as stated, fails: with a negative pixel size the square root in the
    last line is NaN, so the one bin of the auto-spectrum of [point_map],
    which contains pixel (0, 0), holds NaN and not a non-negative number. *)
Lemma auto_spectrum_negative_pixel_size :
  ~ auto_spectrum_nonneg point_map 1000 1000 (-60) 2.
Proof.
  intros Hclaim.
  destruct (calculate_2d_spectrum_entries point_map point_map 1000 1000 (-60) 2)
    as (ells & cls & Hcall & _ & _ & Hbins).
  { apply returns_one_bin; apply point_map_is_map. }
  destruct (Hbins 0%nat) as [_ Hcl]; [rewrite floor_1; simpl; lia|].
  assert (norm_factor (-60) = NaN) as Hnorm.
  { unfold norm_factor.
    destruct (sqrt_cases (pix_rad (-60))) as [[_ ->]|[Hpos _]]; [done|].
    unfold pix_rad in Hpos. pose proof PI_RGT_0. lra. }
  rewrite Hnorm in Hcl.
  assert (forall x, Float.mul x NaN = NaN) as Hmul by (by intros []).
  rewrite Hmul in Hcl.
  destruct (Hclaim ells cls 0%nat NaN Hcall Hcl) as (x & Hx & _); [|done].
  exists (0%nat, 0%nat). apply bin0_pixel. by right.
Qed.

(** C2, amended.  For a pixel size that is not negative, every bin of
    [calculate_2d_spectrum(A, A, ...)] that contains at least one pixel holds
    a non-negative number. *)
Theorem auto_spectrum_nonneg_holds (A : list (list R))
    (delta_ell ell_max pix_size : R) (N : Z) :
  0 <= pix_size -> auto_spectrum_nonneg A delta_ell ell_max pix_size N.
Proof.
  intros Hps ells cls i v Hcall Hv [p Hp].
  pose proof (calculate_2d_spectrum_Ok_inv _ _ _ _ _ _ _ Hcall) as Hret.
  destruct (calculate_2d_spectrum_entries A A delta_ell ell_max pix_size N Hret)
    as (ells' & cls' & Hcall' & _ & Hlen & Hbins).
  rewrite Hcall in Hcall'. injection Hcall' as <- <-.
  destruct (Hbins i) as [_ Hcl].
  { rewrite <- Hlen. apply lookup_lt_is_Some. eauto. }
  rewrite Hv in Hcl. injection Hcl as ->.
  destruct (mean_take_at_nonneg (PSMap A A)
              (inds_in_bin (ell2d pix_size N) delta_ell (Z.of_nat i)))
    as (m & Hm & Hm0).
  { apply PSMap_self_nonneg. }
  { intros Hnil. apply inds_in_bin_spec in Hp. rewrite Hnil in Hp.
    by apply elem_of_nil in Hp. }
  unfold bin_mean. rewrite Hm. unfold norm_factor.
  destruct (sqrt_cases (pix_rad pix_size)) as [[Hneg _]|[Hpos ->]].
  { pose proof (pix_rad_nonneg pix_size Hps). lra. }
  simpl. eexists. split; [done|].
  pose proof (sqrt_pos (pix_rad pix_size)).
  apply Rmult_le_pos; [done|lra].
Qed.

Lemma auto_spectrum_nonneg_holds_witness :
  0 <= 60 /\ auto_spectrum_nonneg point_map 1000 1000 60 2.
Proof.
  split; [lra|]. apply (auto_spectrum_nonneg_holds point_map 1000 1000 60 2). lra.
Defined.

(** C3 fails on the code: [ell_array] is created by [np.arange(N_bins)], an
    integer array, so the centre [(i + 0.5) * delta_ell] is truncated when it
    is stored.  With [delta_ell = 5] and [ell_max = 10] the function returns
    the centres 2 and 7, not 2.5 and 7.5. *)
Theorem ell_array_truncated :
  exists cls,
    calculate_2d_spectrum point_map point_map 5 10 60 2 = Ok ([2; 7]%Z, cls) /\
    IZR 2 <> (0 + 1 / 2) * 5 /\ IZR 7 <> (1 + 1 / 2) * 5.
Proof.
  assert (Float.to_int (10 / 5) = 2%Z) as Hn by (apply to_int_nonneg; lra).
  eexists. split; [|split; lra].
  rewrite calculate_2d_spectrum_returns.
  - rewrite Hn. change (Z.to_nat 2) with 2%nat. cbn [seq map].
    unfold bin_center.
    change (Z.of_nat 0) with 0%Z. change (Z.of_nat 1) with 1%Z.
    replace (Float.to_int ((0 + 1 / 2) * 5)) with 2%Z
      by (symmetry; apply to_int_nonneg; lra).
    replace (Float.to_int ((1 + 1 / 2) * 5)) with 7%Z
      by (symmetry; apply to_int_nonneg; lra).
    reflexivity.
  - apply returns_square;
      [apply point_map_is_map|apply point_map_is_map|lia|lra|rewrite Hn; lia|].
    rewrite Hn. intros i Hi. apply centres_int64; [lra|]. simpl in Hi. lia.
Qed.

(** C6.  When bin [i] contains no pixel the function still returns: the
    entry of bin [i] is NaN, and every other bin [j] holds, as it does when no
    bin is empty, the mean over its own pixels times the factor. *)
Theorem empty_bin_yields_nan (Map1 Map2 : list (list R))
    (delta_ell ell_max pix_size : R) (N : Z) (i : nat) :
  returns Map1 Map2 delta_ell ell_max pix_size N ->
  (i < Z.to_nat (Int_part (ell_max / delta_ell)))%nat ->
  (forall p, ~ bin_pixel (ell2d pix_size N) delta_ell (Z.of_nat i) p) ->
  exists ells cls,
    calculate_2d_spectrum Map1 Map2 delta_ell ell_max pix_size N = Ok (ells, cls) /\
    cls !! i = Some NaN /\
    forall j, (j < Z.to_nat (Int_part (ell_max / delta_ell)))%nat -> j <> i ->
      exists pixels,
        NoDup pixels /\
        (forall p, p ∈ pixels <->
                   bin_pixel (ell2d pix_size N) delta_ell (Z.of_nat j) p) /\
        cls !! j = Some (Float.mul (mean (take_at (PSMap Map1 Map2) pixels))
                                   (norm_factor pix_size)).
Proof.
  intros Hret Hi Hempty.
  destruct (calculate_2d_spectrum_entries Map1 Map2 delta_ell ell_max pix_size N Hret)
    as (ells & cls & Hcall & _ & Hlen & Hbins).
  exists ells, cls. split_and!; try done.
  - destruct (Hbins i Hi) as [_ ->]. by rewrite bin_mean_empty.
  - intros j Hj _. destruct (Hbins j Hj) as [_ Hcl].
    destruct (bin_mean_pixels (ell2d pix_size N) (PSMap Map1 Map2) delta_ell j)
      as (pixels & Hnd & Hpix & Hmean).
    exists pixels. split_and!; try done. by rewrite <- Hmean.
Qed.

Lemma empty_bin_yields_nan_witness :
  exists ells cls,
    calculate_2d_spectrum point_map ramp_map 1000 2000 60 2 = Ok (ells, cls) /\
    cls !! 1%nat = Some NaN /\
    forall j, (j < Z.to_nat (Int_part (2000 / 1000)))%nat -> j <> 1%nat ->
      exists pixels,
        NoDup pixels /\
        (forall p, p ∈ pixels <-> bin_pixel (ell2d 60 2) 1000 (Z.of_nat j) p) /\
        cls !! j = Some (Float.mul (mean (take_at (PSMap point_map ramp_map) pixels))
                                   (norm_factor 60)).
Proof.
  apply (empty_bin_yields_nan point_map ramp_map 1000 2000 60 2 1).
  - apply returns_two_bins; [apply point_map_is_map|apply ramp_map_is_map].
  - rewrite floor_2. simpl. lia.
  - apply bin1_empty.
Defined.

End SpectrumClaims.

(** ** The store *)

Module StoreFacts.

Import Store.
Local Open Scope store_scope.

Section WithCell.

Context {V : Type}.
Implicit Types (h : heap V) (a : addr) (v : V).

Lemma unchanged_app h (l : list V) : unchanged h (h ++ l).
Proof. intros a v Hv. by apply lookup_app_l_Some. Qed.

Lemma fresh_length h a : (length h <= a)%nat -> fresh h a.
Proof. intros Ha. by apply lookup_ge_None_2. Qed.

Lemma lookup_new h (l : list V) (i : nat) :
  (h ++ l) !! (length h + i)%nat = l !! i.
Proof. rewrite lookup_app_r by lia. f_equal. lia. Qed.

Lemma insert_new h (l : list V) (i : nat) v :
  <[(length h + i)%nat := v]> (h ++ l) = h ++ <[i := v]> l.
Proof. rewrite insert_app_r_alt by lia. do 2 f_equal. lia. Qed.

(** Reading an array that existed before the call. *)
Lemma load_old h (l : list V) a v :
  h !! a = Some v -> load a (h ++ l) = (Ok v, h ++ l).
Proof. intros Hv. unfold load. by rewrite (lookup_app_l_Some _ _ _ _ Hv). Qed.

(** Reading an array created during the call. *)
Lemma load_new h (l : list V) (i : nat) v :
  l !! i = Some v -> load (length h + i)%nat (h ++ l) = (Ok v, h ++ l).
Proof. intros Hv. unfold load. by rewrite lookup_new, Hv. Qed.

(** Creating one more array during the call. *)
Lemma alloc_new h (l : list V) v :
  alloc v (h ++ l) = (Ok (length h + length l)%nat, h ++ (l ++ [v])).
Proof. unfold alloc. by rewrite length_app, app_assoc. Qed.

(** Creating the first array of the call. *)
Lemma alloc_first h v : alloc v h = (Ok (length h + 0)%nat, h ++ [v]).
Proof. unfold alloc. by rewrite Nat.add_0_r. Qed.

(** Overwriting an array created during the call. *)
Lemma store_new h (l : list V) (i : nat) v :
  store (length h + i)%nat v (h ++ l) = (Ok tt, h ++ <[i := v]> l).
Proof. unfold store. by rewrite insert_new. Qed.

Lemma bind_Ok {A B} (m : M V A) (k : A -> M V B) h (x : A) h' :
  m h = (Ok x, h') -> bind m k h = k x h'.
Proof. intros Hm. unfold bind. by rewrite Hm. Qed.

Lemma bind_Raise {A B} (m : M V A) (k : A -> M V B) h (e : exn) h' :
  m h = (Raise e, h') -> bind m k h = (Raise e, h').
Proof. intros Hm. unfold bind. by rewrite Hm. Qed.

Lemma bind_OutOfFuel {A B} (m : M V A) (k : A -> M V B) h h' :
  m h = (OutOfFuel, h') -> bind m k h = (OutOfFuel, h').
Proof. intros Hm. unfold bind. by rewrite Hm. Qed.

End WithCell.

End StoreFacts.

(** ** [lens_map] touches only arrays it creates *)

Module LensFacts.

Import Store Lens StoreFacts.
Local Open Scope store_scope.

Section LensMap.

Context {V : Type}.
Variables (kappa_to_phi : V -> V -> V) (gradient : V -> V -> V -> V).
Variables (posmap : Z -> R -> V) (sky2pix : V -> Z -> R -> V).
Variables (np_add : V -> V -> V) (np_empty_like : V -> V).
Variable interpolate : V -> V -> V.

(** The call creates six arrays after the existing ones and returns the
    last of them, which holds the interpolated map. *)
Lemma lens_map_run (h : heap V) (input_map kappa modlmap ly lx : addr)
    (v_in v_kappa v_modl v_ly v_lx : V) (N : Z) (pix_size : R) :
  h !! input_map = Some v_in -> h !! kappa = Some v_kappa ->
  h !! modlmap = Some v_modl -> h !! ly = Some v_ly -> h !! lx = Some v_lx ->
  let phi := kappa_to_phi v_kappa v_modl in
  let grad_phi := gradient phi v_ly v_lx in
  let pos := posmap N pix_size in
  let deflected_pos := np_add pos grad_phi in
  let deflected_pix := sky2pix deflected_pos N pix_size in
  lens_map kappa_to_phi gradient posmap sky2pix np_add np_empty_like
           interpolate input_map kappa modlmap ly lx N pix_size h
  = (Ok (length h + 5)%nat,
     h ++ [phi; grad_phi; pos; deflected_pos; deflected_pix;
           interpolate v_in deflected_pix]).
Proof.
  intros Hin Hk Hm Hly Hlx phi grad_phi pos dpos dpix.
  unfold lens_map, call1, call2, call3, map_coordinates.
  rewrite <- (app_nil_r h) at 1.
  erewrite bind_Ok; cycle 1.
  { erewrite bind_Ok by (by apply load_old).
    erewrite bind_Ok by (by apply load_old).
    apply alloc_new. }
  erewrite bind_Ok; cycle 1.
  { erewrite bind_Ok by (by apply (load_new h _ 0)).
    erewrite bind_Ok by (by apply load_old).
    erewrite bind_Ok by (by apply load_old).
    apply alloc_new. }
  erewrite bind_Ok by apply alloc_new.
  erewrite bind_Ok; cycle 1.
  { erewrite bind_Ok by (by apply (load_new h _ 2)).
    erewrite bind_Ok by (by apply (load_new h _ 1)).
    apply alloc_new. }
  erewrite bind_Ok; cycle 1.
  { erewrite bind_Ok by (by apply (load_new h _ 3)).
    apply alloc_new. }
  erewrite bind_Ok; cycle 1.
  { erewrite bind_Ok by (by apply load_old).
    apply alloc_new. }
  erewrite bind_Ok; cycle 1.
  { erewrite bind_Ok by (by apply load_old).
    erewrite bind_Ok by (by apply (load_new h _ 4)).
    apply (store_new h _ 5). }
  reflexivity.
Qed.

End LensMap.

End LensFacts.

(** ** [calculate_2d_spectrum] on the store agrees with the function on values *)

Module SpectrumStoreFacts.

Import Np Spectrum Store SpectrumStore StoreFacts LoopFacts.
Local Open Scope store_scope.

Lemma setitem_int_new (h : heap ndarray) (l : list ndarray) (k i : nat)
    (es : list Z) (z : Z) :
  l !! k = Some (IntVec es) -> int64 z = true ->
  setitem_int (length h + k)%nat i z (h ++ l)
  = (Ok tt, h ++ <[k := IntVec (<[i := z]> es)]> l).
Proof.
  intros Hk Hz. unfold setitem_int.
  erewrite bind_Ok by (by apply load_new). rewrite Hz. apply store_new.
Qed.

Lemma setitem_int_overflow (h : heap ndarray) (l : list ndarray) (k i : nat)
    (es : list Z) (z : Z) :
  l !! k = Some (IntVec es) -> int64 z = false ->
  setitem_int (length h + k)%nat i z (h ++ l) = (Raise OverflowError, h ++ l).
Proof.
  intros Hk Hz. unfold setitem_int.
  erewrite bind_Ok by (by apply load_new). by rewrite Hz.
Qed.

Lemma setitem_float_new (h : heap ndarray) (l : list ndarray) (k i : nat)
    (cs : list xreal) (x : xreal) :
  l !! k = Some (FloatVec cs) ->
  setitem_float (length h + k)%nat i x (h ++ l)
  = (Ok tt, h ++ <[k := FloatVec (<[i := x]> cs)]> l).
Proof.
  intros Hk. unfold setitem_float.
  erewrite bind_Ok by (by apply load_new). apply store_new.
Qed.

Section Loop.

Variables (ell2d : list (list xreal)) (PS : list (list R)).
Variables (delta_ell : R) (N_bins : Z).

(** The loop on the store ends as the loop on values does, writes into
    [ell_array] and [CL_array] what that loop computes, and writes into
    nothing else, also when it raises. *)
Lemma while_bins_st_run (h : heap ndarray) (fuel : nat) (i : Z) (st : bins) :
  exists st',
    while_bins_st ell2d PS delta_ell N_bins
      (length h + 0)%nat (length h + 1)%nat fuel i
      (h ++ [IntVec (ell_array st); FloatVec (CL_array st)])
    = (match while_bins ell2d PS delta_ell N_bins fuel i st with
       | Ok _ => Ok tt
       | Raise e => Raise e
       | OutOfFuel => OutOfFuel
       end,
       h ++ [IntVec (ell_array st'); FloatVec (CL_array st')]) /\
    forall st'', while_bins ell2d PS delta_ell N_bins fuel i st = Ok st'' ->
                 st' = st''.
Proof.
  revert i st. induction fuel as [|fuel IH]; intros i st; simpl.
  { exists st. split; [done|]. intros st'' [=]. }
  destruct (i <? N_bins)%Z; [|exists st; split; [done|by intros st'' [= <-]]].
  unfold body.
  destruct (int64 (Float.to_int ((IZR i + 1 / 2) * delta_ell))) eqn:Hz;
    cbn [negb].
  - erewrite bind_Ok by (by apply (setitem_int_new h _ 0)).
    cbn [insert list_insert].
    unfold getitem_st.
    destruct (getitem PS (inds_in_bin ell2d delta_ell i)) as [selected|e|].
    + erewrite bind_Ok by reflexivity.
      erewrite bind_Ok by (by apply (setitem_float_new h _ 1)).
      apply (IH (i + 1)%Z
               (Bins (<[Z.to_nat i := Float.to_int ((IZR i + 1 / 2) * delta_ell)]>
                        (ell_array st))
                     (<[Z.to_nat i := mean selected]> (CL_array st)))).
    + exists (Bins (<[Z.to_nat i := Float.to_int ((IZR i + 1 / 2) * delta_ell)]>
                      (ell_array st)) (CL_array st)).
      split; [|intros st'' [=]].
      by erewrite bind_Raise by reflexivity.
    + exists (Bins (<[Z.to_nat i := Float.to_int ((IZR i + 1 / 2) * delta_ell)]>
                      (ell_array st)) (CL_array st)).
      split; [|intros st'' [=]]. reflexivity.
  - exists st. split; [|intros st'' [=]].
    by erewrite bind_Raise
      by (by apply (setitem_int_overflow h
                      [IntVec (ell_array st); FloatVec (CL_array st)] 0 _
                      (ell_array st))).
Qed.

End Loop.

(** The call on the store: the store only grows, and when the function on
    values returns [(ells, cls)] the call returns the addresses of two of
    the new arrays, which hold [ells] and [cls]. *)
Lemma calculate_2d_spectrum_st_run (h : heap ndarray) (Map1 Map2 : addr)
    (A B : list (list R)) (delta_ell ell_max pix_size : R) (N : Z) :
  h !! Map1 = Some (FloatGrid A) -> h !! Map2 = Some (FloatGrid B) ->
  exists new,
    (calculate_2d_spectrum_st Map1 Map2 delta_ell ell_max pix_size N h).2
    = h ++ new /\
    match calculate_2d_spectrum A B delta_ell ell_max pix_size N with
    | Ok (ells, cls) =>
        (calculate_2d_spectrum_st Map1 Map2 delta_ell ell_max pix_size N h).1
        = Ok (length h, (length h + 2)%nat) /\
        exists raw, new = [IntVec ells; FloatVec raw; FloatVec cls]
    | Raise e =>
        (calculate_2d_spectrum_st Map1 Map2 delta_ell ell_max pix_size N h).1
        = Raise e
    | OutOfFuel =>
        (calculate_2d_spectrum_st Map1 Map2 delta_ell ell_max pix_size N h).1
        = OutOfFuel
    end.
Proof.
  intros H1 H2. unfold calculate_2d_spectrum_st, calculate_2d_spectrum.
  destruct (N <? 0)%Z.
  { exists []. by rewrite app_nil_r. }
  destruct (Req_dec_T delta_ell 0).
  { exists []. by rewrite app_nil_r. }
  set (N_bins := Float.to_int (ell_max / delta_ell)).
  set (e0 := map Z.of_nat (arange (Z.to_nat N_bins))).
  set (c0 := repeat (Fin 0) (Z.to_nat N_bins)).
  erewrite bind_Ok by apply alloc_first.
  destruct (Z.ltb_spec N_bins 0) as [|Hbins].
  { by eexists. }
  erewrite bind_Ok by apply alloc_new.
  unfold load_grid.
  erewrite bind_Ok; cycle 1.
  { erewrite bind_Ok by (by apply load_old). reflexivity. }
  erewrite bind_Ok; cycle 1.
  { erewrite bind_Ok by (by apply load_old). reflexivity. }
  destruct (negb (rect A) || negb (rect B)).
  { by eexists. }
  destruct (empty_axis A || empty_axis B).
  { by eexists. }
  destruct (negb (broadcastable (shape A) (shape B))).
  { by eexists. }
  destruct (while_bins_st_run (ell2d pix_size N) (PSMap A B) delta_ell N_bins
              h (S (Z.to_nat N_bins)) 0 (Bins e0 c0)) as (st' & Hrun & Hok).
  cbn [ell_array CL_array] in Hrun.
  destruct (while_bins (ell2d pix_size N) (PSMap A B) delta_ell N_bins
              (S (Z.to_nat N_bins)) 0 (Bins e0 c0)) as [st|e|] eqn:Hloop.
  - rewrite <- (Hok st eq_refl) in *.
    erewrite bind_Ok by exact Hrun.
    unfold load_floats.
    erewrite bind_Ok; cycle 1.
    { erewrite bind_Ok by (by apply (load_new h _ 1)). reflexivity. }
    erewrite bind_Ok by apply alloc_new.
    eexists. split; [reflexivity|]. simpl. rewrite Nat.add_0_r.
    split; [done|]. by eexists.
  - erewrite bind_Raise by exact Hrun. by eexists.
  - erewrite bind_OutOfFuel by exact Hrun. by eexists.
Qed.

End SpectrumStoreFacts.

(** * The claim about mutation *)

Section FrameClaim.

Import Np Spectrum Store SpectrumStore Lens Inputs.
Import StoreFacts SpectrumStoreFacts LensFacts.

(** C9.  A call of [calculate_2d_spectrum] with the maps at [Map1] and [Map2]
    (which may be the same array), and a call of [lens_map] with its five
    arrays in the store, leave every array that existed before the call
    unchanged, the input maps among them, and return arrays created during
    the call, at addresses different from those of the inputs. *)
Theorem inputs_not_mutated
    (h : heap ndarray) (Map1 Map2 : addr) (A B : list (list R))
    (delta_ell ell_max pix_size : R) (N : Z)
    (V : Type) (kappa_to_phi : V -> V -> V) (gradient : V -> V -> V -> V)
    (posmap : Z -> R -> V) (sky2pix : V -> Z -> R -> V)
    (np_add : V -> V -> V) (np_empty_like : V -> V) (interpolate : V -> V -> V)
    (h2 : heap V) (input_map kappa modlmap ly lx : addr) (N2 : Z) (pix_size2 : R) :
  h !! Map1 = Some (FloatGrid A) -> h !! Map2 = Some (FloatGrid B) ->
  is_Some (h2 !! input_map) -> is_Some (h2 !! kappa) ->
  is_Some (h2 !! modlmap) -> is_Some (h2 !! ly) -> is_Some (h2 !! lx) ->
  spectrum_frame h Map1 Map2 A B delta_ell ell_max pix_size N /\
  lens_frame kappa_to_phi gradient posmap sky2pix np_add np_empty_like interpolate
             h2 input_map kappa modlmap ly lx N2 pix_size2.
Proof.
  intros H1 H2 [v_in Hin] [v_k Hk] [v_m Hm] [v_ly Hly] [v_lx Hlx]. split.
  - unfold spectrum_frame.
    destruct (calculate_2d_spectrum_st_run h Map1 Map2 A B
                delta_ell ell_max pix_size N H1 H2) as (new & Hheap & Hres).
    cbv zeta. rewrite Hheap. split_and!.
    + apply unchanged_app.
    + by apply lookup_app_l_Some.
    + by apply lookup_app_l_Some.
    + intros p_ell p_cl Hrun. rewrite Hrun in Hres.
      destruct (calculate_2d_spectrum A B delta_ell ell_max pix_size N)
        as [[ells cls]|e|]; try done.
      destruct Hres as [[= -> ->] (raw & ->)].
      assert (forall a v, h !! a = Some v -> (a < length h)%nat) as Hlt.
      { intros a v Hv. apply lookup_lt_is_Some. eauto. }
      pose proof (Hlt _ _ H1). pose proof (Hlt _ _ H2).
      split_and!; try (apply fresh_length; lia); try lia.
      exists ells, cls. split_and!; [done| |].
      * by rewrite <- (Nat.add_0_r (length h)), lookup_new.
      * by rewrite lookup_new.
  - unfold lens_frame. cbv zeta.
    rewrite (lens_map_run _ _ _ _ _ _ _ h2 input_map kappa modlmap ly lx
               v_in v_k v_m v_ly v_lx N2 pix_size2) by done.
    cbn [fst snd]. split_and!.
    + apply unchanged_app.
    + rewrite Hin. by apply lookup_app_l_Some.
    + exists (length h2 + 5)%nat.
      assert (input_map < length h2)%nat.
      { apply lookup_lt_is_Some. eauto. }
      split_and!; [done|apply fresh_length; lia|lia|].
      rewrite lookup_new. by eexists.
Qed.

Lemma inputs_not_mutated_witness :
  spectrum_frame [FloatGrid point_map; FloatGrid ramp_map] 0%nat 1%nat
    point_map ramp_map 1000 2000 60 2 /\
  lens_frame (fun k _ => k) (fun p _ _ => p) (fun _ _ => point_map)
    (fun p _ _ => p) (fun a _ => a) (fun a => a) (fun x _ => x)
    [point_map; ramp_map; ramp_map; point_map; point_map]
    0%nat 1%nat 2%nat 3%nat 4%nat 2 60.
Proof.
  apply (inputs_not_mutated
           [FloatGrid point_map; FloatGrid ramp_map] 0%nat 1%nat
           point_map ramp_map 1000 2000 60 2 (list (list R))).
  - reflexivity.
  - reflexivity.
  - eexists; reflexivity.
  - eexists; reflexivity.
  - eexists; reflexivity.
  - eexists; reflexivity.
  - eexists; reflexivity.
Defined.

End FrameClaim.

(** ** The reconstruction notebook *)

Module ReconFacts.

Import Recon.

Lemma lookup2_zip_with {A B C} (f : A -> B -> C)
    (g1 : list (list A)) (g2 : list (list B)) (r c : nat) :
  zip_with (zip_with f) g1 g2 !! r ≫= (.!! c)
  = match g1 !! r ≫= (.!! c), g2 !! r ≫= (.!! c) with
    | Some x, Some y => Some (f x y)
    | _, _ => None
    end.
Proof.
  rewrite lookup_zip_with.
  destruct (g1 !! r) as [r1|], (g2 !! r) as [r2|]; simpl; try done.
  - rewrite lookup_zip_with. by destruct (r1 !! c), (r2 !! c).
  - by destruct (r1 !! c).
Qed.



(** Below multipole 2, the origin included, the flattening filter is zero. *)
Lemma flatten_filter_low (modlmap : grid) (r c : nat) (x : R) :
  entry modlmap r c = Some (Fin x) -> x < 2 ->
  entry (flatten_filter modlmap) r c = Some (Fin 0).
Proof.
  intros Hm Hx. unfold entry, flatten_filter, kmask in *.
  rewrite lookup2_zip_with, ListFacts.lookup2_map, Hm.
  cbn [fmap option_fmap option_map Float.leb andb].
  destruct (Rle_dec 2 x); [lra|done].
Qed.

(** With [recon_kappa] bound among the globals, the function returns the
    negated, flattened map. *)
Lemma qe_reconstruct_bound (filter_map : grid -> grid -> grid)
    (gradient : grid -> grid -> grid -> grid * grid)
    (tmap unlensed total : grid) (ellmin ellmax : R) (modlmap ly lx : grid)
    (recon_kappa : grid) :
  qe_reconstruct filter_map gradient tmap unlensed total ellmin ellmax
                 modlmap ly lx (Some recon_kappa)
  = Ok (map (map Float.neg) (filter_map recon_kappa (flatten_filter modlmap))).
Proof. reflexivity. Qed.

Lemma ln_2_pos : 0 < ln 2.
Proof. rewrite <- ln_1. apply ln_increasing; lra. Qed.

(** The exponent of the beam is never positive, and zero only at [ell = 0]. *)
Lemma beam_exponent (ell fwhm : R) :
  0 < fwhm ->
  let x := - (deg2rad (fwhm / 60) ^ 2) * (ell ^ 2) / (16 * ln 2) in
  x <= 0 /\ (x = 0 <-> ell = 0).
Proof.
  intros Hf x. pose proof ln_2_pos as Hln. pose proof PI_RGT_0 as Hpi.
  assert (0 < deg2rad (fwhm / 60)) as Ht.
  { unfold deg2rad. apply Rmult_lt_0_compat; lra. }
  set (t := deg2rad (fwhm / 60)) in *.
  assert (x = - (t ^ 2 * ell ^ 2) * / (16 * ln 2)) as Hx.
  { unfold x. field. lra. }
  assert (0 < / (16 * ln 2)) as Hd by (apply Rinv_0_lt_compat; lra).
  assert (0 < t ^ 2) as Ht2 by (apply pow_lt; lra).
  assert (0 <= ell ^ 2) as He2 by (apply pow2_ge_0).
  set (a := t ^ 2 * ell ^ 2) in *. set (b := / (16 * ln 2)) in *.
  assert (0 <= a * b) as Hab.
  { apply Rmult_le_pos; [apply Rmult_le_pos|]; lra. }
  split.
  - rewrite Hx. lra.
  - split.
    + intros H0. rewrite Hx in H0.
      assert (a * b = 0) as H1 by lra.
      apply Rmult_integral in H1 as [H1|H1]; [|lra].
      apply Rmult_integral in H1 as [H1|H1]; [lra|].
      apply Rmult_integral in H1 as [H1|H1]; [done|lra].
    + intros He. rewrite Hx. unfold a. rewrite He. ring.
Qed.

End ReconFacts.

(** * The claims about the reconstruction notebook *)

Section ReconClaims.

Import Recon ReconFacts.


(** C8 fails on the code: the body of [qe_reconstruct] never assigns
    [recon_kappa] (the line that computes the divergence is left to be
    added), so in a notebook run from the top, where no global of that name
    exists, the [return] statement raises NameError and no map is returned. *)
Theorem qe_reconstruct_raises (filter_map : grid -> grid -> grid)
    (gradient : grid -> grid -> grid -> grid * grid)
    (tmap unlensed total : grid) (ellmin ellmax : R) (modlmap ly lx : grid) :
  qe_reconstruct filter_map gradient tmap unlensed total ellmin ellmax
                 modlmap ly lx None
  = Raise NameError.
Proof. reflexivity. Qed.

(** C10.  For a positive [fwhm], [gauss_beam(ell, fwhm)] is
    [exp(-(deg2rad(fwhm/60))^2 ell^2 / (16 ln 2))]; it lies in (0, 1], is 1
    exactly at [ell = 0], and is never zero, so the quotient [1 / beam] of
    the deconvolution is a finite number. *)
Theorem gauss_beam_unit_interval (ell fwhm : R) :
  0 < fwhm ->
  gauss_beam ell fwhm
  = exp (- (deg2rad (fwhm / 60) ^ 2) * (ell ^ 2) / (16 * ln 2)) /\
  0 < gauss_beam ell fwhm <= 1 /\
  (gauss_beam ell fwhm = 1 <-> ell = 0) /\
  gauss_beam ell fwhm <> 0 /\
  Float.div (Fin 1) (Fin (gauss_beam ell fwhm)) = Fin (1 / gauss_beam ell fwhm).
Proof.
  intros Hf. destruct (beam_exponent ell fwhm Hf) as [Hle Hiff].
  unfold gauss_beam. cbv zeta in *.
  set (x := - (deg2rad (fwhm / 60) ^ 2) * (ell ^ 2) / (16 * ln 2)) in *.
  pose proof (exp_pos x) as Hpos.
  assert (exp x <= 1) as Hone.
  { rewrite <- exp_0. destruct Hle as [Hlt| ->]; [|lra].
    left. by apply exp_increasing. }
  split_and!; try done; try lra.
  - split.
    + intros H1. apply Hiff. apply exp_inv. by rewrite exp_0.
    + intros H0. apply Hiff in H0. rewrite H0. apply exp_0.
  - unfold Float.div. destruct (Req_dec_T (exp x) 0); [lra|done].
Qed.

Lemma gauss_beam_unit_interval_witness :
  0 < 1 / 10 /\
  0 < gauss_beam 3000 (1 / 10) <= 1 /\
  (gauss_beam 3000 (1 / 10) = 1 <-> 3000 = 0) /\
  gauss_beam 3000 (1 / 10) <> 0.
Proof.
  split; [lra|].
  destruct (gauss_beam_unit_interval 3000 (1 / 10)) as (_ & H1 & H2 & H3 & _);
    [lra|].
  split; [exact H1|]. split; [exact H2|exact H3].
Defined.

End ReconClaims.

(** ** The inverse transform of a real map and its forward transform *)

Module TransformFacts.

Import Cplx Np Spectrum ListFacts ShapeFacts.

Lemma sum_conj (l : list C) : sum (map conj l) = conj (sum l).
Proof.
  induction l as [|z l IH]; simpl.
  - unfold conj. simpl. f_equal. ring.
  - rewrite IH. unfold conj, add. simpl. f_equal. ring.
Qed.

Lemma term_conj (a t : R) : scale a (cis (1 * t)) = conj (scale a (cis (-1 * t))).
Proof.
  unfold scale, cis, conj. simpl.
  replace (1 * t) with t by ring. replace (-1 * t) with (- t) by ring.
  rewrite cos_neg, sin_neg. f_equal. ring.
Qed.

(** On real data the sum with exponent sign [+1] is the conjugate of the
    sum with exponent sign [-1]. *)
Lemma dft2_entry_conj (g : list (list R)) (n1 n2 k l : nat) :
  dft2_entry 1 g n1 n2 k l = conj (dft2_entry (-1) g n1 n2 k l).
Proof.
  unfold dft2_entry. rewrite <- sum_conj, map_map. f_equal.
  apply map_ext. intros m. rewrite <- sum_conj, map_map. f_equal.
  apply map_ext. intros n. apply term_conj.
Qed.

(** [ifft2] of a real array is the scaled conjugate of [fft2]. *)
Lemma ifft2_fft2 (g : list (list R)) :
  ifft2 g
  = map (map (fun z => scale (/ (INR (length g) * INR (length (hd [] g))))
                             (conj z)))
        (fft2 g).
Proof.
  unfold ifft2, fft2. rewrite map_map. apply map_ext. intros k.
  rewrite map_map. apply map_ext. intros l. by rewrite dft2_entry_conj.
Qed.

Lemma zip_with_map_map {A B A' B' D} (f : A' -> B' -> D) (u : A -> A')
    (w : B -> B') (l : list A) (k : list B) :
  zip_with f (map u l) (map w k) = zip_with (fun x y => f (u x) (w y)) l k.
Proof.
  revert k. induction l as [|x l IH]; intros [|y k]; simpl; try done.
  by rewrite IH.
Qed.

Lemma zip_with_post {A B D E} (f : A -> B -> D) (u : D -> E)
    (l : list A) (k : list B) :
  zip_with (fun x y => u (f x y)) l k = map u (zip_with f l k).
Proof.
  revert k. induction l as [|x l IH]; intros [|y k]; simpl; try done.
  by rewrite IH.
Qed.

Lemma zip_with_ext2 {A B D} (f f' : A -> B -> D) (l : list A) (k : list B) :
  (forall x y, f x y = f' x y) -> zip_with f l k = zip_with f' l k.
Proof.
  intros Hf. revert k. induction l as [|x l IH]; intros [|y k]; simpl; try done.
  by rewrite Hf, IH.
Qed.

(** The cross-power of two scaled conjugates is the scaled cross-power. *)
Lemma cross_real_scaled (s1 s2 : R) (F1 F2 : list (list C)) :
  cross_real (map (map (fun z => scale s1 (conj z))) F1)
             (map (map (fun z => scale s2 (conj z))) F2)
  = map (map (fun v => v * (s1 * s2))) (cross_real F1 F2).
Proof.
  unfold cross_real. rewrite zip_with_map_map.
  rewrite <- zip_with_post. apply zip_with_ext2. intros r1 r2.
  rewrite zip_with_map_map, <- zip_with_post.
  apply zip_with_ext2. intros [a b] [c d].
  unfold real, mul, conj, scale. simpl. ring.
Qed.

(** The grid the code bins, in terms of forward transforms: the
    cross-power of the forward transforms of the shifted maps, divided by
    [n^4] and shifted. *)
Lemma PSMap_forward (n : nat) (A B : list (list R)) :
  is_map n A -> is_map n B ->
  PSMap A B
  = fftshift (map (map (fun v => v / INR n ^ 4))
                  (forward_cross_power (fftshift A) (fftshift B))).
Proof.
  intros HA HB. rewrite (PSMap_square n) by done. unfold forward_cross_power.
  destruct (decide (n = 0%nat)) as [->|Hn].
  { destruct HA as [HA _], HB as [HB _].
    apply length_zero_iff_nil in HA, HB. by subst. }
  rewrite !ifft2_fft2.
  destruct (fftshift_shape n A HA Hn) as [-> ->].
  destruct (fftshift_shape n B HB Hn) as [-> ->].
  rewrite cross_real_scaled. f_equal.
  apply map_ext. intros row. apply map_ext. intros v.
  field. by apply not_0_INR.
Qed.

End TransformFacts.

(** ** The shift theorem *)

Module ShiftFacts.

Import Cplx Np Spectrum ListFacts ShapeFacts TransformFacts.

(** *** Sums of complex numbers *)

Lemma add_0_l (z : C) : add (0, 0) z = z.
Proof. destruct z as [a b]. unfold add. simpl. f_equal; ring. Qed.

Lemma add_0_r (z : C) : add z (0, 0) = z.
Proof. destruct z as [a b]. unfold add. simpl. f_equal; ring. Qed.

Lemma add_comm (z w : C) : add z w = add w z.
Proof. unfold add. f_equal; ring. Qed.

Lemma add_assoc (x y z : C) : add x (add y z) = add (add x y) z.
Proof. unfold add. simpl. f_equal; ring. Qed.

Lemma sum_app (l k : list C) : sum (l ++ k) = add (sum l) (sum k).
Proof.
  induction l as [|z l IH]; simpl.
  - by rewrite add_0_l.
  - by rewrite IH, add_assoc.
Qed.

Lemma sum_mul (p : C) (l : list C) : sum (map (mul p) l) = mul p (sum l).
Proof.
  induction l as [|z l IH]; simpl.
  - unfold mul. simpl. f_equal; ring.
  - rewrite IH. unfold mul, add. simpl. f_equal; ring.
Qed.

Lemma map_seq_from {A} (F : nat -> A) (a len : nat) :
  map F (seq a len) = map (fun i => F (a + i)%nat) (seq 0 len).
Proof.
  revert F a. induction len as [|len IH]; intros F a; simpl; [done|].
  rewrite Nat.add_0_r. f_equal.
  rewrite (IH F (S a)), (IH (fun i => F (a + i)%nat) 1%nat).
  apply map_ext. intros i. f_equal. lia.
Qed.

(** Summing over the positions of a rolled array is summing over the array. *)
Lemma sum_source (F : nat -> C) (n s : nat) :
  (s <= n)%nat ->
  sum (map (fun m => F (source n s m)) (seq 0 n)) = sum (map F (seq 0 n)).
Proof.
  intros Hs.
  assert (seq 0 n = seq 0 s ++ seq s (n - s)) as H1.
  { replace n with (s + (n - s))%nat at 1 by lia. apply seq_app. }
  assert (seq 0 n = seq 0 (n - s) ++ seq (n - s) s) as H2.
  { replace n with ((n - s) + s)%nat at 1 by lia. apply seq_app. }
  rewrite H1 at 1. rewrite H2.
  rewrite !map_app, !sum_app, add_comm. f_equal.
  - rewrite (map_seq_from _ s (n - s)). f_equal.
    apply map_ext_in. intros m Hm. apply in_seq in Hm. unfold source.
    destruct (Nat.ltb_spec (s + m) s); [lia|]. f_equal. lia.
  - rewrite (map_seq_from F (n - s) s). f_equal.
    apply map_ext_in. intros m Hm. apply in_seq in Hm. unfold source.
    destruct (Nat.ltb_spec m s); [|lia]. f_equal. lia.
Qed.

Lemma nth_roll {A} (s m : nat) (l : list A) (d : A) :
  (s <= length l)%nat -> (m < length l)%nat ->
  nth m (roll s l) d = nth (source (length l) s m) l d.
Proof.
  intros Hs Hm. unfold roll, source.
  rewrite !nth_lookup. f_equal.
  destruct (Nat.ltb_spec m s).
  - rewrite lookup_app_l by (rewrite length_drop; lia).
    rewrite lookup_drop. f_equal. lia.
  - rewrite lookup_app_r by (rewrite length_drop; lia).
    rewrite length_drop, lookup_take_lt by lia. f_equal. lia.
Qed.


(** *** Phases *)

Lemma cis_add (a b : R) : cis (a + b) = mul (cis a) (cis b).
Proof. unfold cis, mul. simpl. rewrite cos_plus, sin_plus. f_equal; ring. Qed.

Lemma cis_period (t : R) (q : nat) : cis (t - 2 * INR q * PI) = cis t.
Proof.
  unfold cis.
  rewrite <- (cos_period (t - 2 * INR q * PI) q).
  rewrite <- (sin_period (t - 2 * INR q * PI) q).
  f_equal; f_equal; ring.
Qed.

Lemma cis_norm (t : R) : (cis t).1 * (cis t).1 + (cis t).2 * (cis t).2 = 1.
Proof. unfold cis. simpl. pose proof (sin2_cos2 t) as H. unfold Rsqr in H. lra. Qed.

(** The angle of the transform at position [(m, j)] of the rolled array and
    at the position the entry comes from differ by a phase that does not
    depend on the position, up to whole turns. *)
Lemma cis_source (n s m j k l : nat) :
  (0 < n)%nat -> (s <= n)%nat -> (m < n)%nat -> (j < n)%nat ->
  cis (-1 * (2 * PI * (INR k * INR m / INR n + INR l * INR j / INR n)))
  = mul (cis (- (2 * PI * ((INR k + INR l) * INR s / INR n))))
        (cis (-1 * (2 * PI * (INR k * INR (source n s m) / INR n
                              + INR l * INR (source n s j) / INR n)))).
Proof.
  intros Hn Hs Hm Hj. rewrite <- cis_add.
  assert (INR n <> 0) as Hn0 by (apply not_0_INR; lia).
  set (t := -1 * (2 * PI * (INR k * INR m / INR n + INR l * INR j / INR n))).
  unfold source.
  destruct (Nat.ltb_spec m s), (Nat.ltb_spec j s);
    rewrite ?plus_INR, ?minus_INR by lia.
  - rewrite <- (cis_period t (k + l)). rewrite plus_INR. f_equal. unfold t. field. done.
  - rewrite <- (cis_period t k). f_equal. unfold t. field. done.
  - rewrite <- (cis_period t l). f_equal. unfold t. field. done.
  - f_equal. unfold t. field. done.
Qed.


(** *** The transform of a shifted map *)

Lemma source_lt (n s m : nat) : (s <= n)%nat -> (m < n)%nat -> (source n s m < n)%nat.
Proof. intros Hs Hm. unfold source. destruct (Nat.ltb_spec m s); lia. Qed.

Lemma nth_map_lt {A B} (f : A -> B) (l : list A) (i : nat) (dA : A) (dB : B) :
  (i < length l)%nat -> nth i (map f l) dB = f (nth i l dA).
Proof.
  revert i. induction l as [|x l IH]; intros [|i]; simpl; intros Hi;
    try lia; try done. apply IH. lia.
Qed.

Lemma at2_fftshift (n m j : nat) (g : list (list R)) :
  is_map n g -> (m < n)%nat -> (j < n)%nat ->
  at2 (fftshift g) m j = at2 g (source n (n / 2) m) (source n (n / 2) j).
Proof.
  intros [Hlen Hrows] Hm Hj. unfold at2, fftshift, fftshift1.
  assert (n / 2 <= n)%nat as Hs by (apply Nat.Div0.div_le_upper_bound; lia).
  rewrite length_map, Hlen.
  rewrite nth_roll by (rewrite length_map; lia).
  rewrite length_map, Hlen.
  rewrite (nth_map_lt _ _ _ [] []) by (rewrite Hlen; by apply source_lt).
  assert (length (nth (source n (n / 2) m) g []) = n) as Hrow.
  { eapply Forall_forall in Hrows; [exact Hrows|].
    apply list_elem_of_In, nth_In. rewrite Hlen. by apply source_lt. }
  rewrite Hrow. rewrite nth_roll by lia. by rewrite Hrow.
Qed.

Lemma scale_mul (a : R) (p z : C) : scale a (mul p z) = mul p (scale a z).
Proof. unfold scale, mul. simpl. f_equal; ring. Qed.

(** The shift theorem: shifting a map multiplies its transform by a phase. *)
Lemma dft2_fftshift (n k l : nat) (g : list (list R)) :
  is_map n g -> (0 < n)%nat ->
  dft2_entry (-1) (fftshift g) n n k l
  = mul (cis (- (2 * PI * ((INR k + INR l) * INR (n / 2) / INR n))))
        (dft2_entry (-1) g n n k l).
Proof.
  intros Hg Hn. unfold dft2_entry.
  assert (n / 2 <= n)%nat as Hs by (apply Nat.Div0.div_le_upper_bound; lia).
  set (p := cis (- (2 * PI * ((INR k + INR l) * INR (n / 2) / INR n)))).
  set (T := fun a b : nat =>
              scale (at2 g a b)
                (cis (-1 * (2 * PI * (INR k * INR a / INR n + INR l * INR b / INR n))))).
  transitivity
    (sum (map (fun m => mul p (sum (map (fun j => T (source n (n / 2) m)
                                                    (source n (n / 2) j))
                                       (seq 0 n))))
              (seq 0 n))).
  - f_equal. apply map_ext_in. intros m Hm. apply in_seq in Hm.
    rewrite <- sum_mul, map_map. f_equal.
    apply map_ext_in. intros j Hj. apply in_seq in Hj.
    rewrite (at2_fftshift n) by (done || lia).
    rewrite (cis_source n (n / 2) m j k l) by lia.
    apply scale_mul.
  - rewrite <- (map_map (fun m => sum (map (fun j => T (source n (n / 2) m)
                                                      (source n (n / 2) j))
                                         (seq 0 n)))
                        (mul p)).
    rewrite sum_mul. f_equal.
    rewrite (sum_source (fun a => sum (map (fun j => T a (source n (n / 2) j))
                                           (seq 0 n))) n (n / 2)) by done.
    f_equal. apply map_ext. intros a.
    apply (sum_source (fun b => T a b)). done.
Qed.

Lemma fft2_tabulate (n : nat) (g : list (list R)) :
  length g = n -> length (hd [] g) = n ->
  fft2 g = map (fun k => map (fun l => dft2_entry (-1) g n n k l) (seq 0 n))
               (seq 0 n).
Proof. intros H1 H2. unfold fft2. by rewrite H1, H2. Qed.

Lemma cross_real_phase (p x y : C) :
  p.1 * p.1 + p.2 * p.2 = 1 ->
  real (mul (conj (mul p x)) (mul p y)) = real (mul (conj x) y).
Proof.
  destruct p as [p1 p2], x as [a b], y as [c d]. unfold real, mul, conj. simpl.
  intros Hp.
  replace (_ - _) with ((p1 * p1 + p2 * p2) * (a * c + b * d)) by ring.
  rewrite Hp. ring.
Qed.

(** The cross-power of the forward transforms does not see the shift of the
    maps. *)
Lemma forward_cross_power_fftshift (n : nat) (A B : list (list R)) :
  is_map n A -> is_map n B ->
  forward_cross_power (fftshift A) (fftshift B) = forward_cross_power A B.
Proof.
  intros HA HB. unfold forward_cross_power.
  destruct (decide (n = 0%nat)) as [->|Hn].
  { destruct HA as [HA _], HB as [HB _].
    apply length_zero_iff_nil in HA, HB. by subst. }
  destruct (fftshift_shape n A HA Hn) as [HA1 HA2].
  destruct (fftshift_shape n B HB Hn) as [HB1 HB2].
  assert (forall g, is_map n g -> length (hd [] g) = n) as Hhd.
  { intros g [Hl Hr]. apply (hd_Forall (fun row => length row = n)); [done|].
    intros ->. simpl in Hl. lia. }
  rewrite (fft2_tabulate n (fftshift A)), (fft2_tabulate n (fftshift B)) by done.
  rewrite (fft2_tabulate n A), (fft2_tabulate n B) by (apply HA || apply HB || by apply Hhd).
  unfold cross_real. rewrite !BinFacts.zip_with_map_same.
  apply map_ext. intros k.
  rewrite !BinFacts.zip_with_map_same.
  apply map_ext. intros l.
  rewrite !(dft2_fftshift n) by (done || lia).
  apply cross_real_phase, cis_norm.
Qed.

End ShiftFacts.

(** ** The transforms of the point map *)

Module PointFacts.

Import Cplx Np Spectrum Inputs ListFacts ShapeFacts TransformFacts InputFacts.

Lemma INR_2 : INR 2 = 2.
Proof. simpl. lra. Qed.

(** The transform of the shifted point map is a pure phase. *)
Lemma dft2_shifted_point (sgn : R) (k l : nat) :
  dft2_entry sgn (fftshift point_map) 2 2 k l
  = cis (sgn * (2 * PI * (INR k * 1 / 2 + INR l * 1 / 2))).
Proof.
  unfold dft2_entry.
  cbv [fftshift fftshift1 roll point_map map length Nat.div Nat.divmod fst snd
       Nat.sub drop take app seq at2 nth sum foldr].
  rewrite INR_2. change (INR 1) with 1. change (INR 0) with 0.
  unfold add, scale, cis. cbn [fst snd]. f_equal; ring.
Qed.

Lemma dft2_point_origin (sgn : R) :
  dft2_entry sgn point_map 2 2 0 0 = (1, 0).
Proof.
  unfold dft2_entry.
  cbv [point_map map seq at2 nth sum foldr].
  rewrite INR_2. change (INR 1) with 1. change (INR 0) with 0.
  replace (sgn * (2 * PI * (0 * 0 / 2 + 0 * 0 / 2))) with 0 by field.
  replace (sgn * (2 * PI * (0 * 0 / 2 + 0 * 1 / 2))) with 0 by field.
  replace (sgn * (2 * PI * (0 * 1 / 2 + 0 * 0 / 2))) with 0 by field.
  replace (sgn * (2 * PI * (0 * 1 / 2 + 0 * 1 / 2))) with 0 by field.
  unfold add, scale, cis. cbn [fst snd]. rewrite cos_0, sin_0. f_equal; ring.
Qed.

(** The grid the code bins holds 1/16 at position (0, 0) ... *)
Lemma PSMap_point_00 : at2 (PSMap point_map point_map) 0 0 = / 16.
Proof.
  rewrite (PSMap_square 2) by apply point_map_is_map. unfold ifft2.
  set (S := fftshift point_map).
  assert (length S = 2%nat) as -> by reflexivity.
  assert (length (hd [] S) = 2%nat) as -> by reflexivity.
  unfold S.
  cbv [cross_real zip_with map seq fftshift fftshift1 roll length Nat.div
       Nat.divmod fst snd Nat.sub drop take app at2 nth].
  rewrite !dft2_shifted_point.
  rewrite INR_2. change (INR 1) with 1.
  replace (1 * (2 * PI * (1 * 1 / 2 + 1 * 1 / 2))) with (2 * PI) by field.
  unfold real, mul, conj, scale, cis. cbn [fst snd].
  rewrite cos_2PI, sin_2PI. field.
Qed.

(** ... where the cross-power of the forward transforms holds 1. *)
Lemma forward_point_00 :
  at2 (forward_cross_power point_map point_map) 0 0 = 1.
Proof.
  unfold forward_cross_power, fft2.
  assert (length point_map = 2%nat) as -> by reflexivity.
  assert (length (hd [] point_map) = 2%nat) as -> by reflexivity.
  cbv [cross_real zip_with map seq at2 nth].
  rewrite dft2_point_origin.
  unfold real, mul, conj. cbn [fst snd]. ring.
Qed.

End PointFacts.

(** * The claim about the cross-power grid *)

Section GridClaim.

Import Np Spectrum Inputs ShapeFacts TransformFacts ShiftFacts PointFacts.

(** C4, as stated, fails: the grid that is binned is not the real part of
    the product of the conjugate of the forward transform of map 1 with the
    forward transform of map 2.  For the 2 x 2 point map the two grids
    differ at position (0, 0): 1/16 against 1. *)
Lemma cross_power_is_not_forward :
  PSMap point_map point_map <> forward_cross_power point_map point_map.
Proof.
  intros H. apply (f_equal (fun g => at2 g 0 0)) in H.
  rewrite PSMap_point_00, forward_point_00 in H. lra.
Qed.

(** C4, amended.  For real maps of shape n x n the grid that is binned is
    obtained with the inverse transform [np.fft.ifft2], which carries a
    factor [1 / n^2], applied to the [fftshift]ed maps: it is the
    [fftshift] of the real part of the product of the conjugate of the
    inverse transform of map 1 with the inverse transform of map 2.  That
    grid is the real part of the product of the conjugate of the forward
    transform of map 1 with the forward transform of map 2, divided by
    [n^4] and re-centred by [fftshift]. *)
Theorem cross_power_grid (n : nat) (Map1 Map2 : list (list R)) :
  is_map n Map1 -> is_map n Map2 ->
  PSMap Map1 Map2
  = fftshift (cross_real (ifft2 (fftshift Map1)) (ifft2 (fftshift Map2))) /\
  PSMap Map1 Map2
  = fftshift (map (map (fun v => v / INR n ^ 4))
                  (forward_cross_power Map1 Map2)).
Proof.
  intros H1 H2. split; [by apply (PSMap_square n)|].
  rewrite (PSMap_forward n) by done.
  by rewrite (forward_cross_power_fftshift n).
Qed.

Lemma cross_power_grid_witness :
  PSMap point_map ramp_map
  = fftshift (cross_real (ifft2 (fftshift point_map)) (ifft2 (fftshift ramp_map))) /\
  PSMap point_map ramp_map
  = fftshift (map (map (fun v => v / INR 2 ^ 4))
                  (forward_cross_power point_map ramp_map)).
Proof.
  apply (cross_power_grid 2 point_map ramp_map).
  - split; [reflexivity|repeat constructor].
  - split; [reflexivity|repeat constructor].
Defined.

End GridClaim.

(** * Further properties of [calculate_2d_spectrum] *)

Section SpectrumExtras.

Import Np Spectrum Inputs.
Import ListFacts FloatFacts LoopFacts ShapeFacts SpectrumFacts TransformFacts ShiftFacts.
Import InputFacts.

(** Every call ends.  It returns exactly on the inputs of [returns];
    every other call raises one of four exceptions: ValueError (a negative
    [N] or bin count, a ragged or empty map, shapes that do not broadcast),
    ZeroDivisionError (a bin width of zero), OverflowError (a bin centre
    that is no 64-bit integer) or IndexError (a bin that selects a pixel of
    [ell2d] beyond the cross-power grid). *)
Theorem calculate_2d_spectrum_terminates (Map1 Map2 : list (list R))
    (delta_ell ell_max pix_size : R) (N : Z) :
  calculate_2d_spectrum Map1 Map2 delta_ell ell_max pix_size N <> OutOfFuel /\
  (returns Map1 Map2 delta_ell ell_max pix_size N <->
   exists res,
     calculate_2d_spectrum Map1 Map2 delta_ell ell_max pix_size N = Ok res) /\
  (forall e,
     calculate_2d_spectrum Map1 Map2 delta_ell ell_max pix_size N = Raise e ->
     (e = ValueError /\
      ((N < 0)%Z \/ (Float.to_int (ell_max / delta_ell) < 0)%Z \/
       rect Map1 = false \/ rect Map2 = false \/
       empty_axis Map1 = true \/ empty_axis Map2 = true \/
       broadcastable (shape Map1) (shape Map2) = false)) \/
     (e = ZeroDivisionError /\ delta_ell = 0) \/
     (exists i, (i < Z.to_nat (Float.to_int (ell_max / delta_ell)))%nat /\
        ((e = OverflowError /\ int64 (bin_center delta_ell i) = false) \/
         (e = IndexError /\
          exists p, bin_pixel (ell2d pix_size N) delta_ell (Z.of_nat i) p /\
                    in_bounds (shape (PSMap Map1 Map2)) p = false)))).
Proof.
  split_and!.
  - unfold calculate_2d_spectrum.
    destruct (N <? 0)%Z; [done|].
    destruct (Req_dec_T delta_ell 0); [done|].
    destruct (Z.ltb_spec (Float.to_int (ell_max / delta_ell)) 0); [done|].
    destruct (negb (rect Map1) || negb (rect Map2)); [done|].
    destruct (empty_axis Map1 || empty_axis Map2); [done|].
    destruct (negb (broadcastable (shape Map1) (shape Map2))); [done|].
    rewrite while_bins_all; try done.
    + by destruct (first_error _ _ _ _).
    + unfold arange. by rewrite length_map, length_seq.
    + by rewrite repeat_length.
  - split.
    + intros Hret. rewrite calculate_2d_spectrum_returns by done. by eexists.
    + intros [res Hres]. by eapply calculate_2d_spectrum_Ok_inv.
  - intros e. apply calculate_2d_spectrum_raises.
Qed.

(** Every centre the function returns is a 64-bit integer, the truncation
    of [(i + 0.5) * delta_ell] toward zero, and there is one centre for
    every bin value. *)
Theorem ell_array_entries (Map1 Map2 : list (list R))
    (delta_ell ell_max pix_size : R) (N : Z) :
  returns Map1 Map2 delta_ell ell_max pix_size N ->
  exists ells cls,
    calculate_2d_spectrum Map1 Map2 delta_ell ell_max pix_size N = Ok (ells, cls) /\
    length ells = length cls /\
    forall i, (i < length ells)%nat ->
      exists z,
        ells !! i = Some z /\
        z = Float.to_int ((INR i + 1 / 2) * delta_ell) /\
        (- 2 ^ 63 <= z < 2 ^ 63)%Z /\
        Rabs (IZR z) <= Rabs ((INR i + 1 / 2) * delta_ell) /\
        Rabs ((INR i + 1 / 2) * delta_ell - IZR z) < 1.
Proof.
  intros Hret.
  destruct (calculate_2d_spectrum_entries Map1 Map2 delta_ell ell_max pix_size N Hret)
    as (ells & cls & Hcall & Hlen & Hlen' & Hbins).
  exists ells, cls. split_and!; [done|congruence|].
  intros i Hi. rewrite Hlen in Hi. destruct (Hbins i Hi) as [Hel _].
  exists (bin_center delta_ell i).
  pose proof (returns_centres _ _ _ _ _ _ Hret i) as Hc.
  rewrite bin_count_floor in Hc by apply Hret. specialize (Hc Hi).
  unfold int64 in Hc. apply andb_prop in Hc as [Hlo Hhi].
  apply Z.leb_le in Hlo. apply Z.ltb_lt in Hhi.
  unfold bin_center in *. rewrite <- INR_IZR_INZ in *.
  split_and!; try done.
  - apply to_int_magnitude.
  - apply to_int_close.
Qed.

Lemma ell_array_entries_witness :
  exists ells cls,
    calculate_2d_spectrum point_map ramp_map 1000 2000 60 2 = Ok (ells, cls) /\
    length ells = length cls /\
    forall i, (i < length ells)%nat ->
      exists z,
        ells !! i = Some z /\
        z = Float.to_int ((INR i + 1 / 2) * 1000) /\
        (- 2 ^ 63 <= z < 2 ^ 63)%Z /\
        Rabs (IZR z) <= Rabs ((INR i + 1 / 2) * 1000) /\
        Rabs ((INR i + 1 / 2) * 1000 - IZR z) < 1.
Proof.
  apply (ell_array_entries point_map ramp_map 1000 2000 60 2).
  apply returns_two_bins; [apply point_map_is_map|apply ramp_map_is_map].
Defined.

(** The two [np.fft.fftshift] calls on the input maps have no effect on the
    grid that is binned: the same grid results from transforming the maps
    as they are. *)
Theorem input_fftshift_immaterial (n : nat) (Map1 Map2 : list (list R)) :
  is_map n Map1 -> is_map n Map2 ->
  PSMap Map1 Map2 = fftshift (cross_real (ifft2 Map1) (ifft2 Map2)).
Proof.
  intros H1 H2. rewrite (PSMap_forward n) by done.
  rewrite (forward_cross_power_fftshift n) by done.
  destruct (decide (n = 0%nat)) as [->|Hn].
  { destruct H1 as [H1 _], H2 as [H2 _].
    apply length_zero_iff_nil in H1, H2. by subst. }
  f_equal. unfold forward_cross_power. rewrite !ifft2_fft2.
  assert (forall g, is_map n g -> length g = n /\ length (hd [] g) = n) as Hshape.
  { intros g [Hl Hr]. split; [done|].
    apply (hd_Forall (fun row => length row = n)); [done|].
    intros ->. simpl in Hl. lia. }
  destruct (Hshape Map1 H1) as [-> ->]. destruct (Hshape Map2 H2) as [-> ->].
  rewrite cross_real_scaled.
  apply map_ext. intros row. apply map_ext. intros v.
  field. by apply not_0_INR.
Qed.

Lemma input_fftshift_immaterial_witness :
  PSMap point_map ramp_map = fftshift (cross_real (ifft2 point_map) (ifft2 ramp_map)).
Proof.
  apply (input_fftshift_immaterial 2 point_map ramp_map).
  - split; [reflexivity|repeat constructor].
  - split; [reflexivity|repeat constructor].
Defined.

End SpectrumExtras.

(** ** The sample spectrum *)

Module SampleFacts.

Import Interp Samples.

Lemma sample_ells_increasing : increasing sample_ells.
Proof.
  intros i j a b Ha Hb Hij. unfold sample_ells in *.
  destruct i as [|[|[|i]]]; destruct j as [|[|[|j]]]; simpl in Ha, Hb;
    try lia; try done; injection Ha as <-; injection Hb as <-; lra.
Qed.

Lemma sample_cls_range : Forall (fun v => 0 <= v <= 6) sample_cls.
Proof. unfold sample_cls. repeat constructor; lra. Qed.

Lemma sample_cls_nonneg : Forall (fun v => 0 <= v) sample_cls.
Proof. unfold sample_cls. repeat constructor; lra. Qed.

End SampleFacts.

(** * [interp]: the interpolated theory spectra *)

Module InterpFacts.

Import Interp.

Lemma searchsorted_le (x : list R) (v : R) : (searchsorted x v <= length x)%nat.
Proof. induction x as [|a x IH]; simpl; [lia|]. destruct (Rlt_dec a v); lia. Qed.

(** Every entry before the index is below [v] ... *)
Lemma searchsorted_below (x : list R) (v : R) (j : nat) (a : R) :
  (j < searchsorted x v)%nat -> x !! j = Some a -> a < v.
Proof.
  revert j. induction x as [|b x IH]; intros j; simpl; [lia|].
  destruct (Rlt_dec b v) as [Hb|Hb]; [|lia].
  destruct j as [|j]; simpl.
  - intros _ [= <-]. done.
  - intros Hj. apply IH. lia.
Qed.

(** ... and the entry at the index is not. *)
Lemma searchsorted_at (x : list R) (v : R) (a : R) :
  x !! searchsorted x v = Some a -> v <= a.
Proof.
  induction x as [|b x IH]; simpl; [done|].
  destruct (Rlt_dec b v) as [Hb|Hb]; simpl.
  - apply IH.
  - intros [= <-]. lra.
Qed.

(** On increasing samples the index of a sample is its position. *)
Lemma searchsorted_node (x : list R) (k : nat) (a : R) :
  increasing x -> x !! k = Some a -> searchsorted x a = k.
Proof.
  intros Hinc Hk.
  destruct (Nat.lt_trichotomy (searchsorted x a) k) as [Hlt|[Heq|Hgt]]; [|done|].
  - exfalso.
    destruct (lookup_lt_is_Some_2 x (searchsorted x a)) as [b Hb].
    { apply lookup_lt_Some in Hk. lia. }
    pose proof (searchsorted_at x a b Hb).
    pose proof (Hinc _ _ _ _ Hb Hk Hlt). lra.
  - exfalso. pose proof (searchsorted_below x a k a Hgt Hk). lra.
Qed.

(** Inside the sampled range the clipped index brackets the argument. *)
Lemma bracket (x : list R) (t : R) :
  increasing x -> (2 <= length x)%nat ->
  nth 0 x 0 <= t <= nth (length x - 1) x 0 ->
  let hi := clip 1 (length x - 1) (searchsorted x t) in
  (1 <= hi < length x)%nat /\
  nth (hi - 1) x 0 <= t <= nth hi x 0 /\
  nth (hi - 1) x 0 < nth hi x 0.
Proof.
  intros Hinc Hlen [Hlo Hhi] hi.
  assert (1 <= hi < length x)%nat as Hrange by (unfold hi, clip; lia).
  split; [done|].
  destruct (lookup_lt_is_Some_2 x (hi - 1)) as [a Ha]; [lia|].
  destruct (lookup_lt_is_Some_2 x hi) as [b Hb]; [lia|].
  rewrite (nth_lookup_Some _ _ _ _ Ha), (nth_lookup_Some _ _ _ _ Hb).
  assert (a < b) as Hab by (apply (Hinc (hi - 1)%nat hi); [done|done|lia]).
  split; [|done].
  pose proof (searchsorted_le x t) as Hs.
  destruct (decide (searchsorted x t = 0)%nat) as [H0|H0].
  - (* t is not above the first sample *)
    assert (hi = 1%nat) as H1 by (unfold hi, clip; lia).
    rewrite H1 in Ha, Hb. simpl in Ha.
    rewrite (nth_lookup_Some _ _ _ _ Ha) in Hlo.
    assert (t <= a) by (apply (searchsorted_at x t); by rewrite H0).
    lra.
  - destruct (decide (searchsorted x t = length x)) as [Hfull|Hpart].
    + (* every sample is below t: impossible inside the range *)
      exfalso.
      destruct (lookup_lt_is_Some_2 x (length x - 1)) as [c Hc]; [lia|].
      rewrite (nth_lookup_Some _ _ _ _ Hc) in Hhi.
      assert (c < t) by (apply (searchsorted_below x t (length x - 1)); [lia|done]).
      lra.
    + assert (hi = searchsorted x t) as Hhi' by (unfold hi, clip; lia).
      split.
      * left. apply (searchsorted_below x t (hi - 1)); [lia|done].
      * apply (searchsorted_at x t). by rewrite <- Hhi'.
Qed.


(** The value on the bracketing segment. *)
Lemma call_linear_value (x y : list R) (t : R) :
  increasing x -> (2 <= length x)%nat ->
  nth 0 x 0 <= t <= nth (length x - 1) x 0 ->
  let hi := clip 1 (length x - 1) (searchsorted x t) in
  let lo := (hi - 1)%nat in
  call_linear x y t
  = Fin ((nth hi y 0 - nth lo y 0) / (nth hi x 0 - nth lo x 0) * (t - nth lo x 0)
         + nth lo y 0).
Proof.
  intros Hinc Hlen Ht hi lo.
  destruct (bracket x t Hinc Hlen Ht) as (_ & _ & Hlt).
  unfold call_linear. fold hi. fold lo. cbv zeta. unfold Float.div.
  destruct (Req_dec_T (nth hi x 0 - nth lo x 0) 0) as [H0|_]; [|done].
  unfold lo in H0. fold hi in Hlt. lra.
Qed.

Lemma range_first (x : list R) (k : nat) (a : R) :
  increasing x -> x !! k = Some a -> nth 0 x 0 <= a <= nth (length x - 1) x 0.
Proof.
  intros Hinc Hk. pose proof (lookup_lt_Some _ _ _ Hk) as Hlt.
  destruct (lookup_lt_is_Some_2 x 0) as [a0 H0]; [lia|].
  destruct (lookup_lt_is_Some_2 x (length x - 1)) as [a1 H1]; [lia|].
  rewrite (nth_lookup_Some _ _ _ _ H0), (nth_lookup_Some _ _ _ _ H1).
  split.
  - destruct (decide (k = 0%nat)) as [->|Hne].
    + rewrite H0 in Hk. injection Hk as ->. lra.
    + left. apply (Hinc 0%nat k); [done|done|lia].
  - destruct (decide (k = length x - 1)%nat) as [->|Hne].
    + rewrite H1 in Hk. injection Hk as ->. lra.
    + left. apply (Hinc k (length x - 1)%nat); [done|done|lia].
Qed.

(** A value of the interpolant is the fill value or a point between two of
    the samples. *)
Lemma interp1d_cases (x y : list R) (t : R) :
  increasing x -> length x = length y -> (2 <= length x)%nat ->
  interp1d x y 0 t = Fin 0 \/
  exists w c0 c1,
    0 <= w <= 1 /\ c0 ∈ y /\ c1 ∈ y /\
    interp1d x y 0 t = Fin (c0 + w * (c1 - c0)).
Proof.
  intros Hinc Hlen H2. unfold interp1d.
  destruct (Rlt_dec t (nth 0 x 0)); [by left|].
  destruct (Rlt_dec (nth (length x - 1) x 0) t); [by left|].
  right.
  assert (nth 0 x 0 <= t <= nth (length x - 1) x 0) as Ht by lra.
  rewrite call_linear_value by done. cbv zeta.
  destruct (bracket x t Hinc H2 Ht) as (Hr & Hb & Hlt).
  set (i := clip 1 (length x - 1) (searchsorted x t)) in *.
  destruct (lookup_lt_is_Some_2 y (i - 1)) as [c0 Hc0]; [lia|].
  destruct (lookup_lt_is_Some_2 y i) as [c1 Hc1]; [lia|].
  rewrite (nth_lookup_Some y _ _ _ Hc0), (nth_lookup_Some y _ _ _ Hc1).
  set (a := nth (i - 1) x 0) in *. set (b := nth i x 0) in *.
  exists ((t - a) / (b - a)), c0, c1. split_and!.
  - apply Rmult_le_pos; [lra|]. left. apply Rinv_0_lt_compat. lra.
  - apply (Rmult_le_reg_r (b - a)); [lra|]. field_simplify; lra.
  - by eapply list_elem_of_lookup_2.
  - by eapply list_elem_of_lookup_2.
  - f_equal. field. lra.
Qed.

End InterpFacts.

Section InterpExtras.

Import Interp InterpFacts Samples SampleFacts.

(** [interp(x, y)] on strictly increasing samples of equal length returns an
    interpolant without raising; the interpolant passes through every
    sample and is zero (not an error) below the first and above the last
    sample. *)
Theorem interp_through_samples (x y : list R) :
  increasing x -> length x = length y -> (2 <= length x)%nat ->
  exists f,
    interp x y = Ok f /\
    (forall k a c, x !! k = Some a -> y !! k = Some c -> f a = Fin c) /\
    (forall t, t < nth 0 x 0 \/ nth (length x - 1) x 0 < t -> f t = Fin 0).
Proof.
  intros Hinc Hlen H2. exists (interp1d x y 0). split_and!.
  - unfold interp. by rewrite Hlen, Nat.eqb_refl.
  - intros k a c Hk Hc.
    pose proof (range_first x k a Hinc Hk) as Hr.
    unfold interp1d.
    destruct (Rlt_dec a (nth 0 x 0)); [lra|].
    destruct (Rlt_dec (nth (length x - 1) x 0) a); [lra|].
    rewrite call_linear_value by done. cbv zeta.
    rewrite (searchsorted_node x k a Hinc Hk).
    pose proof (lookup_lt_Some _ _ _ Hk) as Hlt.
    destruct (decide (k = 0%nat)) as [->|Hne].
    + assert (clip 1 (length x - 1) 0 = 1%nat) as -> by (unfold clip; lia).
      simpl. rewrite (nth_lookup_Some _ _ _ _ Hk), (nth_lookup_Some _ _ _ _ Hc).
      f_equal. unfold Rminus at 3. rewrite Rplus_opp_r. ring.
    + assert (clip 1 (length x - 1) k = k) as -> by (unfold clip; lia).
      rewrite (nth_lookup_Some x k _ _ Hk), (nth_lookup_Some y k _ _ Hc).
      destruct (lookup_lt_is_Some_2 x (k - 1)) as [a' Ha']; [lia|].
      rewrite (nth_lookup_Some x (k - 1) _ _ Ha').
      assert (a' < a) by (apply (Hinc (k - 1)%nat k); [done|done|lia]).
      f_equal. field. lra.
  - intros t Ht. unfold interp1d.
    destruct (Rlt_dec t (nth 0 x 0)); [done|].
    destruct (Rlt_dec (nth (length x - 1) x 0) t); [done|lra].
Qed.

Lemma interp_through_samples_witness :
  exists f,
    interp sample_ells sample_cls = Ok f /\
    (forall k a c, sample_ells !! k = Some a -> sample_cls !! k = Some c ->
                   f a = Fin c) /\
    (forall t, t < nth 0 sample_ells 0
               \/ nth (length sample_ells - 1) sample_ells 0 < t -> f t = Fin 0).
Proof.
  apply (interp_through_samples sample_ells sample_cls).
  - apply sample_ells_increasing.
  - reflexivity.
  - simpl. lia.
Defined.

(** The interpolant never leaves the range of the samples and the fill
    value: if every sample of [y] lies in [[lo, hi]] and so does 0, every
    value of [interp(x, y)] is a finite number of [[lo, hi]].  In particular
    the interpolant of a non-negative spectrum is non-negative everywhere. *)
Theorem interp_within_range (x y : list R) (lo hi : R) (t : R) :
  increasing x -> length x = length y -> (2 <= length x)%nat ->
  Forall (fun v => lo <= v <= hi) y -> lo <= 0 <= hi ->
  exists v, interp1d x y 0 t = Fin v /\ lo <= v <= hi.
Proof.
  intros Hinc Hlen H2 Hy H0.
  destruct (interp1d_cases x y t Hinc Hlen H2)
    as [->|(w & c0 & c1 & Hw & Hc0 & Hc1 & ->)]; [by eexists|].
  eexists. split; [done|].
  rewrite Forall_forall in Hy.
  pose proof (Hy c0 Hc0). pose proof (Hy c1 Hc1). simpl in *. split; nra.
Qed.

Lemma interp_within_range_witness :
  exists v, interp1d sample_ells sample_cls 0 (5 / 2) = Fin v /\ 0 <= v <= 6.
Proof.
  apply (interp_within_range sample_ells sample_cls 0 6 (5 / 2)).
  - apply sample_ells_increasing.
  - reflexivity.
  - simpl. lia.
  - apply sample_cls_range.
  - lra.
Defined.

End InterpExtras.

(** * [gauss_beam]: further properties *)

Module BeamFacts.

Import Recon ReconFacts.

(** The exponent of the beam as one product. *)
Lemma gauss_beam_exp (ell fwhm : R) :
  gauss_beam ell fwhm
  = exp (- ((PI / 10800) ^ 2 / (16 * ln 2) * (fwhm ^ 2 * ell ^ 2))).
Proof.
  unfold gauss_beam, deg2rad. cbv zeta. f_equal.
  pose proof ln_2_pos. field. lra.
Qed.

Lemma beam_rate_pos : 0 < (PI / 10800) ^ 2 / (16 * ln 2).
Proof.
  pose proof ln_2_pos. pose proof PI_RGT_0.
  apply Rdiv_lt_0_compat; [|lra]. apply pow_lt. lra.
Qed.

(** Whatever its width, the beam lies in (0, 1]. *)
Lemma gauss_beam_bounds (ell fwhm : R) : 0 < gauss_beam ell fwhm <= 1.
Proof.
  rewrite gauss_beam_exp. split; [apply exp_pos|].
  pose proof beam_rate_pos as Hr.
  pose proof (pow2_ge_0 fwhm). pose proof (pow2_ge_0 ell).
  set (r := (PI / 10800) ^ 2 / (16 * ln 2)) in *.
  assert (0 <= r * (fwhm ^ 2 * ell ^ 2)) as Hx.
  { apply Rmult_le_pos; [lra|]. by apply Rmult_le_pos. }
  rewrite <- exp_0. destruct Hx as [Hx|Hx].
  - left. apply exp_increasing. lra.
  - rewrite <- Hx. rewrite Ropp_0. lra.
Qed.

End BeamFacts.

Section BeamExtras.

Import Recon ReconFacts BeamFacts.

(** Two Gaussian beams applied one after the other act as one Gaussian beam
    whose width is the root of the sum of the squares of the two widths; a
    beam of width zero is the identity. *)
Theorem gauss_beam_quadrature (ell fwhm1 fwhm2 : R) :
  gauss_beam ell fwhm1 * gauss_beam ell fwhm2
  = gauss_beam ell (sqrt (fwhm1 ^ 2 + fwhm2 ^ 2)) /\
  gauss_beam ell 0 = 1.
Proof.
  split.
  - rewrite !gauss_beam_exp, <- exp_plus. f_equal.
    assert (sqrt (fwhm1 ^ 2 + fwhm2 ^ 2) ^ 2 = fwhm1 ^ 2 + fwhm2 ^ 2) as ->.
    { rewrite <- Rsqr_pow2. apply Rsqr_sqrt.
      pose proof (pow2_ge_0 fwhm1). pose proof (pow2_ge_0 fwhm2). lra. }
    ring.
  - rewrite gauss_beam_exp. rewrite <- exp_0. f_equal. ring.
Qed.

(** The beam depends on the multipole and on the width through their
    absolute values only, and strictly decreases as either grows: higher
    multipoles and wider beams are suppressed more. *)
Theorem gauss_beam_decreasing (ell1 ell2 fwhm1 fwhm2 : R) :
  Rabs ell1 < Rabs ell2 -> Rabs fwhm1 < Rabs fwhm2 ->
  gauss_beam ell2 fwhm2 < gauss_beam ell1 fwhm2 /\
  gauss_beam ell2 fwhm2 < gauss_beam ell2 fwhm1 /\
  gauss_beam (- ell1) fwhm1 = gauss_beam ell1 fwhm1 /\
  gauss_beam ell1 (- fwhm1) = gauss_beam ell1 fwhm1.
Proof.
  intros Hl Hf. pose proof beam_rate_pos as Hr.
  set (r := (PI / 10800) ^ 2 / (16 * ln 2)) in *.
  assert (forall a b, Rabs a < Rabs b -> a ^ 2 < b ^ 2 /\ 0 < b ^ 2) as Hsq.
  { intros a b Hab. pose proof (Rabs_pos a).
    rewrite <- (pow2_abs a), <- (pow2_abs b). split; [nra|nra]. }
  destruct (Hsq _ _ Hl) as [Hl2 Hl0]. destruct (Hsq _ _ Hf) as [Hf2 Hf0].
  rewrite !gauss_beam_exp. fold r. split_and!.
  - apply exp_increasing, Ropp_lt_contravar, Rmult_lt_compat_l; [done|].
    apply Rmult_lt_compat_l; done.
  - apply exp_increasing, Ropp_lt_contravar, Rmult_lt_compat_l; [done|].
    apply Rmult_lt_compat_r; done.
  - f_equal. ring.
  - f_equal. ring.
Qed.

Lemma gauss_beam_decreasing_witness :
  gauss_beam 2 2 < gauss_beam 1 2 /\
  gauss_beam 2 2 < gauss_beam 2 1 /\
  gauss_beam (- 1) 1 = gauss_beam 1 1 /\
  gauss_beam 1 (- 1) = gauss_beam 1 1.
Proof.
  apply (gauss_beam_decreasing 1 2 1 2).
  - rewrite !Rabs_right by lra. lra.
  - rewrite !Rabs_right by lra. lra.
Defined.

End BeamExtras.

(** * The theory spectra *)

Module TheoryFacts.

Import Theory.

(** From a power per logarithmic interval to a power and back. *)
Lemma dl_of_cl_of_dl (dl ell : R) :
  0 < ell -> dl_of_cl (cl_of_dl dl ell) ell = Fin dl.
Proof.
  intros Hl. pose proof PI_RGT_0 as Hpi.
  unfold dl_of_cl, cl_of_dl, Float.div, Float.mul.
  destruct (Req_dec_T ell 0) as [?|_]; [lra|].
  destruct (Req_dec_T (ell + 1) 0) as [?|_]; [lra|].
  destruct (Req_dec_T 2 0) as [?|_]; [lra|].
  destruct (Req_dec_T PI 0) as [?|_]; [lra|].
  f_equal. field. lra.
Qed.

(** At the monopole the division by [ell] is a division by zero, and the
    way back multiplies the result by zero. *)
Lemma dl_of_cl_monopole (dl : R) : dl_of_cl (cl_of_dl dl 0) 0 = NaN.
Proof.
  pose proof PI_RGT_0 as Hpi.
  assert (forall x, (x = PInf \/ x = NInf \/ x = NaN) ->
                    dl_of_cl (Float.mul (Float.mul (Float.div x (Fin (0 + 1))) (Fin 2))
                                        (Fin PI)) 0 = NaN) as Hinf.
  { intros x Hx. unfold dl_of_cl, Float.div, Float.mul, Float.inf_of_sign.
    destruct Hx as [->|[->| ->]];
      repeat (destruct (Rlt_dec _ _); try lra);
      repeat (destruct (Req_dec_T _ _); try lra); done. }
  unfold cl_of_dl. unfold Float.div at 2.
  destruct (Req_dec_T 0 0) as [_|?]; [|lra].
  apply Hinf. unfold Float.inf_of_sign.
  destruct (Rlt_dec 0 dl); [by left|].
  destruct (Rlt_dec dl 0); [right; by left|right; by right].
Qed.

Lemma zip_round_trip (tt ells : list R) :
  length tt = length ells -> Forall (fun l => 0 < l) ells ->
  zip_with dl_of_cl (zip_with cl_of_dl tt ells) ells = map Fin tt.
Proof.
  revert ells. induction tt as [|d tt IH]; intros [|l ells]; simpl; try done.
  intros [= Hlen] Hpos. inversion Hpos as [|? ? Hl Hrest]; subst.
  by rewrite dl_of_cl_of_dl, IH.
Qed.

End TheoryFacts.

Section TheoryExtras.

Import Theory TheoryFacts Samples.

(** On two files of at least two rows each [get_theory] returns, and the
    spectrum the notebook hands to [make_map] is the [tt] column of the
    scalar file again:
    multiplying [ucltt] by [ell (ell + 1) / 2 pi] undoes the division
    [get_theory] made, at every positive multipole.  A row with [ell = 0]
    would not come back: it turns into NaN. *)
Theorem get_theory_round_trip (scal : list (R * R * R)) (total : list (R * R)) :
  (2 <= length scal)%nat -> (2 <= length total)%nat ->
  Forall (fun row => 0 < row.1.1) scal ->
  (exists t,
     get_theory scal total = Ok t /\
     DlTT t = map (fun row => Fin row.1.2) scal) /\
  forall dl, dl_of_cl (cl_of_dl dl 0) 0 = NaN.
Proof.
  intros Hrows Htotal Hpos. split; [|apply dl_of_cl_monopole].
  eexists. split.
  - unfold get_theory.
    destruct scal as [|r1 [|r2 scal]]; simpl in Hrows; [lia|lia|].
    destruct total as [|t1 [|t2 total]]; simpl in Htotal; [lia|lia|].
    reflexivity.
  - unfold DlTT. cbn [ucltt ells].
    rewrite zip_round_trip; [by rewrite map_map|by rewrite !length_map|].
    apply List.Forall_map. eapply Forall_impl; [exact Hpos|]. done.
Qed.

Lemma get_theory_round_trip_witness :
  (exists t,
     get_theory sample_scal sample_total = Ok t /\
     DlTT t = map (fun row => Fin row.1.2) sample_scal) /\
  forall dl, dl_of_cl (cl_of_dl dl 0) 0 = NaN.
Proof.
  apply (get_theory_round_trip sample_scal sample_total).
  - simpl. lia.
  - simpl. lia.
  - unfold sample_scal. repeat constructor; simpl; lra.
Defined.

End TheoryExtras.

(** * The total power and the inverse-variance filter *)

Module NoiseFacts.

Import Recon Interp Power InterpFacts BeamFacts.

Lemma interp1d_nonneg (x y : list R) (t : R) :
  increasing x -> length x = length y -> (2 <= length x)%nat ->
  Forall (fun v => 0 <= v) y ->
  exists v, interp1d x y 0 t = Fin v /\ 0 <= v.
Proof.
  intros Hinc Hlen H2 Hy.
  destruct (interp1d_cases x y t Hinc Hlen H2)
    as [->|(w & c0 & c1 & Hw & H0 & H1 & ->)].
  - exists 0. split; [done|lra].
  - eexists. split; [done|].
    rewrite Forall_forall in Hy.
    pose proof (Hy _ H0). pose proof (Hy _ H1).
    replace (c0 + w * (c1 - c0)) with ((1 - w) * c0 + w * c1) by ring.
    apply Rplus_le_le_0_compat; apply Rmult_le_pos; lra.
Qed.

Lemma Clnoise_pos (noise : R) : noise <> 0 -> 0 < Clnoise noise.
Proof.
  intros Hn. unfold Clnoise. pose proof PI_RGT_0 as Hpi.
  assert (noise * PI / 180 / 60 <> 0) as Hne.
  { intros H. assert (noise * PI = 0) as H0 by lra.
    destruct (Rmult_integral _ _ H0); lra. }
  apply pow_nonzero with (n := 2%nat) in Hne.
  pose proof (pow2_ge_0 (noise * PI / 180 / 60)). lra.
Qed.

(** The beam-deconvolved noise: [Clnoise / kbeam ** 2]. *)
Lemma deconvolved_noise (noise beam m : R) :
  let g := gauss_beam m beam in
  Float.div (Fin (Clnoise noise)) (Float.mul (Fin g) (Fin g))
  = Fin (Clnoise noise / (g * g)) /\ 0 < g * g <= 1.
Proof.
  intros g. destruct (gauss_beam_bounds m beam) as [Hg0 Hg1]. fold g in Hg0, Hg1.
  assert (0 < g * g <= 1) as Hgg by nra.
  split; [|done]. unfold Float.mul, Float.div.
  destruct (Req_dec_T (g * g) 0); [lra|done].
Qed.

End NoiseFacts.

Section PowerExtras.

Import Recon Interp Power NoiseFacts Samples SampleFacts.

(** With a non-zero noise level and a non-negative theory spectrum the
    total power the notebook builds,
    [interp(ells,lcltt)(modlmap) + Clnoise/kbeam2d**2], is at every pixel a
    finite number that is at least the white noise level [Clnoise > 0], so
    the inverse-variance filter [1/total] is finite and lies in
    (0, 1/Clnoise]: the division never meets a zero, also for pixels
    outside the sampled multipoles, where the interpolant is 0. *)
Theorem total_power_above_noise
        (ells lcltt : list R) (noise_uk_arcmin beam_arcmin : R) (m : R) :
  increasing ells -> length ells = length lcltt -> (2 <= length ells)%nat ->
  Forall (fun v => 0 <= v) lcltt -> noise_uk_arcmin <> 0 ->
  exists t,
    total_cmb_power ells lcltt noise_uk_arcmin beam_arcmin m = Fin t /\
    0 < Clnoise noise_uk_arcmin <= t /\
    inverse_variance ells lcltt noise_uk_arcmin beam_arcmin m = Fin (1 / t) /\
    0 < 1 / t <= 1 / Clnoise noise_uk_arcmin.
Proof.
  intros Hinc Hlen H2 Hy Hn.
  destruct (interp1d_nonneg ells lcltt m Hinc Hlen H2 Hy) as (v & Hv & Hv0).
  destruct (deconvolved_noise noise_uk_arcmin beam_arcmin m) as [Hd Hg].
  pose proof (Clnoise_pos noise_uk_arcmin Hn) as Hc.
  set (g := gauss_beam m beam_arcmin) in *.
  set (c := Clnoise noise_uk_arcmin) in *.
  assert (c <= c / (g * g)) as Hcg.
  { apply Rle_trans with (c / 1); [lra|].
    unfold Rdiv. apply Rmult_le_compat_l; [lra|].
    apply Rinv_le_contravar; lra. }
  exists (v + c / (g * g)).
  assert (total_cmb_power ells lcltt noise_uk_arcmin beam_arcmin m
          = Fin (v + c / (g * g))) as Ht.
  { unfold total_cmb_power. cbv zeta. fold g. fold c. by rewrite Hv, Hd. }
  split; [done|]. split; [lra|].
  assert (0 < v + c / (g * g)) as Htpos by lra.
  split.
  - unfold inverse_variance. rewrite Ht. unfold Float.div.
    destruct (Req_dec_T (v + c / (g * g)) 0); [lra|done].
  - split.
    + apply Rdiv_lt_0_compat; lra.
    + unfold Rdiv. apply Rmult_le_compat_l; [lra|].
      apply Rinv_le_contravar; lra.
Qed.

Lemma total_power_above_noise_witness :
  exists t,
    total_cmb_power sample_ells sample_cls (3 / 2) (1 / 10) 3 = Fin t /\
    0 < Clnoise (3 / 2) <= t /\
    inverse_variance sample_ells sample_cls (3 / 2) (1 / 10) 3 = Fin (1 / t) /\
    0 < 1 / t <= 1 / Clnoise (3 / 2).
Proof.
  apply (total_power_above_noise sample_ells sample_cls (3 / 2) (1 / 10) 3).
  - apply sample_ells_increasing.
  - reflexivity.
  - simpl. lia.
  - apply sample_cls_nonneg.
  - lra.
Defined.

(** Without noise the filter is singular outside the sampled multipoles:
    there the interpolant is 0 ([fill_value=0.]), the total power is 0 and
    [1/total] is a division by zero, which numpy answers with [inf].  Only
    the band mask applied afterwards removes such modes. *)
Theorem noiseless_filter_singular
        (ells lcltt : list R) (beam_arcmin : R) (m : R) :
  increasing ells ->
  m < nth 0 ells 0 \/ nth (length ells - 1) ells 0 < m ->
  total_cmb_power ells lcltt 0 beam_arcmin m = Fin 0 /\
  inverse_variance ells lcltt 0 beam_arcmin m = PInf.
Proof.
  intros _ Hout.
  destruct (deconvolved_noise 0 beam_arcmin m) as [Hd Hg].
  assert (Clnoise 0 = 0) as Hc by (unfold Clnoise; field).
  assert (interp1d ells lcltt 0 m = Fin 0) as Hi.
  { unfold interp1d.
    destruct (Rlt_dec m (nth 0 ells 0)); [done|].
    destruct (Rlt_dec (nth (length ells - 1) ells 0) m); [done|lra]. }
  assert (total_cmb_power ells lcltt 0 beam_arcmin m = Fin 0) as Ht.
  { unfold total_cmb_power. cbv zeta. rewrite Hi, Hd, Hc.
    unfold Float.add. f_equal. unfold Rdiv. ring. }
  split; [done|]. unfold inverse_variance. rewrite Ht.
  unfold Float.div, Float.inf_of_sign.
  destruct (Req_dec_T 0 0); [|lra].
  destruct (Rlt_dec 0 1); [done|lra].
Qed.

Lemma noiseless_filter_singular_witness :
  total_cmb_power sample_ells sample_cls 0 (1 / 10) 1 = Fin 0 /\
  inverse_variance sample_ells sample_cls 0 (1 / 10) 1 = PInf.
Proof.
  apply (noiseless_filter_singular sample_ells sample_cls (1 / 10) 1).
  - apply sample_ells_increasing.
  - left. unfold sample_ells. simpl. lra.
Defined.

End PowerExtras.

(** * [calculate_2d_spectrum] is bilinear in the maps *)

Module LinearFacts.

Import Cplx Np Spectrum Maps FloatFacts BinFacts ShapeFacts LoopFacts.

(** *** Shifts commute with element-wise operations *)

Lemma roll_map {A B} (f : A -> B) (s : nat) (l : list A) :
  roll s (map f l) = map f (roll s l).
Proof. unfold roll. by rewrite length_map, firstn_map, skipn_map, map_app. Qed.

Lemma fftshift_map {A B} (f : A -> B) (g : list (list A)) :
  fftshift (map (map f) g) = map (map f) (fftshift g).
Proof.
  unfold fftshift, fftshift1. rewrite !length_map, <- roll_map. f_equal.
  do 2 rewrite map_map. apply map_ext. intros row.
  by rewrite length_map, roll_map.
Qed.

Lemma roll_zip_with {A B D} (f : A -> B -> D) (s : nat) (l : list A) (k : list B) :
  length l = length k ->
  roll s (zip_with f l k) = zip_with f (roll s l) (roll s k).
Proof.
  intros Hlen. unfold roll.
  rewrite length_zip_with, <- Hlen, Nat.min_id.
  rewrite zip_with_take, zip_with_drop, zip_with_app; [done|].
  rewrite !length_drop. lia.
Qed.

Lemma same_shape_length {A B} (X : list (list A)) (Y : list (list B)) :
  same_shape X Y -> length X = length Y.
Proof. apply Forall2_length. Qed.

Lemma same_shape_roll {A B} (s : nat) (X : list (list A)) (Y : list (list B)) :
  same_shape X Y -> same_shape (roll s X) (roll s Y).
Proof.
  intros H. unfold roll. rewrite (same_shape_length X Y H).
  apply Forall2_app; [by apply Forall2_drop|by apply Forall2_take].
Qed.

Lemma same_shape_fftshift {A B} (X : list (list A)) (Y : list (list B)) :
  same_shape X Y -> same_shape (fftshift X) (fftshift Y).
Proof.
  intros H. unfold fftshift, fftshift1. rewrite !length_map.
  rewrite (same_shape_length X Y H). apply same_shape_roll.
  unfold same_shape. apply Forall2_fmap.
  eapply Forall2_impl; [exact H|]. intros r r' Hr. simpl.
  by rewrite !ShapeFacts.length_roll.
Qed.

Lemma fftshift1_zip_with {A B D} (f : A -> B -> D) (l : list A) (k : list B) :
  length l = length k ->
  fftshift1 (zip_with f l k) = zip_with f (fftshift1 l) (fftshift1 k).
Proof.
  intros Hlen. unfold fftshift1.
  rewrite length_zip_with, <- Hlen, Nat.min_id. by apply roll_zip_with.
Qed.

Lemma fftshift_zip_with {A B D} (f : A -> B -> D)
    (X : list (list A)) (Y : list (list B)) :
  same_shape X Y ->
  fftshift (zip_with (zip_with f) X Y)
  = zip_with (zip_with f) (fftshift X) (fftshift Y).
Proof.
  intros H. unfold fftshift.
  rewrite <- fftshift1_zip_with by (by rewrite !length_map; apply same_shape_length).
  f_equal. induction H as [|r r' X Y Hr H IH]; [done|].
  cbn [map zip_with]. by rewrite IH, fftshift1_zip_with.
Qed.

Lemma is_map_same_shape (n : nat) (X Y : list (list R)) :
  is_map n X -> is_map n Y -> same_shape X Y.
Proof.
  intros [HX HrX] [HY HrY]. unfold same_shape.
  apply Forall2_same_length_lookup_2; [congruence|].
  intros i r r' Hr Hr'.
  rewrite Forall_lookup in HrX, HrY.
  by rewrite (HrX i r Hr), (HrY i r' Hr').
Qed.

(** *** Entries of scaled maps and of sums of maps *)

Lemma nth_map_zero (c : R) (row : list R) (j : nat) :
  nth j (map (fun x => c * x) row) 0 = c * nth j row 0.
Proof.
  revert j. induction row as [|x row IH]; intros [|j]; simpl; try lra; apply IH.
Qed.

Lemma at2_scale_map (c : R) (g : list (list R)) (m n : nat) :
  at2 (scale_map c g) m n = c * at2 g m n.
Proof.
  unfold at2, scale_map.
  change (@nil R) with (map (fun x => c * x) []) at 1.
  rewrite map_nth. apply nth_map_zero.
Qed.

Lemma nth_zip_plus (r r' : list R) (j : nat) :
  length r = length r' ->
  nth j (zip_with Rplus r r') 0 = nth j r 0 + nth j r' 0.
Proof.
  revert r' j. induction r as [|x r IH]; intros [|y r'] [|j]; simpl;
    try done; try lra.
  intros [= H]. by apply IH.
Qed.

Lemma at2_add_map (g g' : list (list R)) (m n : nat) :
  same_shape g g' -> at2 (add_map g g') m n = at2 g m n + at2 g' m n.
Proof.
  intros H. revert m. unfold at2, add_map.
  induction H as [|r r' g g' Hr H IH]; intros [|m]; simpl.
  - destruct n; lra.
  - destruct n; lra.
  - by apply nth_zip_plus.
  - apply IH.
Qed.

(** *** The transform is linear *)

Lemma sum_scale (c : R) (l : list C) : sum (map (scale c) l) = scale c (sum l).
Proof.
  induction l as [|z l IH]; simpl.
  - unfold scale. simpl. f_equal; ring.
  - unfold sum in *. simpl. rewrite IH. unfold scale, add. simpl. f_equal; ring.
Qed.

Lemma sum_add {A} (F G : A -> C) (l : list A) :
  sum (map (fun x => add (F x) (G x)) l) = add (sum (map F l)) (sum (map G l)).
Proof.
  induction l as [|x l IH]; simpl.
  - unfold add. simpl. f_equal; ring.
  - unfold sum in *. simpl. rewrite IH. unfold add. simpl. f_equal; ring.
Qed.

Lemma dft2_entry_scale (sgn c : R) (g : list (list R)) (n1 n2 k l : nat) :
  dft2_entry sgn (scale_map c g) n1 n2 k l = scale c (dft2_entry sgn g n1 n2 k l).
Proof.
  unfold dft2_entry. rewrite <- sum_scale, map_map. f_equal.
  apply map_ext. intros m. rewrite <- sum_scale, map_map. f_equal.
  apply map_ext. intros n. rewrite at2_scale_map.
  unfold scale. simpl. f_equal; ring.
Qed.

Lemma dft2_entry_add (sgn : R) (g g' : list (list R)) (n1 n2 k l : nat) :
  same_shape g g' ->
  dft2_entry sgn (add_map g g') n1 n2 k l
  = add (dft2_entry sgn g n1 n2 k l) (dft2_entry sgn g' n1 n2 k l).
Proof.
  intros H. unfold dft2_entry. rewrite <- sum_add. f_equal.
  apply map_ext. intros m. rewrite <- sum_add. f_equal.
  apply map_ext. intros n. rewrite at2_add_map by done.
  unfold scale, add. simpl. f_equal; ring.
Qed.

Lemma hd_length_map {A B} (f : A -> B) (g : list (list A)) :
  length (hd [] (map (map f) g)) = length (hd [] g).
Proof. destruct g as [|r g]; simpl; [done|]. by rewrite length_map. Qed.

Lemma ifft2_scale (c : R) (g : list (list R)) :
  ifft2 (scale_map c g) = map (map (scale c)) (ifft2 g).
Proof.
  unfold ifft2.
  replace (length (scale_map c g)) with (length g) by (symmetry; apply length_map).
  replace (length (hd [] (scale_map c g))) with (length (hd [] g))
    by (symmetry; apply hd_length_map).
  rewrite map_map.
  apply map_ext. intros k. rewrite map_map. apply map_ext. intros l.
  rewrite dft2_entry_scale. unfold scale. simpl. f_equal; ring.
Qed.

Lemma same_shape_hd {A B} (X : list (list A)) (Y : list (list B)) :
  same_shape X Y -> length (hd [] X) = length (hd [] Y).
Proof. by intros [|r r' X' Y' Hr _]. Qed.

Lemma add_map_shape (g g' : list (list R)) :
  same_shape g g' -> same_shape g (add_map g g').
Proof.
  intros H. unfold add_map, same_shape in *.
  induction H as [|r r' g g' Hr H IH]; simpl; constructor; [|done].
  rewrite length_zip_with. lia.
Qed.

Lemma ifft2_add (g g' : list (list R)) :
  same_shape g g' ->
  ifft2 (add_map g g') = zip_with (zip_with add) (ifft2 g) (ifft2 g').
Proof.
  intros H. pose proof (add_map_shape g g' H) as Hs. unfold ifft2.
  rewrite <- (same_shape_length _ _ Hs), <- (same_shape_hd _ _ Hs).
  rewrite <- (same_shape_length _ _ H), <- (same_shape_hd _ _ H).
  rewrite BinFacts.zip_with_map_same. apply map_ext. intros k.
  rewrite BinFacts.zip_with_map_same. apply map_ext. intros l.
  rewrite dft2_entry_add by done. unfold scale, add. simpl. f_equal; ring.
Qed.

Lemma same_shape_ifft2 (g g' : list (list R)) :
  same_shape g g' -> same_shape (ifft2 g) (ifft2 g').
Proof.
  intros H. unfold ifft2.
  rewrite <- (same_shape_length _ _ H), <- (same_shape_hd _ _ H).
  unfold same_shape. apply Forall2_fmap, Forall2_true; [|done].
  intros k k'. simpl. by rewrite !length_map.
Qed.

(** *** The cross-power is bilinear *)

Lemma zip_with_distr {A B D} (f : A -> B -> D) (p : A -> A -> A) (q : D -> D -> D)
    (l k : list A) (m : list B) :
  (forall x y z, f (p x y) z = q (f x z) (f y z)) ->
  zip_with f (zip_with p l k) m = zip_with q (zip_with f l m) (zip_with f k m).
Proof.
  intros Hf. revert k m.
  induction l as [|x l IH]; intros [|y k] [|z m]; simpl; try done.
  by rewrite Hf, IH.
Qed.

Lemma cross_real_add (F F' H : list (list C)) :
  cross_real (zip_with (zip_with add) F F') H
  = add_map (cross_real F H) (cross_real F' H).
Proof.
  unfold cross_real, add_map. apply zip_with_distr. intros r r' h.
  apply zip_with_distr. intros [a b] [a' b'] [c d].
  unfold real, mul, conj, add. simpl. ring.
Qed.

Lemma cross_real_scale (a b : R) (F H : list (list C)) :
  cross_real (map (map (scale a)) F) (map (map (scale b)) H)
  = scale_map (a * b) (cross_real F H).
Proof.
  unfold cross_real, scale_map. rewrite TransformFacts.zip_with_map_map.
  rewrite <- TransformFacts.zip_with_post.
  apply TransformFacts.zip_with_ext2. intros r h.
  rewrite TransformFacts.zip_with_map_map, <- TransformFacts.zip_with_post.
  apply TransformFacts.zip_with_ext2. intros [x y] [u v].
  unfold real, mul, conj, scale. simpl. ring.
Qed.

Lemma same_shape_cross_real (F F' H : list (list C)) :
  same_shape F F' -> same_shape (cross_real F H) (cross_real F' H).
Proof.
  intros HF. unfold cross_real, same_shape in *. revert H.
  induction HF as [|r r' F F' Hr HF IH]; intros [|h H]; simpl; try constructor.
  - rewrite !length_zip_with. lia.
  - apply IH.
Qed.

(** *** Broadcasting commutes with element-wise operations *)

Lemma shape_map {A B} (f : A -> B) (g : list (list A)) :
  shape (map (map f) g) = shape g.
Proof. unfold shape. by rewrite length_map, hd_length_map. Qed.

Lemma same_shape_shape {A B} (X : list (list A)) (Y : list (list B)) :
  same_shape X Y -> shape X = shape Y.
Proof.
  intros H. unfold shape.
  by rewrite (same_shape_length _ _ H), (same_shape_hd _ _ H).
Qed.

Lemma stretch_map {A B} (f : A -> B) (n : nat) (l : list A) :
  stretch n (map f l) = map f (stretch n l).
Proof.
  destruct l as [|x [|y l]]; simpl; try done.
  induction n as [|n IH]; simpl; [done|]. by rewrite IH.
Qed.

Lemma broadcast_to_map {A B} (f : A -> B) (s : nat * nat) (g : list (list A)) :
  broadcast_to s (map (map f) g) = map (map f) (broadcast_to s g).
Proof.
  unfold broadcast_to. rewrite <- stretch_map. f_equal.
  do 2 rewrite map_map. apply map_ext. intros row. apply stretch_map.
Qed.

Lemma zip_with_repeat {A B D} (f : A -> B -> D) (x : A) (y : B) (n : nat) :
  zip_with f (repeat x n) (repeat y n) = repeat (f x y) n.
Proof. induction n as [|n IH]; simpl; [done|]. by rewrite IH. Qed.

Lemma stretch_zip_with {A B D} (f : A -> B -> D) (n : nat)
    (l : list A) (k : list B) :
  length l = length k ->
  stretch n (zip_with f l k) = zip_with f (stretch n l) (stretch n k).
Proof.
  destruct l as [|x [|x' l]]; destruct k as [|y [|y' k]]; simpl; try done.
  intros _. by rewrite zip_with_repeat.
Qed.

Lemma length_stretch {A B} (n : nat) (l : list A) (k : list B) :
  length l = length k -> length (stretch n l) = length (stretch n k).
Proof.
  destruct l as [|x [|x' l]]; destruct k as [|y [|y' k]]; simpl; try done.
  intros _. by rewrite !repeat_length.
Qed.

Lemma broadcast_to_zip_with {A B D} (f : A -> B -> D) (s : nat * nat)
    (X : list (list A)) (Y : list (list B)) :
  same_shape X Y ->
  broadcast_to s (zip_with (zip_with f) X Y)
  = zip_with (zip_with f) (broadcast_to s X) (broadcast_to s Y).
Proof.
  intros H. unfold broadcast_to.
  rewrite <- stretch_zip_with
    by (rewrite !length_map; by apply same_shape_length).
  f_equal. induction H as [|r r' X Y Hr H IH]; [done|].
  cbn [map zip_with]. by rewrite IH, stretch_zip_with.
Qed.

Lemma same_shape_broadcast_to {A B} (s : nat * nat)
    (X : list (list A)) (Y : list (list B)) :
  same_shape X Y -> same_shape (broadcast_to s X) (broadcast_to s Y).
Proof.
  intros H. unfold broadcast_to, same_shape in *.
  assert (Forall2 (fun r r' => length r = length r')
            (map (stretch s.2) X) (map (stretch s.2) Y)) as Hin.
  { apply Forall2_fmap. eapply Forall2_impl; [exact H|].
    intros r r' Hr. simpl. by apply length_stretch. }
  revert Hin. generalize (map (stretch s.2) X) (map (stretch s.2) Y).
  intros X' Y' Hin.
  destruct Hin as [|r r' X'' Y'' Hr [|r2 r2' X3 Y3 Hr2 Hrest]]; simpl.
  - constructor.
  - induction s.1 as [|n IH]; simpl; constructor; done.
  - repeat constructor; done.
Qed.

Lemma PSMap_scale (a b : R) (A B : list (list R)) :
  PSMap (scale_map a A) (scale_map b B) = scale_map (a * b) (PSMap A B).
Proof.
  assert (forall c g, ifft2 (fftshift (scale_map c g))
                      = map (map (Cplx.scale c)) (ifft2 (fftshift g))) as Hi.
  { intros c g. unfold scale_map at 1. rewrite fftshift_map.
    apply (ifft2_scale c (fftshift g)). }
  unfold PSMap. cbv zeta. rewrite !Hi, !shape_map, !broadcast_to_map.
  rewrite cross_real_scale. unfold scale_map. apply fftshift_map.
Qed.

Lemma PSMap_add (A A' B : list (list R)) :
  same_shape A A' ->
  PSMap (add_map A A') B = add_map (PSMap A B) (PSMap A' B) /\
  same_shape (PSMap A B) (PSMap A' B).
Proof.
  intros H. unfold PSMap. cbv zeta.
  pose proof (same_shape_fftshift _ _ H) as Hs.
  pose proof (same_shape_ifft2 _ _ Hs) as Hi.
  set (F := ifft2 (fftshift A)) in *. set (F' := ifft2 (fftshift A')) in *.
  set (G := ifft2 (fftshift B)).
  assert (ifft2 (fftshift (add_map A A')) = zip_with (zip_with Cplx.add) F F')
    as ->.
  { unfold add_map at 1. rewrite fftshift_zip_with by done.
    fold (add_map (fftshift A) (fftshift A')). by rewrite ifft2_add. }
  assert (shape (zip_with (zip_with Cplx.add) F F') = shape F) as ->.
  { symmetry. apply same_shape_shape. unfold same_shape.
    clear -Hi. induction Hi as [|r r' X Y Hr Hi IH]; simpl; constructor; [|done].
    rewrite length_zip_with. lia. }
  rewrite <- (same_shape_shape F F' Hi).
  set (s := broadcast_shape (shape F) (shape G)).
  pose proof (same_shape_broadcast_to s _ _ Hi) as Hb.
  pose proof (same_shape_cross_real _ _ (broadcast_to s G) Hb) as Hc.
  split; [|by apply same_shape_fftshift].
  rewrite broadcast_to_zip_with, cross_real_add by done.
  unfold add_map. by apply fftshift_zip_with.
Qed.

(** *** The means of the bins *)

Lemma sum_list_scale (c : R) (l : list R) :
  sum_list (map (fun x => c * x) l) = c * sum_list l.
Proof. induction l as [|x l IH]; simpl; [lra|]. unfold sum_list in *. simpl. rewrite IH. ring. Qed.

Lemma sum_list_add {A} (F G : A -> R) (l : list A) :
  sum_list (map (fun x => F x + G x) l) = sum_list (map F l) + sum_list (map G l).
Proof. induction l as [|x l IH]; simpl; [lra|]. unfold sum_list in *. simpl. rewrite IH. ring. Qed.

Lemma bin_mean_scale (ell2d : list (list xreal)) (PS : list (list R))
    (c delta_ell : R) (i : nat) :
  bin_mean ell2d (scale_map c PS) delta_ell i
  = Float.mul (Fin c) (bin_mean ell2d PS delta_ell i).
Proof.
  unfold bin_mean, take_at.
  rewrite (map_ext _ (fun p => c * at2 PS p.1 p.2))
    by (intros p; apply at2_scale_map).
  rewrite <- (map_map (fun p => at2 PS p.1 p.2) (fun x => c * x)).
  generalize (map (fun p : nat * nat => at2 PS p.1 p.2)
                  (inds_in_bin ell2d delta_ell (Z.of_nat i))).
  intros [|x l]; [cbn [map]; by rewrite mean_nil|].
  cbn [map]. rewrite !mean_cons. cbn [Float.mul]. f_equal.
  change (c * x :: map (fun x => c * x) l) with (map (fun x => c * x) (x :: l)).
  rewrite sum_list_scale, length_map. unfold Rdiv. ring.
Qed.

Lemma bin_mean_add (ell2d : list (list xreal)) (PS PS' : list (list R))
    (delta_ell : R) (i : nat) :
  same_shape PS PS' ->
  bin_mean ell2d (add_map PS PS') delta_ell i
  = Float.add (bin_mean ell2d PS delta_ell i) (bin_mean ell2d PS' delta_ell i).
Proof.
  intros H. unfold bin_mean, take_at.
  rewrite (map_ext _ (fun p => at2 PS p.1 p.2 + at2 PS' p.1 p.2))
    by (intros p; by apply at2_add_map).
  destruct (inds_in_bin ell2d delta_ell (Z.of_nat i)) as [|p idx];
    [cbn [map]; by rewrite mean_nil|].
  cbn [map]. rewrite !mean_cons. cbn [Float.add]. f_equal.
  change (sum_list (map (fun p => at2 PS p.1 p.2 + at2 PS' p.1 p.2) (p :: idx))
          / INR (length (map (fun p => at2 PS p.1 p.2 + at2 PS' p.1 p.2) (p :: idx)))
          = sum_list (map (fun p => at2 PS p.1 p.2) (p :: idx))
            / INR (length (map (fun p => at2 PS p.1 p.2) (p :: idx)))
            + sum_list (map (fun p => at2 PS' p.1 p.2) (p :: idx))
              / INR (length (map (fun p => at2 PS' p.1 p.2) (p :: idx)))).
  rewrite sum_list_add, !length_map. unfold Rdiv. ring.
Qed.

Lemma bin_mean_cases (ell2d : list (list xreal)) (PS : list (list R))
    (delta_ell : R) (i : nat) :
  bin_mean ell2d PS delta_ell i = NaN \/ exists v, bin_mean ell2d PS delta_ell i = Fin v.
Proof.
  unfold bin_mean.
  destruct (mean_cases (take_at PS (inds_in_bin ell2d delta_ell (Z.of_nat i))))
    as [[_ ->]|[_ ->]]; [by left|right; by eexists].
Qed.

(** The last line of the function distributes over a product with a
    number and over a sum, on the values a bin can hold. *)
Lemma scale_CL_mul (pix_size c : R) (m : xreal) :
  (m = NaN \/ exists v, m = Fin v) ->
  scale_CL pix_size (Float.mul (Fin c) m) = Float.mul (Fin c) (scale_CL pix_size m).
Proof.
  intros Hm. unfold scale_CL.
  destruct (sqrt_cases (pix_rad pix_size)) as [[_ ->]|[_ ->]];
    destruct Hm as [->|[v ->]]; simpl; try done.
  f_equal. ring.
Qed.

Lemma scale_CL_add (pix_size : R) (m m' : xreal) :
  (m = NaN \/ exists v, m = Fin v) -> (m' = NaN \/ exists v, m' = Fin v) ->
  scale_CL pix_size (Float.add m m')
  = Float.add (scale_CL pix_size m) (scale_CL pix_size m').
Proof.
  intros Hm Hm'. unfold scale_CL.
  destruct (sqrt_cases (pix_rad pix_size)) as [[_ ->]|[_ ->]];
    destruct Hm as [->|[v ->]]; destruct Hm' as [->|[v' ->]]; simpl; try done.
  f_equal. ring.
Qed.

Lemma empty_axis_scale (c : R) (g : list (list R)) :
  empty_axis (scale_map c g) = empty_axis g.
Proof. unfold empty_axis, scale_map. by rewrite length_map, hd_length_map. Qed.

Lemma empty_axis_add (g g' : list (list R)) :
  same_shape g g' -> empty_axis (add_map g g') = empty_axis g.
Proof.
  intros H. pose proof (add_map_shape g g' H) as Hs. unfold empty_axis.
  by rewrite <- (same_shape_length _ _ Hs), <- (same_shape_hd _ _ Hs).
Qed.

Lemma rect_scale (c : R) (g : list (list R)) : rect (scale_map c g) = rect g.
Proof.
  unfold rect, scale_map. rewrite hd_length_map.
  generalize (length (hd [] g)). intros m.
  induction g as [|row g IH]; [done|].
  cbn [map forallb]. by rewrite length_map, IH.
Qed.

Lemma is_map_add (n : nat) (g g' : list (list R)) :
  is_map n g -> is_map n g' -> is_map n (add_map g g').
Proof.
  intros [Hl Hr] [Hl' Hr']. unfold add_map. split.
  - rewrite length_zip_with. lia.
  - apply Forall_lookup. intros i row Hrow.
    apply lookup_zip_with_Some in Hrow as (r & r' & -> & Hi & Hi').
    rewrite Forall_lookup in Hr, Hr'.
    rewrite length_zip_with, (Hr i r Hi), (Hr' i r' Hi'). lia.
Qed.

(** The errors of the loop depend on the grid through its shape only. *)
Lemma first_error_shape (ell2d : list (list xreal)) (PS PS' : list (list R))
    (delta_ell : R) (bins : list nat) :
  shape PS = shape PS' ->
  first_error ell2d PS delta_ell bins = first_error ell2d PS' delta_ell bins.
Proof.
  intros Hs. induction bins as [|i bins IH]; [done|].
  simpl. unfold bin_error. by rewrite Hs, IH.
Qed.

End LinearFacts.

Section LinearExtras.

Import Np Spectrum Maps ShapeFacts LinearFacts LoopFacts Inputs InputFacts.

(** The spectrum is homogeneous in each map: multiplying the first map by
    a number [a] and the second by [b] multiplies every entry of
    [CL_array] by [a * b] (a bin without pixels stays NaN), leaves
    [ell_array] as it is, and the call raises exactly when the call on the
    original maps does. *)
Theorem spectrum_of_scaled_maps (a b : R) (A B : list (list R))
    (delta_ell ell_max pix_size : R) (N : Z) :
  calculate_2d_spectrum (scale_map a A) (scale_map b B) delta_ell ell_max pix_size N
  = match calculate_2d_spectrum A B delta_ell ell_max pix_size N with
    | Ok (ells, cls) => Ok (ells, scale_floats (a * b) cls)
    | Raise e => Raise e
    | OutOfFuel => OutOfFuel
    end.
Proof.
  unfold calculate_2d_spectrum. rewrite !empty_axis_scale, !rect_scale.
  unfold scale_map at 1 2. rewrite !shape_map.
  fold (scale_map a A). fold (scale_map b B).
  destruct (Z.ltb_spec N 0) as [|_]; [done|].
  destruct (Req_dec_T delta_ell 0) as [|_]; [done|].
  destruct (Z.ltb_spec (Float.to_int (ell_max / delta_ell)) 0) as [|Hb]; [done|].
  destruct (negb (rect A) || negb (rect B)); [done|].
  destruct (empty_axis A || empty_axis B); [done|].
  destruct (negb (broadcastable (shape A) (shape B))); [done|].
  assert (length (map Z.of_nat (arange (Z.to_nat (Float.to_int (ell_max / delta_ell)))))
          = Z.to_nat (Float.to_int (ell_max / delta_ell))) as Hl
    by (unfold arange; by rewrite length_map, length_seq).
  rewrite !while_bins_all by (done || by rewrite repeat_length).
  rewrite (first_error_shape _ (PSMap (scale_map a A) (scale_map b B)) (PSMap A B))
    by (rewrite PSMap_scale; apply shape_map).
  destruct (first_error _ _ _ _); [done|].
  cbn [ell_array CL_array]. unfold scale_floats. do 2 f_equal.
  rewrite !map_map. apply map_ext. intros i.
  rewrite PSMap_scale, bin_mean_scale. apply scale_CL_mul, bin_mean_cases.
Qed.

(** The spectrum is additive in its first map: for two maps [A] and [A']
    of one shape on which the calls return, the cross-spectrum of [A + A']
    with [B] is, entry by entry, the sum of the cross-spectra of [A] and of
    [A'] with [B], on the same [ell_array]. *)
Theorem spectrum_of_sum (n : nat) (A A' B : list (list R))
    (delta_ell ell_max pix_size : R) (N : Z) :
  is_map n A -> is_map n A' ->
  returns A B delta_ell ell_max pix_size N ->
  exists ells cls cls',
    calculate_2d_spectrum A B delta_ell ell_max pix_size N = Ok (ells, cls) /\
    calculate_2d_spectrum A' B delta_ell ell_max pix_size N = Ok (ells, cls') /\
    calculate_2d_spectrum (add_map A A') B delta_ell ell_max pix_size N
    = Ok (ells, add_floats cls cls').
Proof.
  intros HA HA' Hret.
  pose proof (is_map_same_shape n A A' HA HA') as Hs.
  pose proof (add_map_shape A A' Hs) as Hsum.
  destruct (PSMap_add A A' B Hs) as [Hadd Hps].
  assert (empty_axis A' = empty_axis A) as He'.
  { unfold empty_axis.
    by rewrite <- (same_shape_length _ _ Hs), <- (same_shape_hd _ _ Hs). }
  assert (returns A' B delta_ell ell_max pix_size N) as Hret'.
  { destruct Hret. constructor; try done.
    - by apply (is_map_rect n).
    - by rewrite He'.
    - by rewrite <- (same_shape_shape A A' Hs).
    - by rewrite <- (same_shape_shape _ _ Hps). }
  assert (returns (add_map A A') B delta_ell ell_max pix_size N) as Hret2.
  { destruct Hret. constructor; try done.
    - apply (is_map_rect n). by apply is_map_add.
    - by rewrite empty_axis_add.
    - by rewrite <- (same_shape_shape A (add_map A A') Hsum).
    - rewrite Hadd.
      by rewrite <- (same_shape_shape _ _ (add_map_shape _ _ Hps)). }
  rewrite !calculate_2d_spectrum_returns by done. cbv zeta.
  eexists _, _, _. split_and!; try reflexivity.
  f_equal. f_equal. unfold add_floats.
  rewrite BinFacts.zip_with_map_same. apply map_ext. intros i.
  rewrite Hadd, bin_mean_add by done.
  apply scale_CL_add; apply bin_mean_cases.
Qed.

Lemma spectrum_of_sum_witness :
  exists ells cls cls',
    calculate_2d_spectrum point_map ramp_map 1000 1000 60 2 = Ok (ells, cls) /\
    calculate_2d_spectrum ramp_map ramp_map 1000 1000 60 2 = Ok (ells, cls') /\
    calculate_2d_spectrum (add_map point_map ramp_map) ramp_map 1000 1000 60 2
    = Ok (ells, add_floats cls cls').
Proof.
  apply (spectrum_of_sum 2 point_map ramp_map ramp_map 1000 1000 60 2).
  - apply point_map_is_map.
  - apply ramp_map_is_map.
  - apply returns_one_bin; [apply point_map_is_map|apply ramp_map_is_map].
Defined.

End LinearExtras.

(** * The multipole grid of [calculate_2d_spectrum] *)

Module RangeFacts.

Import Np Spectrum GridFacts.

(** The coordinate of pixel [j] before the division by the pixel size. *)
Lemma ind_bounds (N : Z) (j : nat) :
  (2 <= N)%Z -> (j < Z.to_nat N)%nat ->
  let u := (INR j + 1 / 2 - IZR N / 2) / (IZR N - 1) in
  u * u <= 1 / 4 /\
  (Z.even N = true -> 1 / (4 * ((IZR N - 1) * (IZR N - 1))) <= u * u).
Proof.
  intros HN Hj u.
  assert (2 <= IZR N) as HN' by (by apply IZR_le in HN).
  assert (0 <= INR j <= IZR N - 1) as Hj'.
  { split; [apply pos_INR|].
    assert (Z.of_nat j <= N - 1)%Z as H by lia.
    apply IZR_le in H. rewrite <- INR_IZR_INZ, minus_IZR in H. done. }
  assert (- (IZR N - 1) / 2 <= INR j + 1 / 2 - IZR N / 2 <= (IZR N - 1) / 2)
    as Ha by lra.
  set (d := IZR N - 1) in *. set (a := INR j + 1 / 2 - IZR N / 2) in *.
  assert (0 < d) as Hd by (unfold d; lra).
  assert (u * u = a * a / (d * d)) as -> by (unfold u; field; lra).
  assert (0 < d * d) as Hdd by nra.
  split.
  - apply (Rmult_le_reg_r (d * d)); [done|].
    replace (a * a / (d * d) * (d * d)) with (a * a) by (field; lra).
    nra.
  - intros Heven.
    replace (1 / (4 * (d * d))) with (1 / 4 / (d * d)) by (field; lra).
    apply Rmult_le_compat_r; [left; by apply Rinv_0_lt_compat|].
    apply Z.even_spec in Heven as [h Hh].
    assert (a = IZR (Z.of_nat j - h) + 1 / 2) as Hah.
    { unfold a. rewrite Hh, minus_IZR, mult_IZR, <- INR_IZR_INZ. lra. }
    destruct (Z_lt_le_dec (Z.of_nat j - h) 0) as [Hneg|Hpos].
    + assert (Z.of_nat j - h <= -1)%Z as H by lia. apply IZR_le in H. nra.
    + apply IZR_le in Hpos. nra.
Qed.

Lemma sqrt_2_sq : sqrt 2 * sqrt 2 = 2.
Proof. apply sqrt_sqrt. lra. Qed.

Lemma sqrt_2_pos : 0 < sqrt 2.
Proof. apply sqrt_lt_R0. lra. Qed.

(** Every multipole of the grid lies between zero and the multipole of the
    corner; when [N] is even no pixel is at zero. *)
Lemma ell_at_range (pix_size : R) (N : Z) (r c : nat) :
  (2 <= N)%Z -> 0 < pix_size ->
  (r < Z.to_nat N)%nat -> (c < Z.to_nat N)%nat ->
  exists x,
    ell_at pix_size N r c = Fin x /\
    0 <= x <= sqrt 2 * PI / pix_rad pix_size /\
    (Z.even N = true -> sqrt 2 * PI / ((IZR N - 1) * pix_rad pix_size) <= x).
Proof.
  intros HN Hp Hr Hc.
  assert (pix_size <> 0) as Hp0 by lra.
  destruct (ell_at_finite pix_size N r c HN Hp0) as (x & y & Hx & Hy & ->).
  rewrite kcoord_finite in Hx, Hy by done.
  injection Hx as Hx. injection Hy as Hy.
  destruct (ind_bounds N c HN Hc) as [Hc1 Hc2].
  destruct (ind_bounds N r HN Hr) as [Hr1 Hr2].
  cbv zeta in Hc1, Hc2, Hr1, Hr2.
  set (uc := (INR c + 1 / 2 - IZR N / 2) / (IZR N - 1)) in *.
  set (ur := (INR r + 1 / 2 - IZR N / 2) / (IZR N - 1)) in *.
  pose proof PI_RGT_0 as Hpi.
  assert (0 < pix_rad pix_size) as Hq.
  { unfold pix_rad. apply Rmult_lt_0_compat; [apply Rmult_lt_0_compat|]; lra. }
  set (q := pix_rad pix_size) in *.
  assert (2 <= IZR N) as HN' by (by apply IZR_le in HN).
  set (d := IZR N - 1) in *.
  assert (0 < d) as Hd by (unfold d; lra).
  pose proof sqrt_2_sq as H2. pose proof sqrt_2_pos as H2p.
  assert (x * x + y * y = (uc * uc + ur * ur) / (q * q)) as Hxy
    by (rewrite <- Hx, <- Hy; field; lra).
  assert (0 < / (q * q)) as Hiq by (apply Rinv_0_lt_compat; nra).
  eexists. split; [done|]. unfold ell_scale_factor. split_and!.
  - apply Rmult_le_pos; [apply sqrt_pos|lra].
  - assert (sqrt (x * x + y * y) <= sqrt 2 / (2 * q)) as Hs.
    { rewrite <- (sqrt_square (sqrt 2 / (2 * q)))
        by (left; apply Rdiv_lt_0_compat; lra).
      apply sqrt_le_1_alt. rewrite Hxy.
      replace (sqrt 2 / (2 * q) * (sqrt 2 / (2 * q)))
        with ((sqrt 2 * sqrt 2) / 4 / (q * q)) by (field; lra).
      rewrite H2. apply Rmult_le_compat_r; lra. }
    replace (sqrt 2 * PI / q) with (sqrt 2 / (2 * q) * (2 * PI)) by (field; lra).
    apply Rmult_le_compat_r; lra.
  - intros Heven. specialize (Hc2 Heven). specialize (Hr2 Heven).
    fold d in Hc2, Hr2.
    assert (sqrt 2 / (2 * (d * q)) <= sqrt (x * x + y * y)) as Hs.
    { rewrite <- (sqrt_square (sqrt 2 / (2 * (d * q)))).
      2:{ left. apply Rdiv_lt_0_compat; [lra|]. 
          apply Rmult_lt_0_compat; [lra|]. by apply Rmult_lt_0_compat. }
      apply sqrt_le_1_alt. rewrite Hxy.
      replace (sqrt 2 / (2 * (d * q)) * (sqrt 2 / (2 * (d * q))))
        with ((sqrt 2 * sqrt 2) * (1 / (4 * (d * d))) / (q * q)) by (field; lra).
      rewrite H2. apply Rmult_le_compat_r; lra. }
    replace (sqrt 2 * PI / (d * q)) with (sqrt 2 / (2 * (d * q)) * (2 * PI))
      by (field; lra).
    apply Rmult_le_compat_r; lra.
Qed.

(** Mirroring a pixel about the centre of the grid changes the sign of its
    coordinate. *)
Lemma kcoord_mirror (pix_size : R) (N : Z) (j : nat) :
  (2 <= N)%Z -> pix_size <> 0 -> (j < Z.to_nat N)%nat ->
  kcoord pix_size N (Z.to_nat N - 1 - j) = Float.neg (kcoord pix_size N j).
Proof.
  intros HN Hp Hj. rewrite !kcoord_finite by done. simpl. f_equal.
  assert (INR (Z.to_nat N - 1 - j) = IZR N - 1 - INR j) as ->.
  { rewrite !minus_INR by lia. rewrite INR_IZR_INZ, Z2Nat.id by lia.
    simpl. lra. }
  assert (2 <= IZR N) as HN' by (by apply IZR_le in HN).
  assert (pix_rad pix_size <> 0) as Hq.
  { unfold pix_rad. pose proof PI_RGT_0. nra. }
  field. split; lra.
Qed.

Lemma ell_at_transpose (pix_size : R) (N : Z) (r c : nat) :
  (2 <= N)%Z -> pix_size <> 0 ->
  ell_at pix_size N c r = ell_at pix_size N r c.
Proof.
  intros HN Hp. unfold ell_at. rewrite !kcoord_finite by done.
  rewrite !FloatFacts.norm_finite. do 3 f_equal. ring.
Qed.

Lemma ell_at_mirror (pix_size : R) (N : Z) (r c : nat) :
  (2 <= N)%Z -> pix_size <> 0 -> (r < Z.to_nat N)%nat ->
  ell_at pix_size N (Z.to_nat N - 1 - r) c = ell_at pix_size N r c.
Proof.
  intros HN Hp Hr. unfold ell_at. rewrite kcoord_mirror by done.
  rewrite !kcoord_finite by done. simpl Float.neg.
  rewrite !FloatFacts.norm_finite. do 3 f_equal. ring.
Qed.

(** The corner of a grid of one-degree pixels lies below multipole 1000. *)
Lemma corner_degree : sqrt 2 * PI / pix_rad 60 < IZR (Z.of_nat 1) * 1000.
Proof.
  pose proof PI_RGT_0 as Hpi. pose proof sqrt_2_sq. pose proof sqrt_2_pos.
  unfold pix_rad. replace (sqrt 2 * PI / (60 / 60 * PI / 180)) with (sqrt 2 * 180)
    by (field; lra).
  change (IZR (Z.of_nat 1)) with 1.
  assert (sqrt 2 < 2) by nra. lra.
Qed.

End RangeFacts.

Section RangeExtras.

Import Np Spectrum GridFacts RangeFacts SpectrumFacts Inputs InputFacts.

(** The multipole grid [ell2d] of a map with [N >= 2] pixels a side and a
    positive pixel size holds finite numbers between 0 and the multipole of
    the corner, [sqrt 2 * pi / pix_rad] with [pix_rad] the pixel size in
    radians.  For an even [N] no pixel has multipole 0: every entry is at
    least [sqrt 2 * pi / ((N - 1) * pix_rad)]. *)
Theorem ell2d_range (pix_size : R) (N : Z) (r c : nat) (e : xreal) :
  (2 <= N)%Z -> 0 < pix_size ->
  ell2d pix_size N !! r ≫= (.!! c) = Some e ->
  exists x,
    e = Fin x /\
    0 <= x <= sqrt 2 * PI / pix_rad pix_size /\
    (Z.even N = true -> sqrt 2 * PI / ((IZR N - 1) * pix_rad pix_size) <= x).
Proof.
  intros HN Hp He. apply ell2d_lookup in He as (Hr & Hc & ->).
  by apply ell_at_range.
Qed.

Lemma ell2d_range_witness :
  exists x,
    ell_at 60 2 0 0 = Fin x /\
    0 <= x <= sqrt 2 * PI / pix_rad 60 /\
    (Z.even 2 = true -> sqrt 2 * PI / ((2 - 1) * pix_rad 60) <= x).
Proof.
  apply (ell2d_range 60 2 0 0 (ell_at 60 2 0 0)).
  - lia.
  - lra.
  - apply ell2d_lookup. simpl. split_and!; [lia|lia|done].
Defined.

(** The multipole grid is symmetric: it is its own transpose, and it is
    unchanged when the rows, or the columns, are put in reverse order. *)
Theorem ell2d_symmetric (pix_size : R) (N : Z) (r c : nat) :
  (2 <= N)%Z -> pix_size <> 0 ->
  (r < Z.to_nat N)%nat -> (c < Z.to_nat N)%nat ->
  exists e,
    ell2d pix_size N !! r ≫= (.!! c) = Some e /\
    ell2d pix_size N !! c ≫= (.!! r) = Some e /\
    ell2d pix_size N !! (Z.to_nat N - 1 - r)%nat ≫= (.!! c) = Some e /\
    ell2d pix_size N !! r ≫= (.!! (Z.to_nat N - 1 - c)%nat) = Some e.
Proof.
  intros HN Hp Hr Hc. exists (ell_at pix_size N r c). split_and!.
  - by apply ell2d_lookup.
  - apply ell2d_lookup. split_and!; try done. by apply ell_at_transpose.
  - apply ell2d_lookup. split_and!; [lia|done|]. symmetry. by apply ell_at_mirror.
  - apply ell2d_lookup. split_and!; [done|lia|].
    rewrite (ell_at_transpose pix_size N (Z.to_nat N - 1 - c) r) by done.
    rewrite ell_at_mirror by done. symmetry. by apply ell_at_transpose.
Qed.

Lemma ell2d_symmetric_witness :
  exists e,
    ell2d 60 2 !! 0%nat ≫= (.!! 1%nat) = Some e /\
    ell2d 60 2 !! 1%nat ≫= (.!! 0%nat) = Some e /\
    ell2d 60 2 !! (Z.to_nat 2 - 1 - 0)%nat ≫= (.!! 1%nat) = Some e /\
    ell2d 60 2 !! 0%nat ≫= (.!! (Z.to_nat 2 - 1 - 1)%nat) = Some e.
Proof.
  apply (ell2d_symmetric 60 2 0 1).
  - lia.
  - lra.
  - simpl. lia.
  - simpl. lia.
Defined.

(** A bin that lies entirely beyond the corner of the multipole grid, or,
    for an even [N], entirely below its smallest multipole, holds NaN in
    the returned [CL_array], whatever the maps are. *)
Theorem bins_off_grid_are_nan (Map1 Map2 : list (list R))
    (delta_ell ell_max pix_size : R) (N : Z) (i : nat) :
  returns Map1 Map2 delta_ell ell_max pix_size N ->
  (2 <= N)%Z -> 0 < pix_size -> 0 < delta_ell ->
  (i < Z.to_nat (Int_part (ell_max / delta_ell)))%nat ->
  sqrt 2 * PI / pix_rad pix_size < IZR (Z.of_nat i) * delta_ell \/
  (Z.even N = true /\
   (IZR (Z.of_nat i) + 1) * delta_ell
   <= sqrt 2 * PI / ((IZR N - 1) * pix_rad pix_size)) ->
  exists ells cls,
    calculate_2d_spectrum Map1 Map2 delta_ell ell_max pix_size N = Ok (ells, cls) /\
    cls !! i = Some NaN.
Proof.
  intros Hret HN Hp Hd Hi Hoff.
  destruct (calculate_2d_spectrum_entries Map1 Map2 delta_ell ell_max pix_size N Hret)
    as (ells & cls & Hcall & _ & _ & Hbins).
  exists ells, cls. split; [done|].
  destruct (Hbins i Hi) as [_ ->]. rewrite bin_mean_empty; [done|].
  intros p (e & He & Hin). apply ell2d_lookup in He as (Hr & Hc & ->).
  destruct (ell_at_range pix_size N p.1 p.2 HN Hp Hr Hc) as (x & Hx & Hx1 & Hx2).
  rewrite Hx in Hin. simpl in Hin.
  destruct Hoff as [Hhigh|[Heven Hlow]]; [lra|].
  specialize (Hx2 Heven). lra.
Qed.

Lemma bins_off_grid_are_nan_witness :
  exists ells cls,
    calculate_2d_spectrum point_map ramp_map 1000 2000 60 2 = Ok (ells, cls) /\
    cls !! 1%nat = Some NaN.
Proof.
  apply (bins_off_grid_are_nan point_map ramp_map 1000 2000 60 2 1).
  - apply returns_two_bins; [apply point_map_is_map|apply ramp_map_is_map].
  - lia.
  - lra.
  - lra.
  - rewrite floor_2. simpl. lia.
  - left. apply corner_degree.
Defined.

End RangeExtras.

(** * The centre pixel of the grid that is binned *)

Module CentreFacts.

Import Cplx Np Spectrum Maps BinFacts ShapeFacts GridFacts RangeFacts.

(** *** The transform at frequency zero *)

Lemma sum_list_nth (l : list R) :
  sum_list l = sum_list (map (fun j => nth j l 0) (seq 0 (length l))).
Proof.
  induction l as [|x l IH]; [done|].
  cbn [length seq map nth]. rewrite <- seq_shift, map_map.
  unfold sum_list in *. cbn [foldr]. by rewrite IH.
Qed.

Lemma total_at2 (n : nat) (g : list (list R)) :
  is_map n g ->
  total g
  = sum_list (map (fun m => sum_list (map (fun j => at2 g m j) (seq 0 n))) (seq 0 n)).
Proof.
  intros [Hlen Hrows]. unfold total.
  rewrite (sum_list_nth (map sum_list g)), length_map, Hlen. f_equal.
  apply map_ext_in. intros m Hm. apply in_seq in Hm.
  change 0 with (sum_list []) at 1. rewrite map_nth.
  assert (length (nth m g []) = n) as Hrow.
  { apply (proj1 (Forall_nth _ [] g) Hrows). lia. }
  by rewrite (sum_list_nth (nth m g [])), Hrow.
Qed.

Lemma sum_embed {A} (F : A -> R) (l : list A) :
  sum (map (fun x => (F x, 0)) l) = (sum_list (map F l), 0).
Proof.
  induction l as [|x l IH]; [done|].
  unfold sum, sum_list in *. cbn [map foldr]. rewrite IH.
  unfold add. simpl. f_equal. ring.
Qed.

Lemma dft2_entry_zero (sgn : R) (n : nat) (g : list (list R)) :
  is_map n g -> dft2_entry sgn g n n 0 0 = (total g, 0).
Proof.
  intros Hg. rewrite (total_at2 n g Hg). unfold dft2_entry.
  rewrite <- sum_embed. f_equal. apply map_ext. intros m.
  rewrite <- sum_embed. f_equal. apply map_ext. intros j.
  change (INR 0) with 0.
  replace (sgn * (2 * PI * (0 * INR m / INR n + 0 * INR j / INR n))) with 0
    by (unfold Rdiv; ring).
  unfold scale, cis. simpl. rewrite cos_0, sin_0. f_equal; ring.
Qed.

(** The grid that is binned, entry by entry. *)
Lemma PSMap_tabulate (n : nat) (A B : list (list R)) :
  is_map n A -> is_map n B -> n <> 0%nat ->
  PSMap A B
  = fftshift
      (map (fun k => map (fun l =>
              real (mul (conj (dft2_entry (-1) A n n k l))
                        (dft2_entry (-1) B n n k l)) / INR n ^ 4)
            (seq 0 n)) (seq 0 n)).
Proof.
  intros HA HB Hn. rewrite (TransformFacts.PSMap_forward n) by done.
  rewrite (ShiftFacts.forward_cross_power_fftshift n) by done.
  unfold forward_cross_power.
  pose proof (is_map_shape n A HA Hn) as [= HA1 HA2].
  pose proof (is_map_shape n B HB Hn) as [= HB1 HB2].
  rewrite !(ShiftFacts.fft2_tabulate n) by done.
  unfold cross_real. rewrite BinFacts.zip_with_map_same, map_map. f_equal.
  apply map_ext. intros k. by rewrite BinFacts.zip_with_map_same, map_map.
Qed.

Lemma at2_tabulate (n : nat) (G : nat -> nat -> R) (r c : nat) :
  (r < n)%nat -> (c < n)%nat ->
  at2 (map (fun k => map (fun l => G k l) (seq 0 n)) (seq 0 n)) r c = G r c.
Proof.
  intros Hr Hc. unfold at2.
  rewrite (ShiftFacts.nth_map_lt _ _ _ 0%nat) by (by rewrite length_seq).
  rewrite seq_nth by done.
  rewrite (ShiftFacts.nth_map_lt _ _ _ 0%nat) by (by rewrite length_seq).
  by rewrite seq_nth.
Qed.

Lemma centre_source (n : nat) : source n (n / 2) (n / 2) = 0%nat.
Proof. unfold source. rewrite Nat.ltb_irrefl. lia. Qed.

Lemma centre_lt (n : nat) : (0 < n)%nat -> (n / 2 < n)%nat.
Proof. intros Hn. apply Nat.div_lt; lia. Qed.

(** *** The multipole of the centre pixel *)

Lemma kcoord_centre_even (pix_size : R) (n : nat) :
  (2 <= n)%nat -> Nat.even n = true -> pix_size <> 0 ->
  kcoord pix_size (Z.of_nat n) (n / 2)
  = Fin (1 / (2 * (INR n - 1) * pix_rad pix_size)).
Proof.
  intros Hn Heven Hp. rewrite kcoord_finite by (done || lia). f_equal.
  apply Nat.even_spec in Heven as [h ->].
  replace (2 * h / 2)%nat with h by (rewrite Nat.mul_comm, Nat.div_mul; lia).
  rewrite <- INR_IZR_INZ, mult_INR. change (INR 2) with 2.
  assert (1 <= INR h) as Hh.
  { change 1 with (INR 1). apply le_INR. lia. }
  assert (pix_rad pix_size <> 0) as Hq.
  { unfold pix_rad. pose proof PI_RGT_0. nra. }
  field. repeat split; (done || lra).
Qed.

Lemma kcoord_centre_odd (pix_size : R) (n : nat) :
  (2 <= n)%nat -> Nat.odd n = true -> pix_size <> 0 ->
  kcoord pix_size (Z.of_nat n) (n / 2) = Fin 0.
Proof.
  intros Hn Hodd Hp. rewrite kcoord_finite by (done || lia). f_equal.
  apply Nat.odd_spec in Hodd as [h ->].
  replace ((2 * h + 1) / 2)%nat with h.
  2:{ apply (Nat.div_unique _ 2 h 1); lia. }
  rewrite <- INR_IZR_INZ, plus_INR, mult_INR. change (INR 2) with 2.
  change (INR 1) with 1.
  assert (1 <= INR h) as Hh.
  { change 1 with (INR 1). apply le_INR. lia. }
  assert (pix_rad pix_size <> 0) as Hq.
  { unfold pix_rad. pose proof PI_RGT_0. nra. }
  field. repeat split; (done || lra).
Qed.

End CentreFacts.

Section CentreExtras.

Import Cplx Np Spectrum Maps ShapeFacts GridFacts RangeFacts CentreFacts Inputs InputFacts.

(** The centre pixel [(N//2, N//2)] of the grid that is binned holds the
    product of the sums of the two maps divided by [N^4], that is the
    product of their means.  For an odd [N] that pixel has multipole 0 in
    [ell2d]; for an even [N] it has the smallest multipole of the grid,
    [sqrt 2 * pi / ((N - 1) * pix_rad)], which is not zero: the means of the
    maps then enter the bin that contains this multipole. *)
Theorem map_means_at_centre (n : nat) (A B : list (list R)) (pix_size : R) :
  is_map n A -> is_map n B -> (2 <= n)%nat -> 0 < pix_size ->
  at2 (PSMap A B) (n / 2) (n / 2) = total A * total B / INR n ^ 4 /\
  (Nat.even n = true ->
   ell2d pix_size (Z.of_nat n) !! (n / 2)%nat ≫= (.!! (n / 2)%nat)
   = Some (Fin (sqrt 2 * PI / ((INR n - 1) * pix_rad pix_size)))) /\
  (Nat.odd n = true ->
   ell2d pix_size (Z.of_nat n) !! (n / 2)%nat ≫= (.!! (n / 2)%nat)
   = Some (Fin 0)).
Proof.
  intros HA HB Hn Hp.
  assert (n / 2 < n)%nat as Hc by (apply centre_lt; lia).
  assert (pix_size <> 0) as Hp0 by lra.
  pose proof PI_RGT_0 as Hpi.
  assert (0 < pix_rad pix_size) as Hq.
  { unfold pix_rad. apply Rmult_lt_0_compat; [apply Rmult_lt_0_compat|]; lra. }
  split_and!.
  - rewrite (PSMap_tabulate n) by (done || lia).
    rewrite (ShiftFacts.at2_fftshift n) by (done || apply tabulate_is_map).
    rewrite centre_source, at2_tabulate by lia.
    rewrite !dft2_entry_zero by done.
    unfold real, mul, conj. simpl. f_equal. ring.
  - intros Heven. apply ell2d_lookup. split_and!; [lia|lia|].
    unfold ell_at. rewrite kcoord_centre_even by done.
    rewrite FloatFacts.norm_finite. simpl. f_equal.
    assert (1 <= INR n - 1) as Hn'.
    { apply le_INR in Hn. change (INR 2) with 2 in Hn. lra. }
    set (w := 1 / (2 * (INR n - 1) * pix_rad pix_size)).
    assert (0 < w) as Hw.
    { unfold w. apply Rdiv_lt_0_compat; [lra|].
      apply Rmult_lt_0_compat; [lra|done]. }
    replace (w * w + w * w) with (2 * (w * w)) by ring.
    rewrite sqrt_mult by nra. rewrite sqrt_square by lra.
    unfold ell_scale_factor, w. field. split; lra.
  - intros Hodd. apply ell2d_lookup. split_and!; [lia|lia|].
    unfold ell_at. rewrite kcoord_centre_odd by done.
    rewrite FloatFacts.norm_finite. simpl. f_equal.
    replace (0 * 0 + 0 * 0) with 0 by ring. rewrite sqrt_0. ring.
Qed.

Lemma map_means_at_centre_witness :
  at2 (PSMap point_map ramp_map) (2 / 2) (2 / 2)
  = total point_map * total ramp_map / INR 2 ^ 4 /\
  (Nat.even 2 = true ->
   ell2d 60 (Z.of_nat 2) !! (2 / 2)%nat ≫= (.!! (2 / 2)%nat)
   = Some (Fin (sqrt 2 * PI / ((INR 2 - 1) * pix_rad 60)))) /\
  (Nat.odd 2 = true ->
   ell2d 60 (Z.of_nat 2) !! (2 / 2)%nat ≫= (.!! (2 / 2)%nat) = Some (Fin 0)).
Proof.
  apply (map_means_at_centre 2 point_map ramp_map 60).
  - apply point_map_is_map.
  - apply ramp_map_is_map.
  - lia.
  - lra.
Defined.

End CentreExtras.

(** * The value of a bin *)

Module BinValueFacts.

Import Cplx Np Spectrum BinFacts ShapeFacts FloatFacts GridFacts.
Import ShiftFacts CentreFacts.

(** A sum of complex numbers is the pair of the sums of the parts. *)
Lemma sum_parts {A} (F : A -> C) (l : list A) :
  sum (map F l)
  = (fold_right Rplus 0 (map (fun x => (F x).1) l),
     fold_right Rplus 0 (map (fun x => (F x).2) l)).
Proof.
  induction l as [|x l IH]; [done|].
  unfold sum in *. cbn [map foldr fold_right]. rewrite IH.
  unfold add. by cbn [fst snd].
Qed.

(** The forward transform of the code is the transform of the
    specification. *)
Lemma dft2_entry_forward (g : list (list R)) (n k l : nat) :
  n <> 0%nat ->
  dft2_entry (-1) g n n k l = (dft_re g n k l, dft_im g n k l).
Proof.
  intros Hn. assert (INR n <> 0) as Hn' by (by apply not_0_INR).
  unfold dft2_entry, dft_re, dft_im. rewrite sum_parts.
  f_equal; f_equal; apply map_ext; intros m; rewrite sum_parts; cbn [fst snd];
    f_equal; apply map_ext; intros j; unfold scale, cis, at2; cbn [fst snd];
    replace (-1 * (2 * PI * (INR k * INR m / INR n + INR l * INR j / INR n)))
      with (- (2 * PI * (INR k * INR m + INR l * INR j) / INR n))
      by (field; done).
  - by rewrite cos_neg.
  - by rewrite sin_neg.
Qed.

(** The position [fftshift] takes an entry from is its frequency index. *)
Lemma source_frequency (n r : nat) :
  (r < n)%nat -> source n (n / 2) r = frequency n r.
Proof.
  intros Hr. unfold source, frequency.
  assert (n / 2 <= n)%nat as Hs by (apply Nat.Div0.div_le_upper_bound; lia).
  destruct (Nat.ltb_spec r (n / 2)) as [Hlt|Hge].
  - symmetry. apply Nat.mod_small. lia.
  - replace (r + (n - n / 2))%nat with ((r - n / 2) + 1 * n)%nat by lia.
    rewrite Nat.Div0.mod_add. symmetry. apply Nat.mod_small. lia.
Qed.

(** An entry of the grid that is binned is the cross-power at the frequency
    of its position, over [n^4]. *)
Lemma at2_PSMap (n : nat) (A B : list (list R)) (p : nat * nat) :
  is_map n A -> is_map n B -> (p.1 < n)%nat -> (p.2 < n)%nat ->
  at2 (PSMap A B) p.1 p.2 = cross_power_at A B n p.
Proof.
  intros HA HB Hr Hc. assert (n <> 0%nat) as Hn by lia.
  rewrite (PSMap_tabulate n) by done.
  rewrite (at2_fftshift n) by (done || apply tabulate_is_map).
  assert (n / 2 <= n)%nat as Hs by (apply Nat.Div0.div_le_upper_bound; lia).
  rewrite at2_tabulate by (apply source_lt; done).
  rewrite !dft2_entry_forward, !source_frequency by done.
  unfold cross_power_at, cross_power, real, mul, conj. cbn [fst snd].
  f_equal. ring.
Qed.

(** The mean of a selection times the factor is the value of the bin. *)
Lemma mean_bin_value (pix_size : R) (values : list R) :
  Float.mul (mean values) (norm_factor pix_size) = bin_value pix_size values.
Proof.
  unfold bin_value, norm_factor, average. fold (pix_rad pix_size).
  destruct values as [|x values]; [by rewrite mean_nil|].
  rewrite mean_cons.
  destruct (sqrt_cases (pix_rad pix_size)) as [[Hneg ->]|[Hpos ->]];
    destruct (Rlt_dec (pix_rad pix_size) 0); try lra; [done|].
  cbn [Float.mul]. done.
Qed.

End BinValueFacts.

(** * The claim about the bins *)

Section BinClaim.

Import Np Spectrum Inputs.
Import ListFacts FloatFacts LoopFacts BinFacts GridFacts SpectrumFacts.
Import InputFacts BinValueFacts.

(** C5.  For maps of shape N x N on which the function returns, it returns
    [floor(ell_max / delta_ell)] bin values; the value of bin [i] is the
    average of the cross-power over exactly the pixels whose [ell2d] value
    lies in [[i * delta_ell, (i + 1) * delta_ell)], each pixel taken once,
    times the factor [sqrt(pix_size/60 * pi/180) * 2], which depends on
    [pix_size] alone; the cross-power of a pixel is the real part of the
    product of the conjugate of the transform of map 1 with the transform of
    map 2 at the frequency of the pixel, with the normalisation [1 / N^4] of
    the inverse transforms the code takes.  For a positive bin width the
    bins are contiguous: no pixel lies in two bins, and every pixel whose
    multipole is below [N_bins * delta_ell] lies in one. *)
Theorem bin_values_are_bin_means (Map1 Map2 : list (list R))
    (delta_ell ell_max pix_size : R) (N : Z) :
  is_map (Z.to_nat N) Map1 -> is_map (Z.to_nat N) Map2 ->
  returns Map1 Map2 delta_ell ell_max pix_size N ->
  exists ells cls,
    calculate_2d_spectrum Map1 Map2 delta_ell ell_max pix_size N = Ok (ells, cls) /\
    length cls = Z.to_nat (Int_part (ell_max / delta_ell)) /\
    (forall i, (i < length cls)%nat ->
       exists pixels,
         NoDup pixels /\
         (forall p, p ∈ pixels <->
                    bin_pixel (ell2d pix_size N) delta_ell (Z.of_nat i) p) /\
         cls !! i
         = Some (bin_value pix_size
                   (map (cross_power_at Map1 Map2 (Z.to_nat N)) pixels))) /\
    (0 < delta_ell ->
     (forall p i j,
        bin_pixel (ell2d pix_size N) delta_ell i p ->
        bin_pixel (ell2d pix_size N) delta_ell j p -> i = j) /\
     (forall p x,
        ell2d pix_size N !! p.1 ≫= (.!! p.2) = Some (Fin x) ->
        0 <= x < INR (length cls) * delta_ell ->
        exists i, (i < length cls)%nat /\
                  bin_pixel (ell2d pix_size N) delta_ell (Z.of_nat i) p)).
Proof.
  intros H1 H2 Hret.
  destruct (calculate_2d_spectrum_entries Map1 Map2 delta_ell ell_max pix_size N Hret)
    as (ells & cls & Hcall & _ & Hlen & Hbins).
  exists ells, cls. split_and!; try done.
  - intros i Hi. rewrite Hlen in Hi. destruct (Hbins i Hi) as [_ Hcl].
    exists (inds_in_bin (ell2d pix_size N) delta_ell (Z.of_nat i)). split_and!.
    + apply inds_in_bin_NoDup.
    + intros p. apply inds_in_bin_spec.
    + rewrite Hcl. f_equal. unfold bin_mean, take_at.
      rewrite <- mean_bin_value. do 2 f_equal.
      apply map_ext_in. intros p Hp.
      apply list_elem_of_In, inds_in_bin_spec in Hp as (e & He & _).
      apply ell2d_lookup in He as (Hr & Hc & _).
      by apply at2_PSMap.
  - intros Hd. split.
    + intros p i j (e & He & Hi) (e' & He' & Hj).
      rewrite He in He'. injection He' as <-.
      by apply (in_bin_unique delta_ell i j e).
    + intros p x Hp Hx. rewrite INR_IZR_INZ in Hx.
      destruct (in_bin_cover delta_ell x (Z.of_nat (length cls)) Hd Hx)
        as (i & Hi & Hin).
      exists (Z.to_nat i). split; [lia|].
      exists (Fin x). split; [done|]. by rewrite Z2Nat.id by lia.
Qed.

Lemma bin_values_are_bin_means_witness :
  exists ells cls,
    calculate_2d_spectrum point_map ramp_map 1000 2000 60 2 = Ok (ells, cls) /\
    length cls = Z.to_nat (Int_part (2000 / 1000)) /\
    (forall i, (i < length cls)%nat ->
       exists pixels,
         NoDup pixels /\
         (forall p, p ∈ pixels <-> bin_pixel (ell2d 60 2) 1000 (Z.of_nat i) p) /\
         cls !! i
         = Some (bin_value 60
                   (map (cross_power_at point_map ramp_map (Z.to_nat 2)) pixels))) /\
    (0 < 1000 ->
     (forall p i j,
        bin_pixel (ell2d 60 2) 1000 i p ->
        bin_pixel (ell2d 60 2) 1000 j p -> i = j) /\
     (forall p x,
        ell2d 60 2 !! p.1 ≫= (.!! p.2) = Some (Fin x) ->
        0 <= x < INR (length cls) * 1000 ->
        exists i, (i < length cls)%nat /\
                  bin_pixel (ell2d 60 2) 1000 (Z.of_nat i) p)).
Proof.
  apply (bin_values_are_bin_means point_map ramp_map 1000 2000 60 2).
  - apply point_map_is_map.
  - apply ramp_map_is_map.
  - apply returns_two_bins; [apply point_map_is_map|apply ramp_map_is_map].
Defined.

End BinClaim.
